(** * The mode-arbitration loop of the pivoting estimator

    A shallow embedding of the main loop of
    [Estimation/tests/test_gtsam_advanced_estimator.py]: the wall-contact
    classifier, the corner-contact hysteresis, the vision staleness gate,
    the contact-mode cascade and the construction of the published
    snapshot.

    Conventions of the embedding.
    - Python floats are modelled by exact rationals ([Q]); the literals
      [3.0], [.2], [1.0] and [15] are [3], [2/10], [1] and [15].  Where
      the loop computes with floats and tests the result, in the wall
      test, the arithmetic is that of binary64, on the binary64 numbers
      nearest to the rationals.
    - The estimator ([gtsam_advanced_estimator]), the contact reasoner
      ([contact_mode_reasoning]) and the transport layer ([ros_manager])
      are collaborators whose code is outside this file.  Every call the
      loop makes on them, and every attribute of the estimator the loop
      assigns, is recorded in order in the [trace] of the world; what
      they answer in one iteration is part of the [Inputs] of this
      iteration.
    - A Python exception is a [Raise] result; the effects performed before
      the exception stay in the world.

    After the loop come, each in a module of its name, the node that
    publishes the friction parameters the loop reads
    ([Estimation/wrench_cone_estimation.py]) and the script that converts
    recorded bags ([PlottingandVisualization/rosbag_to_pickle.py]). *)

From Stdlib Require Import List Bool Arith ZArith QArith Lia Lqa.
From Stdlib Require Ascii String.
From Stdlib Require SpecFloat.
Import ListNotations.

Set Implicit Arguments.

(** ** Numbers and arrays *)

Definition Vec := list Q.
(** A two-dimensional array, as the list of its rows. *)
Definition Mat := list Vec.

(** [x < y] on floats. *)
Definition Qltb (x y : Q) : bool :=
  match (x ?= y)%Q with Lt => true | _ => false end.

(** ** Binary64 numbers

    A product or a sum of floats is rounded to the nearest binary64
    number, ties to even, and may be an infinity or not a number. *)

Definition float64 := SpecFloat.spec_float.

Definition binary64_prec : Z := 53%Z.
Definition binary64_emax : Z := 1024%Z.

(** The binary64 number nearest to a rational, ties to even: the float
    that the rational stands for. *)
Definition binary64 (x : Q) : float64 :=
  match Qnum x with
  | Z0 => SpecFloat.S754_zero false
  | Zpos n =>
      let '(m, e, l) :=
        SpecFloat.SFdiv_core_binary binary64_prec binary64_emax
          (Zpos n) 0%Z (Zpos (Qden x)) 0%Z in
      SpecFloat.binary_round_aux binary64_prec binary64_emax false m e l
  | Zneg n =>
      let '(m, e, l) :=
        SpecFloat.SFdiv_core_binary binary64_prec binary64_emax
          (Zpos n) 0%Z (Zpos (Qden x)) 0%Z in
      SpecFloat.binary_round_aux binary64_prec binary64_emax true m e l
  end.

Definition float64_add : float64 -> float64 -> float64 :=
  SpecFloat.SFadd binary64_prec binary64_emax.

Definition float64_mul : float64 -> float64 -> float64 :=
  SpecFloat.SFmul binary64_prec binary64_emax.

(** [x < y] on binary64 numbers; false when one of them is not a number. *)
Definition float64_ltb : float64 -> float64 -> bool := SpecFloat.SFltb.

(** The hysteresis counter starts at [np.inf] and is an [int] afterwards. *)
Inductive Count :=
| Finite (n : nat)
| np_inf.

Definition count_incr (c : Count) : Count :=
  match c with
  | Finite n => Finite (S n)
  | np_inf => np_inf
  end.

(** [c > k] *)
Definition count_gt (c : Count) (k : nat) : bool :=
  match c with
  | Finite n => k <? n
  | np_inf => true
  end.

(** ** Data exchanged with the collaborators *)

(** [rm.friction_parameter_dict], restricted to the keys the loop reads. *)
Record FrictionParameterDict := {
  aer : Mat;
  ber : Vec;
  ael : Mat;
  bel : Vec
}.

(** Result of [compute_feasibility_of_hand_line_object_corner_contact]. *)
Record CornerContactDict := {
  is_feasible : bool;
  contact_vertex : nat;
  supporting_geometry : Vec
}.

Definition VisionMap := list nat.

(** Result of [compute_hypothesis_object_poses_from_vision]. *)
Record VisionHypothesisDict := {
  hypothesis_obj_to_vision_map_list : list VisionMap;
  vision_hypothesis_theta_list : Vec
}.

(** Result of the three [compute_hypothesis_object_poses_assuming_*]. *)
Record KinematicHypothesisDict := {
  num_hypothesis : nat;
  hypothesis_object_position_list : list Vec;
  hypothesis_theta_list : Vec;
  hypothesis_ground_contact_face_list : list nat
}.

(** Result of [compute_basic_estimate] when it is not [None]. *)
Record EstimateDict := {
  vertex_positions_wm_current : Mat;
  mglcostheta_current : Vec;
  mglsintheta_current : Vec
}.

Definition SlidingState := list bool.

(** Calls on, and assignments to, [current_estimator]. *)
Inductive EstimatorOp :=
| increment_time
| add_hand_pose_measurement (hand_pose : Vec)
| add_hand_wrench_measurement (wrench : Vec)
| add_sliding_state (s : SlidingState)
| update_wall_contact_state (wall_contact_on : bool)
| add_kinematic_constraints_object_corner_hand_line_contact
    (d : option CornerContactDict)
| add_kinematic_constraints_hand_flush_contact
| add_kinematic_constraints_no_hand_contact_for_vision_assist
| add_kinematic_constraints_no_hand_contact_for_no_vision_assist
    (hypothesis_position : Vec) (hypothesis_theta : Q)
    (ground_contact_face : nat)
| add_vision_estimate (vision_vertex_array : Mat)
| add_vision_constraints_no_hand_contact (m : VisionMap)
| add_vision_constraints_hand_flush_contact (m : VisionMap)
| assign_current_contact_face (f : option nat)
| assign_s_current (s : Q)
| compute_basic_estimate.

(** Calls on [my_cm_reasoner]. *)
Inductive ReasonerOp :=
| update_pose_and_wrench (hand_pose wrench_wm wrench_ee : Vec)
| update_torque_cone_boundary_flag (test : option bool) (flag : option Z)
| COP_reasoning_hand_contact
| update_check_on_transition_from_hand_line_object_line_contact_to_no_contact
| compute_feasibility_of_hand_line_object_corner_contact
| update_vision (vision_vertex_array : Mat)
| compute_hypothesis_object_poses_from_vision
| compute_hypothesis_object_poses_assuming_no_object_motion
| compute_hypothesis_object_poses_assuming_hand_line_object_line_contact
| compute_hypothesis_object_poses_assuming_no_contact
| compute_hand_contact_face
| choose_vision_hypothesis (v : VisionHypothesisDict)
    (k : KinematicHypothesisDict)
| update_previous_estimate_call (e : option EstimateDict).

(** Messages handed to the transport layer. *)
Inductive Message :=
| pivot_frame_estimated (p : Vec)
| polygon_contact_estimate (vertex_array_out : Mat)
    (contact_indices : list nat) (mgl_cos_theta_list mgl_sin_theta_list : Vec)
    (hand_contact_indices wall_contact_indices : list nat) (wall_flag : Z).

Inductive Event :=
| Est (op : EstimatorOp)
| Rsn (op : ReasonerOp)
| Pub (m : Message).

(** ** The world of the loop *)

(** The variables of the script that live across iterations. *)
Record Vars := mkVars {
  t_vision_recent : Q;
  time_since_last_vision_message : Q;
  corner_contact_is_feasible : bool;
  prev_step_was_line_contact : bool;
  num_line_contact_detected_count : Count;
  corner_contact_dict : option CornerContactDict;
  vision_vertex_array : option Mat;
  vision_hypothesis_dict : option VisionHypothesisDict
}.

Record World := mkWorld {
  vars : Vars;
  (** what the reasoner holds as its previous estimate *)
  previous_estimate : option EstimateDict;
  (** newest event first *)
  trace : list Event
}.

(** What one iteration reads: the unpacked transport data, the clock, and
    the answers of the estimator and of the reasoner in this iteration. *)
Record Inputs := {
  time_time : Q;
  friction_parameter_dict : FrictionParameterDict;
  measured_world_manipulation_wrench : Vec;
  (** [rm.measured_contact_wrench]: component [0], then the others *)
  measured_contact_wrench : Q * Vec;
  torque_cone_boundary_test : option bool;
  torque_cone_boundary_flag : option Z;
  sliding_state : SlidingState;
  (** [[x, y, theta_hand]], as [kh.quatlist_to_theta] gives it *)
  hand_pose_pivot_estimator : Vec;
  ee_pose_in_world_manipulation_homog : Mat;
  polygon_vision_estimate_has_new : bool;
  (** the ['vertex_array'] of [rm.polygon_vision_estimate_dict] *)
  polygon_vision_estimate_dict : option Mat;
  (** [len(object_vertex_array[0])], fixed before the loop *)
  num_vertices : nat;
  (** estimator *)
  has_run_once : bool;
  contact_vertices : option (list nat);
  basic_estimate : option EstimateDict;
  (** reasoner *)
  line_line_to_no_contact_check : bool;
  temp_corner_contact_dict : CornerContactDict;
  hypothesis_from_vision : VisionHypothesisDict;
  hypothesis_no_object_motion : KinematicHypothesisDict;
  hypothesis_hand_line_object_line_contact : KinematicHypothesisDict;
  hypothesis_no_contact : KinematicHypothesisDict;
  chosen_vision_hypothesis :
    VisionHypothesisDict -> KinematicHypothesisDict -> option nat;
  hand_contact_face : nat * Q
}.

(** ** Exceptions and the monad of the loop *)

Inductive Exn :=
| NameError
| TypeError
| IndexError
| ValueError
| ZeroDivisionError.

Inductive Res (A : Type) :=
| Ok (a : A)
| Raise (e : Exn).
Arguments Raise {A} e.

Definition M (A : Type) := World -> Res A * World.

Definition ret {A} (a : A) : M A := fun w => (Ok a, w).

Definition bind {A B} (c : M A) (k : A -> M B) : M B :=
  fun w =>
    match c w with
    | (Ok a, w') => k a w'
    | (Raise e, w') => (Raise e, w')
    end.

Definition raise {A} (e : Exn) : M A := fun w => (Raise e, w).

Declare Scope loop_scope.
Delimit Scope loop_scope with loop.
Notation "x <- c ;; k" := (bind c (fun x => k))
  (at level 61, c at next level, right associativity) : loop_scope.
Notation "c ;; k" := (bind c (fun _ => k))
  (at level 61, right associativity) : loop_scope.
Local Open Scope loop_scope.

Definition lift {A} (r : Res A) : M A := fun w => (r, w).

Definition get_vars : M Vars := fun w => (Ok (vars w), w).

Definition modify_vars (f : Vars -> Vars) : M unit :=
  fun w => (Ok tt, mkWorld (f (vars w)) (previous_estimate w) (trace w)).

Definition emit (e : Event) : M unit :=
  fun w => (Ok tt, mkWorld (vars w) (previous_estimate w) (e :: trace w)).

Definition est (op : EstimatorOp) : M unit := emit (Est op).
Definition rsn (op : ReasonerOp) : M unit := emit (Rsn op).
Definition pub (m : Message) : M unit := emit (Pub m).

Arguments ret {A} a w /.
Arguments bind {A B} c k w /.
Arguments raise {A} e w /.
Arguments lift {A} r w /.
Arguments get_vars w /.
Arguments modify_vars f w /.
Arguments emit e w /.
Arguments est op w /.
Arguments rsn op w /.
Arguments pub m w /.

(** Reading a variable that may still be unbound, or subscripting [None]. *)
Definition bound {A} (e : Exn) (o : option A) : M A :=
  match o with
  | Some a => ret a
  | None => raise e
  end.
Arguments bound {A} e o w /.

(** [l[i]] for a non-negative [i]. *)
Definition index {A} (l : list A) (i : nat) : Res A :=
  match nth_error l i with
  | Some a => Ok a
  | None => Raise IndexError
  end.

(** Assignments to the variables of the script. *)
Definition set_t_vision_recent (x : Q) (v : Vars) : Vars :=
  mkVars x (time_since_last_vision_message v) (corner_contact_is_feasible v)
    (prev_step_was_line_contact v) (num_line_contact_detected_count v)
    (corner_contact_dict v) (vision_vertex_array v) (vision_hypothesis_dict v).
Definition set_time_since_last_vision_message (x : Q) (v : Vars) : Vars :=
  mkVars (t_vision_recent v) x (corner_contact_is_feasible v)
    (prev_step_was_line_contact v) (num_line_contact_detected_count v)
    (corner_contact_dict v) (vision_vertex_array v) (vision_hypothesis_dict v).
Definition set_corner_contact_is_feasible (x : bool) (v : Vars) : Vars :=
  mkVars (t_vision_recent v) (time_since_last_vision_message v) x
    (prev_step_was_line_contact v) (num_line_contact_detected_count v)
    (corner_contact_dict v) (vision_vertex_array v) (vision_hypothesis_dict v).
Definition set_prev_step_was_line_contact (x : bool) (v : Vars) : Vars :=
  mkVars (t_vision_recent v) (time_since_last_vision_message v)
    (corner_contact_is_feasible v) x (num_line_contact_detected_count v)
    (corner_contact_dict v) (vision_vertex_array v) (vision_hypothesis_dict v).
Definition set_num_line_contact_detected_count (x : Count) (v : Vars) : Vars :=
  mkVars (t_vision_recent v) (time_since_last_vision_message v)
    (corner_contact_is_feasible v) (prev_step_was_line_contact v) x
    (corner_contact_dict v) (vision_vertex_array v) (vision_hypothesis_dict v).
Definition set_corner_contact_dict (x : option CornerContactDict) (v : Vars)
  : Vars :=
  mkVars (t_vision_recent v) (time_since_last_vision_message v)
    (corner_contact_is_feasible v) (prev_step_was_line_contact v)
    (num_line_contact_detected_count v) x (vision_vertex_array v)
    (vision_hypothesis_dict v).
Definition set_vision_vertex_array (x : option Mat) (v : Vars) : Vars :=
  mkVars (t_vision_recent v) (time_since_last_vision_message v)
    (corner_contact_is_feasible v) (prev_step_was_line_contact v)
    (num_line_contact_detected_count v) (corner_contact_dict v) x
    (vision_hypothesis_dict v).
Definition set_vision_hypothesis_dict (x : option VisionHypothesisDict)
  (v : Vars) : Vars :=
  mkVars (t_vision_recent v) (time_since_last_vision_message v)
    (corner_contact_is_feasible v) (prev_step_was_line_contact v)
    (num_line_contact_detected_count v) (corner_contact_dict v)
    (vision_vertex_array v) x.

(** ** WallContactClassifier (lines 159-176) *)

Definition wall_contact_force_margin : Q := 3.

Fixpoint dot (a b : Vec) : Q :=
  match a, b with
  | x :: a', y :: b' => x * y + dot a' b'
  | _, _ => 0
  end.

(** [np.dot(A, v)] for a two-dimensional [A] and a one-dimensional [v]:
    the rows must have the length of [v]. *)
Definition np_dot (A : Mat) (v : Vec) : Res Vec :=
  if forallb (fun r => length r =? length v) A
  then Ok (map (fun r => dot r v) A)
  else Raise ValueError.

(** The sum of the products of the components, accumulated in the order
    of the components from 0.0, every product and every sum rounded. *)
Fixpoint float64_dot_from (acc : float64) (a b : Vec) : float64 :=
  match a, b with
  | x :: a', y :: b' =>
      float64_dot_from
        (float64_add acc (float64_mul (binary64 x) (binary64 y))) a' b'
  | _, _ => acc
  end.

Definition float64_dot (a b : Vec) : float64 :=
  float64_dot_from (binary64 0) a b.

(** [np.dot(A, v)] on floats, with the same condition on the shapes. *)
Definition np_dot_float64 (A : Mat) (v : Vec) : Res (list float64) :=
  if forallb (fun r => length r =? length v) A
  then Ok (map (fun r => float64_dot r v) A)
  else Raise ValueError.

(** [b + margin] on an array of floats. *)
Definition np_add_scalar (b : Vec) (m : Q) : list float64 :=
  map (fun x => float64_add (binary64 x) (binary64 m)) b.

Fixpoint zip_greater (x y : list float64) : list bool :=
  match x, y with
  | a :: x', b :: y' => float64_ltb b a :: zip_greater x' y'
  | _, _ => []
  end.

(** [x > y] on one-dimensional arrays, with numpy's broadcasting of an
    array of length one. *)
Definition np_greater (x y : list float64) : Res (list bool) :=
  match x, y with
  | [a], _ => Ok (map (fun b => float64_ltb b a) y)
  | _, [b] => Ok (map (fun a => float64_ltb b a) x)
  | _, _ =>
      if length x =? length y then Ok (zip_greater x y) else Raise ValueError
  end.

Definition any (l : list bool) : bool := existsb (fun b => b) l.

(** One side of the test: [wall_contact_right_bool] with [aer], [ber],
    [wall_contact_left_bool] with [ael], [bel]. *)
Definition wall_contact_bool (a : Mat) (b : Vec) (wrench : Vec) : Res bool :=
  if 0 <? length a then
    match np_dot_float64 a wrench with
    | Raise e => Raise e
    | Ok d =>
        match np_greater d (np_add_scalar b wall_contact_force_margin) with
        | Raise e => Raise e
        | Ok c => Ok (any c)
        end
    end
  else Ok true.

Definition wall_contact_right_bool (i : Inputs) : Res bool :=
  wall_contact_bool (aer (friction_parameter_dict i))
    (ber (friction_parameter_dict i)) (measured_world_manipulation_wrench i).

Definition wall_contact_left_bool (i : Inputs) : Res bool :=
  wall_contact_bool (ael (friction_parameter_dict i))
    (bel (friction_parameter_dict i)) (measured_world_manipulation_wrench i).

Definition wall_flag_of (right left : bool) : Z :=
  if right && negb left then 0%Z
  else if negb right && left then 1%Z
  else if right && left then 2%Z
  else (-1)%Z.

(** Returns [(wall_flag, wall_contact_on)]. *)
Definition classify_wall_contact (i : Inputs) : M (Z * bool) :=
  r <- lift (wall_contact_right_bool i) ;;
  l <- lift (wall_contact_left_bool i) ;;
  ret (wall_flag_of r l, r || l).

(** ** Reasoner update (lines 186-195) *)

Definition measured_wrench_ee (i : Inputs) : Vec :=
  fst (measured_contact_wrench i) :: snd (measured_contact_wrench i).

Definition update_reasoner (i : Inputs) : M unit :=
  rsn (update_pose_and_wrench (hand_pose_pivot_estimator i)
         (measured_world_manipulation_wrench i) (measured_wrench_ee i)) ;;
  rsn (update_torque_cone_boundary_flag (torque_cone_boundary_test i)
         (torque_cone_boundary_flag i)) ;;
  rsn COP_reasoning_hand_contact ;;
  rsn update_check_on_transition_from_hand_line_object_line_contact_to_no_contact.

(** ** HysteresisTracker (lines 199-211) *)

Definition update_corner_contact_feasibility (i : Inputs) : M unit :=
  if has_run_once i then
    rsn compute_feasibility_of_hand_line_object_corner_contact ;;
    if is_feasible (temp_corner_contact_dict i) then
      modify_vars (set_corner_contact_is_feasible true) ;;
      modify_vars (set_corner_contact_dict (Some (temp_corner_contact_dict i))) ;;
      modify_vars (set_num_line_contact_detected_count (Finite 0))
    else
      modify_vars (fun v =>
        set_num_line_contact_detected_count
          (count_incr (num_line_contact_detected_count v)) v) ;;
      v <- get_vars ;;
      if count_gt (num_line_contact_detected_count v) 15
      then modify_vars (set_corner_contact_is_feasible false)
      else ret tt
  else ret tt.

(** ** StalenessGate (lines 216-224) *)

(** [rm.polygon_vision_estimate_has_new and
    rm.polygon_vision_estimate_dict is not None], with the vertex array. *)
Definition new_vision (i : Inputs) : option Mat :=
  if polygon_vision_estimate_has_new i then polygon_vision_estimate_dict i
  else None.

Definition has_new_vision (i : Inputs) : bool :=
  match new_vision i with
  | Some _ => true
  | None => false
  end.

Definition staleness_gate (i : Inputs) : M unit :=
  match new_vision i with
  | Some vertex_array =>
      modify_vars (set_t_vision_recent (time_time i)) ;;
      modify_vars (set_time_since_last_vision_message 0) ;;
      modify_vars (set_vision_vertex_array (Some vertex_array)) ;;
      rsn (update_vision vertex_array) ;;
      rsn compute_hypothesis_object_poses_from_vision ;;
      modify_vars (set_vision_hypothesis_dict (Some (hypothesis_from_vision i)))
  | None =>
      modify_vars (fun v =>
        set_time_since_last_vision_message
          (time_time i - t_vision_recent v) v)
  end.

(** [time_since_last_vision_message<.2] *)
Definition vision_is_fresh (v : Vars) : bool :=
  Qltb (time_since_last_vision_message v) (2 # 10).

(** [time_since_last_vision_message>1.0] *)
Definition vision_is_long_stale (v : Vars) : bool :=
  Qltb 1 (time_since_last_vision_message v).

(** ** ModeArbitrator (lines 228-347) *)

(** [rm.torque_cone_boundary_test is not None and
    rm.torque_cone_boundary_test] *)
Definition torque_cone_boundary_test_holds (i : Inputs) : bool :=
  match torque_cone_boundary_test i with
  | Some b => b
  | None => false
  end.

(** [measured_wrench_ee[0]>3.0] *)
Definition normal_force_exceeds (i : Inputs) : bool :=
  Qltb 3 (fst (measured_contact_wrench i)).

(** The condition of the [if] of line 228. *)
Definition corner_contact_condition (i : Inputs) (v : Vars) : bool :=
  torque_cone_boundary_test_holds i && corner_contact_is_feasible v
  && normal_force_exceeds i.

(** The condition of the [elif] of line 258. *)
Definition flush_contact_condition (i : Inputs) : bool :=
  torque_cone_boundary_test_holds i && normal_force_exceeds i.

(** The condition of the [elif] of line 326. *)
Definition no_contact_condition (i : Inputs) (v : Vars) : bool :=
  line_line_to_no_contact_check i && vision_is_long_stale v.

(** The pose, wrench and sliding-state observations pushed by every branch. *)
Definition add_measurements (i : Inputs) : M unit :=
  est (add_hand_pose_measurement (hand_pose_pivot_estimator i)) ;;
  est (add_hand_wrench_measurement (measured_world_manipulation_wrench i)) ;;
  est (add_sliding_state (sliding_state i)).

(** The four branches return [(can_run_estimate, hand_contact_indices)]. *)

(** Lines 229-253. *)
Definition corner_contact_branch (i : Inputs) (wall_contact_on : bool)
  : M (bool * list nat) :=
  modify_vars (set_prev_step_was_line_contact false) ;;
  est increment_time ;;
  add_measurements i ;;
  est (update_wall_contact_state wall_contact_on) ;;
  v <- get_vars ;;
  est (add_kinematic_constraints_object_corner_hand_line_contact
         (corner_contact_dict v)) ;;
  d <- bound TypeError (corner_contact_dict v) ;;
  let hand_contact_indices := [contact_vertex d] in
  est (assign_current_contact_face None) ;;
  rsn compute_hypothesis_object_poses_assuming_no_object_motion ;;
  let kinematic_hypothesis_dict := hypothesis_no_object_motion i in
  (if vision_is_fresh v then
     vh <- bound NameError (vision_hypothesis_dict v) ;;
     rsn (choose_vision_hypothesis vh kinematic_hypothesis_dict) ;;
     match chosen_vision_hypothesis i vh kinematic_hypothesis_dict with
     | Some hypothesis_index =>
         va <- bound NameError (vision_vertex_array v) ;;
         est (add_vision_estimate va) ;;
         m <- lift (index (hypothesis_obj_to_vision_map_list vh)
                      hypothesis_index) ;;
         est (add_vision_constraints_no_hand_contact m)
     | None => ret tt
     end
   else ret tt) ;;
  ret (true, hand_contact_indices).

(** [(current_contact_face+1)%num_vertices] *)
Definition cyclic_successor (face n : nat) : Res nat :=
  match n with
  | O => Raise ZeroDivisionError
  | S _ => Ok ((face + 1) mod n)
  end.

(** Lines 259-291. *)
Definition flush_contact_branch (i : Inputs) (wall_contact_on : bool)
  : M (bool * list nat) :=
  est increment_time ;;
  rsn compute_hand_contact_face ;;
  let current_contact_face := fst (hand_contact_face i) in
  let s_current_cm_reasoner := snd (hand_contact_face i) in
  est (assign_current_contact_face (Some current_contact_face)) ;;
  v <- get_vars ;;
  (if negb (prev_step_was_line_contact v)
   then est (assign_s_current s_current_cm_reasoner)
   else ret tt) ;;
  add_measurements i ;;
  est (update_wall_contact_state wall_contact_on) ;;
  est add_kinematic_constraints_hand_flush_contact ;;
  rsn compute_hypothesis_object_poses_assuming_hand_line_object_line_contact ;;
  let kinematic_hypothesis_dict := hypothesis_hand_line_object_line_contact i in
  next <- lift (cyclic_successor current_contact_face (num_vertices i)) ;;
  let hand_contact_indices := [current_contact_face; next] in
  (if vision_is_fresh v then
     vh <- bound NameError (vision_hypothesis_dict v) ;;
     rsn (choose_vision_hypothesis vh kinematic_hypothesis_dict) ;;
     va <- bound NameError (vision_vertex_array v) ;;
     est (add_vision_estimate va) ;;
     match chosen_vision_hypothesis i vh kinematic_hypothesis_dict with
     | Some hypothesis_index =>
         m <- lift (index (hypothesis_obj_to_vision_map_list vh)
                      hypothesis_index) ;;
         est (add_vision_constraints_hand_flush_contact m)
     | None => ret tt
     end
   else ret tt) ;;
  modify_vars (set_prev_step_was_line_contact true) ;;
  ret (true, hand_contact_indices).

(** Lines 295-324. *)
Definition vision_assist_branch (i : Inputs) (wall_contact_on : bool)
  : M (bool * list nat) :=
  rsn compute_hypothesis_object_poses_assuming_no_object_motion ;;
  let kinematic_hypothesis_dict := hypothesis_no_object_motion i in
  v <- get_vars ;;
  vh <- bound NameError (vision_hypothesis_dict v) ;;
  rsn (choose_vision_hypothesis vh kinematic_hypothesis_dict) ;;
  match chosen_vision_hypothesis i vh kinematic_hypothesis_dict with
  | Some hypothesis_index =>
      modify_vars (set_prev_step_was_line_contact false) ;;
      est (assign_current_contact_face None) ;;
      est increment_time ;;
      add_measurements i ;;
      est (update_wall_contact_state wall_contact_on) ;;
      (* test_val, computed and not used *)
      _ <- lift (index (vision_hypothesis_theta_list vh) hypothesis_index) ;;
      (if has_run_once i
       then est add_kinematic_constraints_no_hand_contact_for_vision_assist
       else ret tt) ;;
      va <- bound NameError (vision_vertex_array v) ;;
      est (add_vision_estimate va) ;;
      m <- lift (index (hypothesis_obj_to_vision_map_list vh)
                   hypothesis_index) ;;
      est (add_vision_constraints_no_hand_contact m) ;;
      ret (true, [])
  | None => ret (false, [])
  end.

(** Lines 328-347. *)
Definition no_contact_branch (i : Inputs) : M (bool * list nat) :=
  rsn compute_hypothesis_object_poses_assuming_no_contact ;;
  let kinematic_hypothesis_dict := hypothesis_no_contact i in
  if num_hypothesis kinematic_hypothesis_dict =? 1 then
    modify_vars (set_prev_step_was_line_contact false) ;;
    est (assign_current_contact_face None) ;;
    est increment_time ;;
    add_measurements i ;;
    p <- lift (index (hypothesis_object_position_list
                        kinematic_hypothesis_dict) 0) ;;
    t <- lift (index (hypothesis_theta_list kinematic_hypothesis_dict) 0) ;;
    f <- lift (index (hypothesis_ground_contact_face_list
                        kinematic_hypothesis_dict) 0) ;;
    est (add_kinematic_constraints_no_hand_contact_for_no_vision_assist p t f) ;;
    ret (true, [])
  else ret (false, []).

(** The [if]/[elif] chain of lines 228, 258, 294 and 326; without a
    matching branch [can_run_estimate] stays [False] and
    [hand_contact_indices] stays empty. *)
Definition arbitrate (i : Inputs) (wall_contact_on : bool)
  : M (bool * list nat) :=
  v <- get_vars ;;
  if corner_contact_condition i v then corner_contact_branch i wall_contact_on
  else if flush_contact_condition i then flush_contact_branch i wall_contact_on
  else if has_new_vision i then vision_assist_branch i wall_contact_on
  else if no_contact_condition i v then no_contact_branch i
  else ret (false, []).

(** ** EstimateSnapshotBuilder (lines 351-402) *)

Definition hand_front_center : Vec := [0; 0; 41 # 1000; 1].

(** Modelled from the spec: [update_previous_estimate] of the reasoner
    ([Estimation/contact_mode_reasoning.py] is not among the sources).  The
    reasoner keeps the snapshot it is given as its previous estimate,
    whatever the snapshot is. *)
Definition update_previous_estimate (e : option EstimateDict) : M unit :=
  fun w =>
    (Ok tt, mkWorld (vars w) e (Rsn (update_previous_estimate_call e) :: trace w)).
Arguments update_previous_estimate e w /.

Fixpoint argmin_from (best : Q) (best_index next : nat) (l : Vec) : nat :=
  match l with
  | [] => best_index
  | x :: l' =>
      if Qltb x best then argmin_from x next (S next) l'
      else argmin_from best best_index (S next) l'
  end.

(** [np.argmin]: the first index of a minimum. *)
Definition np_argmin (l : Vec) : Res nat :=
  match l with
  | [] => Raise ValueError
  | x :: l' => Ok (argmin_from x 0 1 l')
  end.

Fixpoint argmax_from (best : Q) (best_index next : nat) (l : Vec) : nat :=
  match l with
  | [] => best_index
  | x :: l' =>
      if Qltb best x then argmax_from x next (S next) l'
      else argmax_from best best_index (S next) l'
  end.

(** [np.argmax]: the first index of a maximum. *)
Definition np_argmax (l : Vec) : Res nat :=
  match l with
  | [] => Raise ValueError
  | x :: l' => Ok (argmax_from x 0 1 l')
  end.

(** [d['vertex_positions_wm_current'][r][c]] *)
Definition vertex_position (d : EstimateDict) (r c : nat) : Res Q :=
  match index (vertex_positions_wm_current d) r with
  | Ok row => index row c
  | Raise e => Raise e
  end.

(** Lines 364-368. *)
Definition publish_pivot_frame (i : Inputs) (d : EstimateDict)
  (hand_front_center_world : Vec) : M unit :=
  match contact_vertices i with
  | Some vertices =>
      contact_index <- lift (index vertices 0) ;;
      pn_wm <- lift (vertex_position d 0 contact_index) ;;
      pt_wm <- lift (vertex_position d 1 contact_index) ;;
      z <- lift (index hand_front_center_world 2) ;;
      pub (pivot_frame_estimated [pn_wm; pt_wm; z])
  | None => ret tt
  end.

(** The lists filled by the loop of lines 380-390. *)
Record VertexLists := mkVertexLists {
  vertex_array_n : Vec;
  vertex_array_t : Vec;
  vertex_array_z : Vec;
  mgl_cos_theta_list : Vec;
  mgl_sin_theta_list : Vec;
  contact_indices : list nat
}.

(** [i in current_estimator.contact_vertices], behind the test that
    [contact_vertices] is not [None]. *)
Definition is_contact_vertex (i : Inputs) (k : nat) : bool :=
  match contact_vertices i with
  | Some vertices => existsb (Nat.eqb k) vertices
  | None => false
  end.

(** The body of the loop, for the index [k]. *)
Definition append_vertex (i : Inputs) (d : EstimateDict)
  (hand_front_center_world : Vec) (k : nat) (acc : VertexLists)
  : M VertexLists :=
  n <- lift (vertex_position d 0 k) ;;
  t <- lift (vertex_position d 1 k) ;;
  z <- lift (index hand_front_center_world 2) ;;
  c <- lift (index (mglcostheta_current d) k) ;;
  s <- lift (index (mglsintheta_current d) k) ;;
  ret (mkVertexLists (vertex_array_n acc ++ [n]) (vertex_array_t acc ++ [t])
         (vertex_array_z acc ++ [z]) (mgl_cos_theta_list acc ++ [c])
         (mgl_sin_theta_list acc ++ [s])
         (if is_contact_vertex i k then contact_indices acc ++ [k]
          else contact_indices acc)).

Fixpoint for_range {A} (range : list nat) (body : nat -> A -> M A) (acc : A)
  : M A :=
  match range with
  | [] => ret acc
  | k :: range' => acc' <- body k acc ;; for_range range' body acc'
  end.

(** Lines 394-397. *)
Definition wall_contact_indices_of (wall_flag : Z) (tangential : Vec)
  : Res (list nat) :=
  if (wall_flag =? 0)%Z then
    match np_argmin tangential with
    | Ok k => Ok [k]
    | Raise e => Raise e
    end
  else if (wall_flag =? 1)%Z then
    match np_argmax tangential with
    | Ok k => Ok [k]
    | Raise e => Raise e
    end
  else Ok [].

(** Lines 360-402, for an estimate that is not [None]. *)
Definition publish_estimate (i : Inputs) (wall_flag : Z)
  (hand_contact_indices : list nat) (hand_front_center_world : Vec)
  (d : EstimateDict) : M unit :=
  (* height_indices, computed and not used *)
  row0 <- lift (index (vertex_positions_wm_current d) 0) ;;
  publish_pivot_frame i d hand_front_center_world ;;
  l <- for_range (seq 0 (length row0))
         (append_vertex i d hand_front_center_world)
         (mkVertexLists [] [] [] [] [] []) ;;
  let vertex_array_out :=
    [vertex_array_n l; vertex_array_t l; vertex_array_z l] in
  wall_contact_indices <-
    lift (wall_contact_indices_of wall_flag (vertex_array_t l)) ;;
  pub (polygon_contact_estimate vertex_array_out (contact_indices l)
         (mgl_cos_theta_list l) (mgl_sin_theta_list l)
         hand_contact_indices wall_contact_indices wall_flag).

(** Lines 351-402. *)
Definition build_snapshot (i : Inputs) (wall_flag : Z)
  (can_run_estimate : bool) (hand_contact_indices : list nat) : M unit :=
  if can_run_estimate then
    hand_front_center_world <-
      lift (np_dot (ee_pose_in_world_manipulation_homog i) hand_front_center) ;;
    est compute_basic_estimate ;;
    let current_estimate_dict := basic_estimate i in
    update_previous_estimate current_estimate_dict ;;
    match current_estimate_dict with
    | Some d =>
        publish_estimate i wall_flag hand_contact_indices
          hand_front_center_world d
    | None => ret tt
    end
  else ret tt.

(** ** One iteration of the loop, and a run *)

(** Lines 149-224: everything before the cascade; returns
    [(wall_flag, wall_contact_on)]. *)
Definition prelude (i : Inputs) : M (Z * bool) :=
  wall <- classify_wall_contact i ;;
  update_reasoner i ;;
  update_corner_contact_feasibility i ;;
  staleness_gate i ;;
  ret wall.

(** Lines 228-402: the cascade, then the snapshot when a branch ran. *)
Definition arbitrate_and_publish (i : Inputs) (wall : Z * bool) : M unit :=
  r <- arbitrate i (snd wall) ;;
  build_snapshot i (fst wall) (fst r) (snd r).

Definition cycle (i : Inputs) : M unit :=
  wall <- prelude i ;;
  arbitrate_and_publish i wall.

(** The iterations on successive inputs; an exception ends the run. *)
Fixpoint run (inputs : list Inputs) : M unit :=
  match inputs with
  | [] => ret tt
  | i :: inputs' => cycle i ;; run inputs'
  end.

(** The variables as lines 137-144 initialise them, at time [t0]. *)
Definition initial_vars (t0 : Q) : Vars :=
  mkVars (t0 - 1) 100 false true np_inf None None None.

(** ** Observing a computation *)

(** The world with another trace. *)
Definition with_trace (t : list Event) (w : World) : World :=
  mkWorld (vars w) (previous_estimate w) t.

(** The events a computation emits from [w], oldest first: the trace it
    leaves when started on an empty trace ([framed_trace] below). *)
Definition events_of {A} (c : M A) (w : World) : list Event :=
  rev (trace (snd (c (with_trace [] w)))).

Fixpoint estimator_ops (l : list Event) : list EstimatorOp :=
  match l with
  | [] => []
  | Est op :: l' => op :: estimator_ops l'
  | _ :: l' => estimator_ops l'
  end.

Fixpoint published (l : list Event) : list Message :=
  match l with
  | [] => []
  | Pub m :: l' => m :: published l'
  | _ :: l' => published l'
  end.

(** The pivot-frame messages among the published ones. *)
Fixpoint pivot_frames (l : list Message) : list Vec :=
  match l with
  | [] => []
  | pivot_frame_estimated p :: l' => p :: pivot_frames l'
  | _ :: l' => pivot_frames l'
  end.

(** A computation neither reads the trace nor drops events from it. *)
Definition framed {A} (c : M A) : Prop :=
  forall w t,
    c (with_trace (trace w ++ t) w) =
    (fst (c w), with_trace (trace (snd (c w)) ++ t) (snd (c w))).

(** A computation leaves the observation [f] of the variables as it is. *)
Definition preserves {A B} (f : Vars -> B) (c : M A) : Prop :=
  forall w, f (vars (snd (c w))) = f (vars w).

(** ** The cascade as the specification words it *)

Inductive Mode :=
| CornerContactMode
| FlushLineContactMode
| VisionAssistMode
| NoContactMode
| Idle.

Definition Mode_eqb (m m' : Mode) : bool :=
  match m, m' with
  | CornerContactMode, CornerContactMode
  | FlushLineContactMode, FlushLineContactMode
  | VisionAssistMode, VisionAssistMode
  | NoContactMode, NoContactMode
  | Idle, Idle => true
  | _, _ => false
  end.

(** The precondition of each mode, on the inputs of the iteration and the
    variables as the staleness gate leaves them: the torque-boundary test,
    corner feasibility and normal force for the two contact modes; a new
    vision estimate and a chosen hypothesis for the vision-assist mode; the
    transition check, a long-stale vision and a single hypothesis for the
    no-contact mode; nothing for the idle outcome. *)
Definition precondition (m : Mode) (i : Inputs) (v : Vars) : bool :=
  match m with
  | CornerContactMode =>
      torque_cone_boundary_test_holds i && corner_contact_is_feasible v
      && normal_force_exceeds i
  | FlushLineContactMode =>
      torque_cone_boundary_test_holds i && normal_force_exceeds i
  | VisionAssistMode =>
      has_new_vision i &&
      match vision_hypothesis_dict v with
      | Some vh =>
          match chosen_vision_hypothesis i vh (hypothesis_no_object_motion i)
          with
          | Some _ => true
          | None => false
          end
      | None => false
      end
  | NoContactMode =>
      line_line_to_no_contact_check i && vision_is_long_stale v
      && (num_hypothesis (hypothesis_no_contact i) =? 1)
  | Idle => true
  end.

(** The position of a mode in the cascade. *)
Definition cascade_rank (m : Mode) : nat :=
  match m with
  | CornerContactMode => 0
  | FlushLineContactMode => 1
  | VisionAssistMode => 2
  | NoContactMode => 3
  | Idle => 4
  end.

Definition cascade_order : list Mode :=
  [CornerContactMode; FlushLineContactMode; VisionAssistMode; NoContactMode;
   Idle].

(** First matching mode wins. *)
Fixpoint first_match (i : Inputs) (v : Vars) (order : list Mode) : Mode :=
  match order with
  | [] => Idle
  | m :: order' => if precondition m i v then m else first_match i v order'
  end.

Definition selected (i : Inputs) (v : Vars) : Mode :=
  first_match i v cascade_order.

(** The branch of the loop that carries out a mode. *)
Definition mode_sequence (m : Mode) (i : Inputs) (wall_contact_on : bool)
  : M (bool * list nat) :=
  match m with
  | CornerContactMode => corner_contact_branch i wall_contact_on
  | FlushLineContactMode => flush_contact_branch i wall_contact_on
  | VisionAssistMode => vision_assist_branch i wall_contact_on
  | NoContactMode => no_contact_branch i
  | Idle => ret (false, [])
  end.

(** What a computation leaves to the estimator and to the next iteration:
    its result, the variables of the script and the operations on the
    estimator, oldest first. *)
Definition estimator_view {A} (c : M A) (w : World)
  : Res A * Vars * list EstimatorOp :=
  (fst (c w), vars (snd (c w)), estimator_ops (events_of c w)).

Fixpoint count_increment_time (l : list EstimatorOp) : nat :=
  match l with
  | [] => 0
  | increment_time :: l' => S (count_increment_time l')
  | _ :: l' => count_increment_time l'
  end.

(** ** Scenarios *)

Definition identity_homog : Mat :=
  [[1; 0; 0; 0]; [0; 1; 0; 0]; [0; 0; 1; 0]; [0; 0; 0; 1]].

(** A triangle in the hand frame, as vision reports it. *)
Definition triangle : Mat := [[0; 1; 0]; [0; 0; 1]].

Definition triangle_estimate : EstimateDict :=
  Build_EstimateDict [[0; 1; 0]; [0; 0; 1]] [1; 1; 1] [0; 0; 0].

Definition single_hypothesis : KinematicHypothesisDict :=
  Build_KinematicHypothesisDict 1 [[0; 0]] [0] [0%nat].

Definition triangle_vision_hypothesis : VisionHypothesisDict :=
  Build_VisionHypothesisDict [[0%nat; 1%nat; 2%nat]] [0].

(** The inputs of an iteration at time [now], for a triangle, without
    friction inequalities (both wall tests fail open) and with the hand at
    the origin; the other readings are the parameters. *)
Definition scenario (now : Q) (torque_test : option bool) (normal_force : Q)
  (vision : option Mat) (run_once feasible : bool)
  (chosen : option nat) (no_contact_check : bool)
  (no_contact_hypothesis : KinematicHypothesisDict)
  (vertices : option (list nat)) (estimate : option EstimateDict) : Inputs :=
  Build_Inputs now (Build_FrictionParameterDict [] [] [] []) [0; 0; 0]
    (normal_force, [0; 0]) torque_test None [] [0; 0; 0] identity_homog
    (match vision with Some _ => true | None => false end) vision 3
    run_once vertices estimate no_contact_check
    (Build_CornerContactDict feasible 2 []) triangle_vision_hypothesis
    single_hypothesis single_hypothesis no_contact_hypothesis
    (fun _ _ => chosen) (0%nat, 1 # 2).

(** The world when the loop starts at time [t0]; line 133 has given the
    reasoner the first estimate. *)
Definition initial_world (t0 : Q) (e0 : option EstimateDict) : World :=
  mkWorld (initial_vars t0) e0 [].

(** Nothing in contact; the reasoner finds corner contact feasible or not. *)
Definition corner_report (feasible : bool) : Inputs :=
  scenario 0 None 0 None true feasible None false single_hypothesis None None.

(** A vision estimate arrives at time [t]; nothing is in contact and the
    reasoner chooses no hypothesis. *)
Definition vision_arrives (t : Q) : Inputs :=
  scenario t None 0 (Some triangle) true false None false single_hypothesis
    None None.

(** At time [t] the torque-boundary test holds with a normal force of 5;
    no new vision estimate, and the reasoner chooses no hypothesis. *)
Definition hand_contact (t : Q) : Inputs :=
  scenario t (Some true) 5 None true false None false single_hypothesis
    None None.

(** The inputs [i] with another friction polytope and another wrench in
    the manipulation frame. *)
Definition with_friction (d : FrictionParameterDict) (wrench : Vec)
  (i : Inputs) : Inputs :=
  Build_Inputs (time_time i) d wrench (measured_contact_wrench i)
    (torque_cone_boundary_test i) (torque_cone_boundary_flag i)
    (sliding_state i) (hand_pose_pivot_estimator i)
    (ee_pose_in_world_manipulation_homog i)
    (polygon_vision_estimate_has_new i) (polygon_vision_estimate_dict i)
    (num_vertices i) (has_run_once i) (contact_vertices i) (basic_estimate i)
    (line_line_to_no_contact_check i) (temp_corner_contact_dict i)
    (hypothesis_from_vision i) (hypothesis_no_object_motion i)
    (hypothesis_hand_line_object_line_contact i) (hypothesis_no_contact i)
    (chosen_vision_hypothesis i) (hand_contact_face i).

(** One right-side row [a_er] with [a_er . wrench = 5.0], and [b_er]. *)
Definition right_wall_row (b_er : Q) : Inputs :=
  with_friction (Build_FrictionParameterDict [[1; 2]] [b_er] [] []) [1; 2]
    (corner_report false).

(** At time 2 the line-to-no-contact check fires, without hand contact and
    without vision; the no-contact hypothesis set has [n] hypotheses. *)
Definition no_contact_transition (n : nat) : Inputs :=
  scenario 2 None 0 None true false None true
    (Build_KinematicHypothesisDict n [[0; 0]] [0] [0%nat]) None None.

(** A vision estimate arrives at time [t] and the reasoner chooses its
    hypothesis 0; nothing is in contact. *)
Definition vision_assisted (t : Q) : Inputs :=
  scenario t None 0 (Some triangle) true false (Some 0%nat) false
    single_hypothesis None None.

(** Hand contact at time [t] with an estimator that returns the triangle
    and holds [vertices] as its contact vertices. *)
Definition estimated_contact (t : Q) (vertices : option (list nat)) : Inputs :=
  scenario t (Some true) 5 None true false None false single_hypothesis
    vertices (Some triangle_estimate).

(** The inputs [i] with the right and left friction inequalities
    exchanged. *)
Definition swap_sides (i : Inputs) : Inputs :=
  with_friction
    (Build_FrictionParameterDict (ael (friction_parameter_dict i))
       (bel (friction_parameter_dict i)) (aer (friction_parameter_dict i))
       (ber (friction_parameter_dict i)))
    (measured_world_manipulation_wrench i) i.

(** [wall_flag] with right and left exchanged. *)
Definition mirror_wall_flag (wall_flag : Z) : Z :=
  if (wall_flag =? 0)%Z then 1%Z
  else if (wall_flag =? 1)%Z then 0%Z
  else wall_flag.

(** ** Notions used by the properties *)

(** What the staleness gate guarantees when a vision estimate is new. *)
Definition gated (i : Inputs) (v : Vars) : Prop :=
  has_new_vision i = true ->
  time_since_last_vision_message v = 0%Q
  /\ vision_hypothesis_dict v = Some (hypothesis_from_vision i).

(** The three variables of the hysteresis. *)
Definition hysteresis (v : Vars)
  : bool * Count * option CornerContactDict :=
  (corner_contact_is_feasible v, num_line_contact_detected_count v,
   corner_contact_dict v).

(** Every input reports corner contact infeasible, with an estimator that
    has run once. *)
Definition infeasible_reports (reports : list Inputs) : bool :=
  forallb (fun i => has_run_once i
                    && negb (is_feasible (temp_corner_contact_dict i)))
    reports.


(** The lists hold the first [n] vertices of the estimate [d], in the order
    of the estimate. *)
Definition holds_vertices (d : EstimateDict) (n : nat) (l : VertexLists)
  : Prop :=
  (length (vertex_array_n l) = n /\ length (vertex_array_t l) = n
   /\ length (mgl_cos_theta_list l) = n /\ length (mgl_sin_theta_list l) = n)
  /\ forall k, (k < n)%nat ->
       index (vertex_array_n l) k = vertex_position d 0 k
       /\ index (vertex_array_t l) k = vertex_position d 1 k
       /\ index (mgl_cos_theta_list l) k = index (mglcostheta_current d) k
       /\ index (mgl_sin_theta_list l) k = index (mglsintheta_current d) k.

(** No input brings a feasible report to the hysteresis. *)
Definition no_feasible_report (inputs : list Inputs) : bool :=
  forallb (fun i => negb (has_run_once i
                          && is_feasible (temp_corner_contact_dict i)))
    inputs.

(** A feasible corner contact has its payload latched. *)
Definition latched (v : Vars) : Prop :=
  corner_contact_is_feasible v = true -> corner_contact_dict v <> None.








(** The calls that open a time step of the estimator: the increment, the
    three measurements and the wall contact state. *)
Definition opens_time_step (op : EstimatorOp) : bool :=
  match op with
  | increment_time
  | add_hand_pose_measurement _
  | add_hand_wrench_measurement _
  | add_sliding_state _
  | update_wall_contact_state _ => true
  | _ => false
  end.

(** * The friction-cone node ([Estimation/wrench_cone_estimation.py])

    The node that publishes the friction parameters the estimator loop
    reads.  The two estimators ([RobotFrictionConeEstimator],
    [ConvexHullEstimator]) are outside this file: the calls on them are
    events of the trace, and the dictionaries they return in one iteration
    are inputs of this iteration.  The time logger of the node has no part
    in what the node publishes and is left out. *)

Module wrench_cone_estimation.

(** [robot_friction_estimator.return_left_right_friction_dictionary()],
    with the keys that lines 125-129 copy. *)
Record ParamDictContact := mkParamDictContact {
  acr : Vec;
  acl : Vec;
  bcr : Q;
  bcl : Q;
  cu : bool
}.

(** [ground_hull_estimator.return_left_right_friction_dictionary()], with
    the keys ['elu'], ['ael'], ['bel'], ['eru'], ['aer'], ['ber'] that
    lines 143-151 read. *)
Record ParamDictGround := mkParamDictGround {
  ground_elu : bool;
  ground_ael : Mat;
  ground_bel : Vec;
  ground_eru : bool;
  ground_aer : Mat;
  ground_ber : Vec
}.

(** [friction_parameter_dict]: lines 56-62 bind the six keys of the wall
    sides; the five keys of the contact side are bound together by the
    first update of the robot friction cone. *)
Record FrictionParameterDict := mkFrictionParameterDict {
  aer : Mat;
  ber : Vec;
  ael : Mat;
  bel : Vec;
  elu : bool;
  eru : bool;
  contact : option ParamDictContact
}.

Inductive Event :=
(** [robot_friction_estimator.add_data_point] *)
| add_data_point_robot (wrench : Vec)
(** [robot_friction_estimator.update_estimator] *)
| update_estimator
(** [ground_hull_estimator.add_data_point] *)
| add_data_point_ground (point : Vec)
(** [ground_hull_estimator.generate_convex_hull_closed_polygon] *)
| generate_convex_hull_closed_polygon
(** [rm.pub_friction_parameter], with the dictionary as it is then *)
| pub_friction_parameter (d : FrictionParameterDict).

(** The variables of the script and the calls made so far, newest first. *)
Record State := mkState {
  friction_parameter_dict : FrictionParameterDict;
  last_update_time : Q;
  should_publish_robot_friction_cone : bool;
  should_publish_ground_friction_cone : bool;
  update_robot_friction_cone : bool;
  update_ground_friction_cone : bool;
  hand_data_point_count : nat;
  ground_data_point_count : nat;
  trace : list Event
}.

(** What one iteration reads after [rm.unpack_all()]. *)
Record Inputs := {
  time_time : Q;
  end_effector_wrench_has_new : bool;
  measured_contact_wrench : Vec;
  end_effector_wrench_base_frame_has_new : bool;
  measured_base_wrench : Vec;
  param_dict_contact : ParamDictContact;
  param_dict_ground : ParamDictGround
}.

Definition boundary_update_time : Q := 2 # 10.
Definition hand_update_number : nat := 100.
Definition ground_update_number : nat := 100.

(** Lines 56-90, at time [t0]. *)
Definition initial_state (t0 : Q) : State :=
  mkState (mkFrictionParameterDict [] [] [] [] false false None) t0
    false false false false 0 0 [].

Definition emit (e : Event) (s : State) : State :=
  mkState (friction_parameter_dict s) (last_update_time s)
    (should_publish_robot_friction_cone s)
    (should_publish_ground_friction_cone s) (update_robot_friction_cone s)
    (update_ground_friction_cone s) (hand_data_point_count s)
    (ground_data_point_count s) (e :: trace s).

(** Lines 98-103. *)
Definition hand_wrench (i : Inputs) (s : State) : State :=
  if end_effector_wrench_has_new i then
    let count := S (hand_data_point_count s) in
    emit (add_data_point_robot (measured_contact_wrench i))
      (mkState (friction_parameter_dict s) (last_update_time s)
         (should_publish_robot_friction_cone s)
         (should_publish_ground_friction_cone s)
         (count mod hand_update_number =? 0)
         (update_ground_friction_cone s) count (ground_data_point_count s)
         (trace s))
  else s.

(** Lines 106-118.  [rm.measured_base_wrench[[0,1]]] raises [IndexError]
    on a wrench with less than two components, before the first call on
    the hull estimator. *)
Definition ground_wrench (i : Inputs) (s : State) : Res unit * State :=
  if end_effector_wrench_base_frame_has_new i then
    let count := S (ground_data_point_count s) in
    let s' :=
      mkState (friction_parameter_dict s) (last_update_time s)
        (should_publish_robot_friction_cone s)
        (should_publish_ground_friction_cone s)
        (update_robot_friction_cone s)
        (count mod ground_update_number =? 0)
        (hand_data_point_count s) count (trace s) in
    if count mod 2 =? 0 then
      match index (measured_base_wrench i) 0,
            index (measured_base_wrench i) 1 with
      | Ok x, Ok y =>
          (Ok tt,
           emit (add_data_point_ground [0; 0])
             (emit (add_data_point_ground [- x; y])
                (emit (add_data_point_ground [x; y]) s')))
      | _, _ => (Raise IndexError, s')
      end
    else (Ok tt, s')
  else (Ok tt, s).

(** Lines 121-132. *)
Definition robot_update (i : Inputs) (s : State) : State :=
  if update_robot_friction_cone s then
    let d := friction_parameter_dict s in
    mkState
      (mkFrictionParameterDict (aer d) (ber d) (ael d) (bel d) (elu d) (eru d)
         (Some (param_dict_contact i)))
      (last_update_time s) true (should_publish_ground_friction_cone s)
      false (update_ground_friction_cone s) (hand_data_point_count s)
      (ground_data_point_count s) (update_estimator :: trace s)
  else s.

(** Lines 143-151: a side is replaced when the hull estimator marks it as
    updated. *)
Definition merge_ground (g : ParamDictGround) (d : FrictionParameterDict)
  : FrictionParameterDict :=
  let d' :=
    if ground_elu g
    then mkFrictionParameterDict (aer d) (ber d) (ground_ael g) (ground_bel g)
           (ground_elu g) (eru d) (contact d)
    else d in
  if ground_eru g
  then mkFrictionParameterDict (ground_aer g) (ground_ber g) (ael d') (bel d')
         (elu d') (ground_eru g) (contact d')
  else d'.

(** Lines 136-154. *)
Definition ground_update (i : Inputs) (s : State) : State :=
  if update_ground_friction_cone s
     && Qltb boundary_update_time (time_time i - last_update_time s)
  then
    mkState (merge_ground (param_dict_ground i) (friction_parameter_dict s))
      (last_update_time s) (should_publish_robot_friction_cone s) true
      (update_robot_friction_cone s) false (hand_data_point_count s)
      (ground_data_point_count s)
      (generate_convex_hull_closed_polygon :: trace s)
  else s.

(** Lines 157-160. *)
Definition publish (s : State) : State :=
  if should_publish_robot_friction_cone s
     && should_publish_ground_friction_cone s
  then
    mkState (friction_parameter_dict s) (last_update_time s) false false
      (update_robot_friction_cone s) (update_ground_friction_cone s)
      (hand_data_point_count s) (ground_data_point_count s)
      (pub_friction_parameter (friction_parameter_dict s) :: trace s)
  else s.

(** One iteration of the loop of lines 93-164. *)
Definition cycle (i : Inputs) (s : State) : Res unit * State :=
  match ground_wrench i (hand_wrench i s) with
  | (Ok _, s') => (Ok tt, publish (ground_update i (robot_update i s')))
  | (Raise e, s') => (Raise e, s')
  end.

(** The iterations on successive inputs; an exception ends the run. *)
Fixpoint run (inputs : list Inputs) (s : State) : Res unit * State :=
  match inputs with
  | [] => (Ok tt, s)
  | i :: inputs' =>
      match cycle i s with
      | (Ok _, s') => run inputs' s'
      | (Raise e, s') => (Raise e, s')
      end
  end.

(** ** Observing a run *)

(** The published dictionaries, newest first. *)
Fixpoint publications (t : list Event) : list FrictionParameterDict :=
  match t with
  | [] => []
  | pub_friction_parameter d :: t' => d :: publications t'
  | _ :: t' => publications t'
  end.

(** The points given to the hull estimator, newest first. *)
Fixpoint ground_points (t : list Event) : list Vec :=
  match t with
  | [] => []
  | add_data_point_ground p :: t' => p :: ground_points t'
  | _ :: t' => ground_points t'
  end.

Fixpoint robot_updates (t : list Event) : nat :=
  match t with
  | [] => 0
  | update_estimator :: t' => S (robot_updates t')
  | _ :: t' => robot_updates t'
  end.

Fixpoint ground_updates (t : list Event) : nat :=
  match t with
  | [] => 0
  | generate_convex_hull_closed_polygon :: t' => S (ground_updates t')
  | _ :: t' => ground_updates t'
  end.

(** The inputs that bring a new wrench in the hand frame, in the base
    frame. *)
Definition new_hand_wrenches (inputs : list Inputs) : nat :=
  length (filter end_effector_wrench_has_new inputs).

Definition new_ground_wrenches (inputs : list Inputs) : nat :=
  length (filter end_effector_wrench_base_frame_has_new inputs).

(** A side of the wall that the hull estimator has not marked as updated
    has no inequality, and the keys of the contact side are bound. *)
Definition publishable (d : FrictionParameterDict) : Prop :=
  contact d <> None
  /\ (eru d = false -> aer d = [] /\ ber d = [])
  /\ (elu d = false -> ael d = [] /\ bel d = []).

(** The bookkeeping of the updates: a publication takes a robot update and
    a ground update of its own, and an update takes a hundredth wrench of
    its own. *)
Definition accounted (s : State) : Prop :=
  (length (publications (trace s))
   + Nat.b2n (should_publish_robot_friction_cone s)
   <= robot_updates (trace s)
   /\ robot_updates (trace s) + Nat.b2n (update_robot_friction_cone s)
      <= hand_data_point_count s / hand_update_number
   /\ length (publications (trace s))
      + Nat.b2n (should_publish_ground_friction_cone s)
      <= ground_updates (trace s)
   /\ ground_updates (trace s) + Nat.b2n (update_ground_friction_cone s)
      <= ground_data_point_count s / ground_update_number)%nat.

(** What the iterations keep for the dictionary and the publications. *)
Definition publishing (s : State) : Prop :=
  (should_publish_robot_friction_cone s = true ->
   contact (friction_parameter_dict s) <> None)
  /\ (eru (friction_parameter_dict s) = false ->
      aer (friction_parameter_dict s) = []
      /\ ber (friction_parameter_dict s) = [])
  /\ (elu (friction_parameter_dict s) = false ->
      ael (friction_parameter_dict s) = []
      /\ bel (friction_parameter_dict s) = [])
  /\ Forall publishable (publications (trace s)).

(** Every point given to the hull estimator comes with its mirror image. *)
Definition mirrored (s : State) : Prop :=
  forall p, In p (ground_points (trace s)) ->
    exists x y, p = [x; y] /\ In [(- x)%Q; y] (ground_points (trace s)).



(** ** Scenarios *)

(** A wrench in each frame at time [t]. *)
Definition both_wrenches (t : Q) : Inputs :=
  Build_Inputs t true [5; 0; 0] true [1; 2; 0]
    (mkParamDictContact [1; 0; 0] [1; 0; 0] 0 0 true)
    (mkParamDictGround true [[0; 1; 0]] [1] false [] []).

End wrench_cone_estimation.

(** * The bag converter ([PlottingandVisualization/rosbag_to_pickle.py])

    The script that turns the recorded bags of a directory into pickled
    dictionaries.  The directory listing and the messages of every bag are
    inputs; the converters of [Helpers.pbal_msg_helper] and of [CvBridge]
    are outside this file, and what they return is kept as a value that
    names the converter and its argument.  An exception ends the script
    before the bag at hand is saved. *)

Module rosbag_to_pickle.

Import Ascii String.
Import List ListNotations.

Inductive Exn :=
| IndexError
| AttributeError.

Inductive Res (A : Type) :=
| Ok (a : A)
| Raise (e : Exn).
Arguments Raise {A} e.

(** [l[k]] for a non-negative [k]. *)
Definition getitem {A} (l : list A) (k : nat) : Res A :=
  match nth_error l k with
  | Some a => Ok a
  | None => Raise IndexError
  end.

(** ** Dictionaries

    A Python dictionary keeps its keys in the order of their first
    insertion; an assignment to a key that is present replaces the value
    in place. *)

Section Dict.

Variables (K V : Type) (key_eqb : K -> K -> bool).

Fixpoint dict_get (d : list (K * V)) (k : K) : option V :=
  match d with
  | [] => None
  | (k', v) :: d' => if key_eqb k' k then Some v else dict_get d' k
  end.

Fixpoint dict_set (d : list (K * V)) (k : K) (v : V) : list (K * V) :=
  match d with
  | [] => [(k, v)]
  | (k', v') :: d' =>
      if key_eqb k' k then (k', v) :: d' else (k', v') :: dict_set d' k v
  end.

Definition dict_keys (d : list (K * V)) : list K := map fst d.

End Dict.

(** ** Strings *)

(** [pattern in s] *)
Fixpoint contains (pattern s : string) : bool :=
  prefix pattern s
  || match s with
     | EmptyString => false
     | String _ s' => contains pattern s'
     end.

(** [s.split('.')] *)
Fixpoint split_dot (s : string) : list string :=
  match s with
  | EmptyString => [EmptyString]
  | String c s' =>
      if (c =? ".")%char then EmptyString :: split_dot s'
      else
        match split_dot s' with
        | head :: tail => String c head :: tail
        | [] => [String c EmptyString]
        end
  end.

(** [s[1:]] *)
Definition drop_first (s : string) : string :=
  match s with
  | EmptyString => EmptyString
  | String _ s' => s'
  end.

(** The parts of [s] before and from its last dot. *)
Fixpoint rsplit_dot (s : string) : option (string * string) :=
  match s with
  | EmptyString => None
  | String c s' =>
      match rsplit_dot s' with
      | Some (root, ext) => Some (String c root, ext)
      | None => if (c =? ".")%char then Some (EmptyString, s) else None
      end
  end.

Fixpoint all_dots (s : string) : bool :=
  match s with
  | EmptyString => true
  | String c s' => (c =? ".")%char && all_dots s'
  end.

(** [os.path.splitext(name)[0]] for a file name, which holds no path
    separator: the part before the last dot, unless only dots precede the
    last dot. *)
Definition splitext_root (name : string) : string :=
  match rsplit_dot name with
  | Some (root, _) => if all_dots root then name else root
  | None => name
  end.

(** ** Messages *)

Record Vector3 := { x : Q; y : Q; z : Q }.
Record Quaternion := { qx : Q; qy : Q; qz : Q; qw : Q }.

(** An element of [msg_in.detections]: the tuples [id] and [size], and
    the [position] and [orientation] of [pose.pose.pose]. *)
Record Detection := {
  id : list Z;
  size : list Q;
  position : Vector3;
  orientation : Quaternion
}.

(** A message of a bag.  The class of a message fixes its attributes and
    its [_type]; [Other] stands for the classes whose attributes the
    script does not read, under the name of their type. *)
Inductive Msg :=
| WrenchStamped (force torque : Vector3)
| PoseStamped (pose_position : Vector3) (pose_orientation : Quaternion)
| TransformStamped (translation : Vector3) (rotation : Quaternion)
| Float32MultiArray (data : list Q)
| Image (image : nat)
| AprilTagDetectionArray (detections : list Detection)
| Int32 (data : Z)
| StdBool (data : bool)
| Other (type_name : string) (content : nat).

Definition _type (msg : Msg) : string :=
  match msg with
  | WrenchStamped _ _ => "geometry_msgs/WrenchStamped"
  | PoseStamped _ _ => "geometry_msgs/PoseStamped"
  | TransformStamped _ _ => "geometry_msgs/TransformStamped"
  | Float32MultiArray _ => "std_msgs/Float32MultiArray"
  | Image _ => "sensor_msgs/Image"
  | AprilTagDetectionArray _ => "apriltag_ros/AprilTagDetectionArray"
  | Int32 _ => "std_msgs/Int32"
  | StdBool _ => "std_msgs/Bool"
  | Other type_name _ => type_name
  end.

(** The converters of [Helpers.pbal_msg_helper]. *)
Inductive Converter :=
| sliding_stamped_to_sliding_dict
| qp_debug_stamped_to_qp_debug_dict
| friction_stamped_to_friction_dict
| command_stamped_to_command_dict.

(** The value of a detection in [detection_dict]. *)
Record DetectionDict := {
  detection_id : Z;
  detection_size : Q;
  detection_position : list Q;
  detection_orientation : list Q
}.

(** What is stored under ['msg']. *)
Inductive Value :=
| VList (l : list Q)
(** [bridge.imgmsg_to_cv2(msg, desired_encoding='bgr8')] *)
| VImage (image : nat)
| VDetections (detection_dict : list (Z * DetectionDict))
| VNone
(** the dictionary a converter makes of a message *)
| VDict (converter : Converter) (msg : Msg)
(** the message as it is *)
| VMsg (msg : Msg).

(** Lines 33-36. *)
Definition parse_wrench_stamped (msg : Msg) : Res Value :=
  match msg with
  | WrenchStamped force torque =>
      Ok (VList [x force; y force; z force; x torque; y torque; z torque])
  | _ => Raise AttributeError
  end.

(** Lines 38-42. *)
Definition parse_pose_stamped (msg : Msg) : Res Value :=
  match msg with
  | PoseStamped p o => Ok (VList [x p; y p; z p; qx o; qy o; qz o; qw o])
  | _ => Raise AttributeError
  end.

(** Lines 44-48. *)
Definition parse_transform_stamped (msg : Msg) : Res Value :=
  match msg with
  | TransformStamped t r =>
      Ok (VList [x t; y t; z t; qx r; qy r; qz r; qw r])
  | _ => Raise AttributeError
  end.

(** Lines 50-66. *)
Definition parse_custom_pbal_message (msg : Msg) : Value :=
  if contains "SlidingStateStamped" (_type msg)
  then VDict sliding_stamped_to_sliding_dict msg
  else if contains "QPDebugStamped" (_type msg)
  then VDict qp_debug_stamped_to_qp_debug_dict msg
  else if contains "FrictionParamsStamped" (_type msg)
  then VDict friction_stamped_to_friction_dict msg
  else if contains "ControlCommandStamped" (_type msg)
  then VDict command_stamped_to_command_dict msg
  else VNone.

(** Lines 68-72, for both functions: [msg.data] is bound to the local
    name [msg], and the function returns nothing. *)
Definition parse_apriltag_detection_Int32 (msg : Msg) : Res Value :=
  match msg with
  | Int32 _ | StdBool _ | Float32MultiArray _ => Ok VNone
  | _ => Raise AttributeError
  end.

Definition parse_apriltag_detection_Bool (msg : Msg) : Res Value :=
  match msg with
  | Int32 _ | StdBool _ | Float32MultiArray _ => Ok VNone
  | _ => Raise AttributeError
  end.

(** Lines 84-91: the entry of one detection. *)
Definition detection_entry (msg : Detection) : Res (Z * DetectionDict) :=
  match getitem (id msg) 0, getitem (size msg) 0 with
  | Ok id0, Ok size0 =>
      Ok (id0,
          Build_DetectionDict id0 size0
            [x (position msg); y (position msg); z (position msg)]
            [qx (orientation msg); qy (orientation msg); qz (orientation msg);
             qw (orientation msg)])
  | Raise e, _ => Raise e
  | _, Raise e => Raise e
  end.

(** The loop of lines 80-91. *)
Fixpoint fill_detection_dict (detections : list Detection)
  (detection_dict : list (Z * DetectionDict))
  : Res (list (Z * DetectionDict)) :=
  match detections with
  | [] => Ok detection_dict
  | msg :: detections' =>
      match detection_entry msg with
      | Ok (k, v) =>
          fill_detection_dict detections' (dict_set Z.eqb detection_dict k v)
      | Raise e => Raise e
      end
  end.

(** Lines 74-94. *)
Definition parse_apriltag_detection_array (msg_in : Msg) : Res Value :=
  match msg_in with
  | AprilTagDetectionArray detections =>
      if (0 <? List.length detections)%nat then
        match fill_detection_dict detections [] with
        | Ok detection_dict => Ok (VDetections detection_dict)
        | Raise e => Raise e
        end
      else Ok VNone
  | _ => Raise AttributeError
  end.

(** ** The messages of a bag (lines 129-169) *)

Record Entry := { time : Q; msg : Value }.

Definition Data := list (string * list Entry).

(** What [bag.read_messages()] yields: topic, message, time in seconds. *)
Definition Message : Type := string * Msg * Q.

Definition stored (v : Res Value) : Res (option Value) :=
  match v with
  | Ok v => Ok (Some v)
  | Raise e => Raise e
  end.

(** Lines 135-162: the value to store, or [None] for the message that
    [continue] skips. *)
Definition parse (msg : Msg) : Res (option Value) :=
  let t := _type msg in
  if (t =? "geometry_msgs/WrenchStamped")%string
  then stored (parse_wrench_stamped msg)
  else if (t =? "geometry_msgs/PoseStamped")%string
  then stored (parse_pose_stamped msg)
  else if (t =? "geometry_msgs/TransformStamped")%string
  then stored (parse_transform_stamped msg)
  else if (t =? "std_msgs/Float32MultiArray")%string
  then match msg with
       | Float32MultiArray data => Ok (Some (VList data))
       | _ => Raise AttributeError
       end
  else if (t =? "sensor_msgs/Image")%string
  then match msg with
       | Image image => Ok (Some (VImage image))
       | _ => Raise AttributeError
       end
  else if (t =? "apriltag_ros/AprilTagDetectionArray")%string
  then stored (parse_apriltag_detection_array msg)
  else if (t =? "std_msgs/Int32")%string
  then stored (parse_apriltag_detection_Int32 msg)
  else if (t =? "std_msgs/Bool")%string
  then stored (parse_apriltag_detection_Bool msg)
  else if contains "pbal/" t
  then match parse_custom_pbal_message msg with
       | VNone => Ok None
       | v => Ok (Some v)
       end
  else Ok (Some (VMsg msg)).

(** Lines 131-132. *)
Definition note_type (t : string) (msg_types : list string) : list string :=
  if existsb (String.eqb t) msg_types then msg_types else msg_types ++ [t].

(** Lines 165-169. *)
Definition add_to_data (topic : string) (e : Entry) (data : Data) : Data :=
  match dict_get String.eqb data (drop_first topic) with
  | None => dict_set String.eqb data (drop_first topic) [e]
  | Some entries => dict_set String.eqb data (drop_first topic) (entries ++ [e])
  end.

(** The loop of lines 129-169, on [data] and the global [msg_types]. *)
Fixpoint read_messages (bag : list Message) (data : Data)
  (msg_types : list string) : Res (Data * list string) :=
  match bag with
  | [] => Ok (data, msg_types)
  | (topic, m, t) :: bag' =>
      let msg_types' := note_type (_type m) msg_types in
      match parse m with
      | Ok (Some v) =>
          read_messages bag' (add_to_data topic (Build_Entry t v) data)
            msg_types'
      | Ok None => read_messages bag' data msg_types'
      | Raise e => Raise e
      end
  end.

(** ** The bags to convert (lines 106-117) *)

(** The first loop: the stems that have a pickle. *)
Fixpoint pickled (listing : list string) (pickle_dict : list (string * bool))
  : Res (list (string * bool)) :=
  match listing with
  | [] => Ok pickle_dict
  | fname :: listing' =>
      let fname_list := split_dot fname in
      match getitem fname_list 1 with
      | Ok ext =>
          if (ext =? "pickle")%string then
            match getitem fname_list 0 with
            | Ok stem => pickled listing' (dict_set String.eqb pickle_dict stem true)
            | Raise e => Raise e
            end
          else pickled listing' pickle_dict
      | Raise e => Raise e
      end
  end.

Definition is_key (pickle_dict : list (string * bool)) (k : string) : bool :=
  match dict_get String.eqb pickle_dict k with
  | Some _ => true
  | None => false
  end.

(** The second loop: the bags without a pickle. *)
Fixpoint unpickled (listing : list string) (pickle_dict : list (string * bool))
  (unpickled_list : list string) : Res (list string) :=
  match listing with
  | [] => Ok unpickled_list
  | fname :: listing' =>
      let fname_list := split_dot fname in
      match getitem fname_list 1 with
      | Ok ext =>
          if (ext =? "bag")%string then
            match getitem fname_list 0 with
            | Ok stem =>
                if negb (is_key pickle_dict stem)
                then unpickled listing' pickle_dict (unpickled_list ++ [fname])
                else unpickled listing' pickle_dict unpickled_list
            | Raise e => Raise e
            end
          else unpickled listing' pickle_dict unpickled_list
      | Raise e => Raise e
      end
  end.

(** Lines 106-117; [os.listdir] is called once for each loop. *)
Definition select (listing1 listing2 : list string) : Res (list string) :=
  match pickled listing1 [] with
  | Ok pickle_dict => unpickled listing2 pickle_dict []
  | Raise e => Raise e
  end.

(** The name of the file that lines 174-179 write for a bag. *)
Definition pickle_name (bagfile_name : string) : string :=
  (splitext_root bagfile_name ++ ".pickle")%string.

(** Lines 119-182: the pickles written, oldest first, and [msg_types] at
    the end; the pickles written before an exception stay written. *)
Fixpoint convert (read : string -> list Message) (unpickled_list : list string)
  (msg_types : list string) : list (string * Data) * Res (list string) :=
  match unpickled_list with
  | [] => ([], Ok msg_types)
  | bagfile_name :: rest =>
      match read_messages (read bagfile_name) [] msg_types with
      | Ok (data, msg_types') =>
          let (saved, result) := convert read rest msg_types' in
          ((pickle_name bagfile_name, data) :: saved, result)
      | Raise e => ([], Raise e)
      end
  end.

(** ** Notions used by the properties *)

(** The entries that the messages of a bag give to the key [key] of
    [data], in the order of the bag. *)
Definition entries_of (key : string) (bag : list Message) : list Entry :=
  flat_map
    (fun m : Message =>
       if (drop_first (fst (fst m)) =? key)%string then
         match parse (snd (fst m)) with
         | Ok (Some v) => [Build_Entry (snd m) v]
         | _ => []
         end
       else [])
    bag.

(** The message with the payload of an [Int32] or a [Bool] forgotten. *)
Definition blind (m : Message) : Message :=
  match m with
  | (topic, Int32 _, t) => (topic, Int32 0, t)
  | (topic, StdBool _, t) => (topic, StdBool false, t)
  | _ => m
  end.

Fixpoint has_dot (s : string) : bool :=
  match s with
  | EmptyString => false
  | String c s' => (c =? ".")%char || has_dot s'
  end.

(** The parts of a file name before its first dot, and between its first
    and its second dot. *)
Definition first_part (fname : string) : string :=
  nth 0 (split_dot fname) EmptyString.

Definition second_part (fname : string) : string :=
  nth 1 (split_dot fname) EmptyString.

(** A listed file is the pickle of [stem]. *)
Definition has_pickle (listing : list string) (stem : string) : bool :=
  existsb
    (fun g => (second_part g =? "pickle")%string
              && (first_part g =? stem)%string)
    listing.

(** [fname] is a bag without a pickle in [listing]. *)
Definition to_convert (listing : list string) (fname : string) : bool :=
  (second_part fname =? "bag")%string
  && negb (has_pickle listing (first_part fname)).

(** A name of the form [stem.extension], with one dot and a stem. *)
Definition simple_name (fname : string) : bool :=
  match split_dot fname with
  | [stem; _] => negb (stem =? "")%string
  | _ => false
  end.

(** ** Scenarios *)

Definition wrench_message (topic : string) (t : Q) : Message :=
  (topic, WrenchStamped (Build_Vector3 1 2 3) (Build_Vector3 0 0 0), t).

End rosbag_to_pickle.

(** * Properties *)

Local Close Scope Q_scope.
Unset Implicit Arguments.

(** ** Closure of [framed] and [preserves] under the steps of the monad *)

Section Closure.
Context {A B : Type}.

Lemma framed_ret (a : A) : framed (ret a).
Proof. intros w t. reflexivity. Qed.

Lemma framed_raise (e : Exn) : framed (@raise A e).
Proof. intros w t. reflexivity. Qed.

Lemma framed_lift (r : Res A) : framed (lift r).
Proof. intros w t. reflexivity. Qed.

Lemma framed_bound (e : Exn) (o : option A) : framed (bound e o).
Proof. destruct o; intros w t; reflexivity. Qed.

Lemma framed_bind (c : M A) (k : A -> M B) :
  framed c -> (forall a, framed (k a)) -> framed (bind c k).
Proof.
  intros Hc Hk w t. unfold bind. rewrite Hc.
  destruct (c w) as [[a | e] w']; cbn [fst snd].
  - apply Hk.
  - reflexivity.
Qed.

Variable f : Vars -> B.

Lemma preserves_ret (a : A) : preserves f (ret a).
Proof. intros w. reflexivity. Qed.

Lemma preserves_raise (e : Exn) : preserves f (@raise A e).
Proof. intros w. reflexivity. Qed.

Lemma preserves_lift (r : Res A) : preserves f (lift r).
Proof. intros w. reflexivity. Qed.

Lemma preserves_bound (e : Exn) (o : option A) : preserves f (bound e o).
Proof. destruct o; intros w; reflexivity. Qed.

Lemma preserves_bind {C} (c : M A) (k : A -> M C) :
  preserves f c -> (forall a, preserves f (k a)) -> preserves f (bind c k).
Proof.
  intros Hc Hk w. unfold bind. specialize (Hc w).
  destruct (c w) as [[a | e] w']; cbn [fst snd] in *.
  - rewrite Hk. exact Hc.
  - exact Hc.
Qed.

Lemma preserves_modify_vars (g : Vars -> Vars) :
  (forall v, f (g v) = f v) -> preserves f (modify_vars g).
Proof. intros Hg w. cbn. apply Hg. Qed.
End Closure.

Lemma framed_get_vars : framed get_vars.
Proof. intros w t. reflexivity. Qed.

Lemma framed_modify_vars g : framed (modify_vars g).
Proof. intros w t. reflexivity. Qed.

Lemma framed_emit e : framed (emit e).
Proof. intros w t. reflexivity. Qed.

Lemma framed_update_previous_estimate e : framed (update_previous_estimate e).
Proof. intros w t. reflexivity. Qed.

Lemma preserves_get_vars {B} (f : Vars -> B) : preserves f get_vars.
Proof. intros w. reflexivity. Qed.

Lemma preserves_emit {B} (f : Vars -> B) e : preserves f (emit e).
Proof. intros w. reflexivity. Qed.

Lemma preserves_update_previous_estimate {B} (f : Vars -> B) e :
  preserves f (update_previous_estimate e).
Proof. intros w. reflexivity. Qed.

Lemma framed_for_range {A} (body : nat -> A -> M A) :
  (forall k a, framed (body k a)) ->
  forall range acc, framed (for_range range body acc).
Proof.
  intros Hb range. induction range as [| k range IH]; intros acc; cbn [for_range].
  - apply framed_ret.
  - apply framed_bind; [apply Hb | intros a; apply IH].
Qed.

Lemma preserves_for_range {A B} (f : Vars -> B) (body : nat -> A -> M A) :
  (forall k a, preserves f (body k a)) ->
  forall range acc, preserves f (for_range range body acc).
Proof.
  intros Hb range. induction range as [| k range IH]; intros acc; cbn [for_range].
  - apply preserves_ret.
  - apply preserves_bind; [apply Hb | intros a; apply IH].
Qed.

Create HintDb frame discriminated.
#[local] Hint Resolve framed_ret framed_raise framed_lift framed_bound
  framed_get_vars framed_modify_vars framed_emit
  framed_update_previous_estimate : frame.
#[local] Hint Resolve preserves_ret preserves_raise preserves_lift
  preserves_bound preserves_get_vars preserves_emit
  preserves_update_previous_estimate : frame.

(** Unfolds the sequencing of a computation and settles [framed] or
    [preserves] on each of its steps. *)
Ltac stepwise :=
  repeat first
    [ apply framed_bind; [| intros ?]
    | apply preserves_bind; [| intros ?]
    | apply framed_for_range; intros ? ?
    | apply preserves_for_range; intros ? ?
    | apply preserves_modify_vars; intros ?; reflexivity
    | progress unfold est, rsn, pub
    | solve [auto with frame]
    | match goal with
      | |- context [if ?b then _ else _] => destruct b
      | |- context [match ?o with Some _ => _ | None => _ end] => destruct o
      | |- context [match ?r with Ok _ => _ | Raise _ => _ end] => destruct r
      end ].

(** ** The steps of the loop are framed *)

Lemma framed_classify_wall_contact i : framed (classify_wall_contact i).
Proof. unfold classify_wall_contact. stepwise. Qed.

Lemma framed_update_reasoner i : framed (update_reasoner i).
Proof. unfold update_reasoner. stepwise. Qed.

Lemma framed_update_corner_contact_feasibility i :
  framed (update_corner_contact_feasibility i).
Proof. unfold update_corner_contact_feasibility. stepwise. Qed.

Lemma framed_staleness_gate i : framed (staleness_gate i).
Proof. unfold staleness_gate. stepwise. Qed.

Lemma framed_prelude i : framed (prelude i).
Proof.
  unfold prelude.
  apply framed_bind; [apply framed_classify_wall_contact | intros wall].
  apply framed_bind; [apply framed_update_reasoner | intros _].
  apply framed_bind;
    [apply framed_update_corner_contact_feasibility | intros _].
  apply framed_bind; [apply framed_staleness_gate | intros _].
  apply framed_ret.
Qed.

Lemma framed_add_measurements i : framed (add_measurements i).
Proof. unfold add_measurements. stepwise. Qed.

#[local] Hint Resolve framed_add_measurements : frame.

Lemma framed_corner_contact_branch i wc : framed (corner_contact_branch i wc).
Proof. unfold corner_contact_branch. stepwise. Qed.

Lemma framed_flush_contact_branch i wc : framed (flush_contact_branch i wc).
Proof. unfold flush_contact_branch. stepwise. Qed.

Lemma framed_vision_assist_branch i wc : framed (vision_assist_branch i wc).
Proof. unfold vision_assist_branch. stepwise. Qed.

Lemma framed_no_contact_branch i : framed (no_contact_branch i).
Proof. unfold no_contact_branch. stepwise. Qed.

Lemma framed_arbitrate i wc : framed (arbitrate i wc).
Proof.
  unfold arbitrate. apply framed_bind; [apply framed_get_vars | intros v].
  destruct (corner_contact_condition i v);
    [apply framed_corner_contact_branch |].
  destruct (flush_contact_condition i); [apply framed_flush_contact_branch |].
  destruct (has_new_vision i); [apply framed_vision_assist_branch |].
  destruct (no_contact_condition i v);
    [apply framed_no_contact_branch | apply framed_ret].
Qed.

Lemma framed_publish_estimate i wf hci hfcw d :
  framed (publish_estimate i wf hci hfcw d).
Proof.
  unfold publish_estimate, publish_pivot_frame, append_vertex. stepwise.
Qed.

Lemma framed_build_snapshot i wf b hci : framed (build_snapshot i wf b hci).
Proof.
  unfold build_snapshot. destruct b; [| apply framed_ret].
  repeat (apply framed_bind; [auto with frame | intros ?]).
  - unfold est. auto with frame.
  - destruct (basic_estimate i);
      [apply framed_publish_estimate | apply framed_ret].
Qed.

Lemma framed_arbitrate_and_publish i wall :
  framed (arbitrate_and_publish i wall).
Proof.
  unfold arbitrate_and_publish.
  apply framed_bind; [apply framed_arbitrate | intros r].
  apply framed_build_snapshot.
Qed.

Lemma framed_cycle i : framed (cycle i).
Proof.
  unfold cycle.
  apply framed_bind; [apply framed_prelude | intros wall].
  apply framed_arbitrate_and_publish.
Qed.

(** The events of [events_of] are the events added to the trace, and the
    result and the variables do not depend on the trace. *)
Lemma framed_trace {A} (c : M A) (w : World) :
  framed c ->
  trace (snd (c w)) = rev (events_of c w) ++ trace w
  /\ fst (c w) = fst (c (with_trace [] w))
  /\ vars (snd (c w)) = vars (snd (c (with_trace [] w)))
  /\ previous_estimate (snd (c w))
     = previous_estimate (snd (c (with_trace [] w))).
Proof.
  intros Hc. unfold events_of. rewrite rev_involutive.
  specialize (Hc (with_trace [] w) (trace w)).
  assert (E : with_trace (trace (with_trace [] w) ++ trace w) (with_trace [] w)
              = w) by (destruct w; reflexivity).
  rewrite E in Hc. rewrite Hc. cbn. repeat split; reflexivity.
Qed.

(** ** The cascade *)

Lemma staleness_gate_gated i w : gated i (vars (snd (staleness_gate i w))).
Proof.
  unfold gated, has_new_vision, staleness_gate.
  destruct (new_vision i); [| discriminate].
  intros _. cbn. split; reflexivity.
Qed.

(** Case analysis on whatever test blocks the computation. *)
Ltac case_step :=
  match goal with
  | |- context [match ?x with Some _ => _ | None => _ end] =>
      destruct x eqn:?
  | |- context [match ?x with Ok _ => _ | Raise _ => _ end] =>
      destruct x eqn:?
  | |- context [match ?x with O => _ | S _ => _ end] => destruct x eqn:?
  | |- context [if ?b then _ else _] => destruct b eqn:?
  end.

Ltac run_loop :=
  cbn [bind ret raise lift bound get_vars modify_vars emit est rsn pub
       update_previous_estimate add_measurements with_trace fst snd
       vars trace previous_estimate
       set_prev_step_was_line_contact set_t_vision_recent
       set_time_since_last_vision_message set_corner_contact_is_feasible
       set_num_line_contact_detected_count set_corner_contact_dict
       set_vision_vertex_array set_vision_hypothesis_dict
       prev_step_was_line_contact
       corner_contact_dict vision_vertex_array vision_hypothesis_dict
       time_since_last_vision_message t_vision_recent
       corner_contact_is_feasible num_line_contact_detected_count
       rev app estimator_ops published andb orb negb].

Lemma arbitrate_selected i wc w :
  gated i (vars w) ->
  estimator_view (arbitrate i wc) w
  = estimator_view (mode_sequence (selected i (vars w)) i wc) w.
Proof.
  intros G. unfold estimator_view, events_of, arbitrate, selected.
  cbn [first_match cascade_order precondition].
  unfold corner_contact_condition, flush_contact_condition,
    no_contact_condition, vision_is_long_stale.
  run_loop.
  destruct (has_new_vision i) eqn:V.
  - destruct (G V) as [T H]. rewrite H, T.
    change (Qltb 1 0) with false. rewrite andb_false_r.
    destruct (torque_cone_boundary_test_holds i),
      (normal_force_exceeds i), (corner_contact_is_feasible (vars w));
      cbn [andb mode_sequence]; try reflexivity.
    all: unfold vision_assist_branch; run_loop; rewrite H; run_loop;
      destruct (chosen_vision_hypothesis i (hypothesis_from_vision i)
                  (hypothesis_no_object_motion i)) eqn:C;
      cbn [mode_sequence]; run_loop; try reflexivity.
    all: unfold vision_assist_branch; run_loop; rewrite H; run_loop;
      rewrite C; reflexivity.
  - destruct (torque_cone_boundary_test_holds i),
      (normal_force_exceeds i), (corner_contact_is_feasible (vars w));
      cbn [andb mode_sequence]; try reflexivity.
    all: destruct (line_line_to_no_contact_check i),
           (Qltb 1 (time_since_last_vision_message (vars w)));
         cbn [andb mode_sequence]; try reflexivity.
    all: unfold no_contact_branch; run_loop;
         destruct (num_hypothesis (hypothesis_no_contact i) =? 1) eqn:N;
         cbn [mode_sequence]; try reflexivity.
    all: unfold no_contact_branch; run_loop; rewrite N; reflexivity.
Qed.

Lemma selected_first_match i v :
  precondition (selected i v) i v = true
  /\ forall m, cascade_rank m < cascade_rank (selected i v) ->
               precondition m i v = false.
Proof.
  unfold selected. cbn [first_match cascade_order].
  destruct (precondition CornerContactMode i v) eqn:C1;
    [| destruct (precondition FlushLineContactMode i v) eqn:C2;
       [| destruct (precondition VisionAssistMode i v) eqn:C3;
          [| destruct (precondition NoContactMode i v) eqn:C4]]].
  all: split; [assumption || reflexivity |].
  all: intros [] L; cbn [cascade_rank precondition] in L; try assumption; lia.
Qed.

Lemma selected_by_preconditions i v i' v' :
  (forall m, precondition m i' v' = precondition m i v) ->
  selected i' v' = selected i v.
Proof.
  intros H. unfold selected. cbn [first_match cascade_order].
  rewrite !H. reflexivity.
Qed.

(** Every mode but [Idle] advances the time of the estimator once. *)
Lemma mode_sequence_increment_time m i wc w :
  precondition m i (vars w) = true ->
  count_increment_time (estimator_ops (events_of (mode_sequence m i wc) w))
  = if Mode_eqb m Idle then 0 else 1.
Proof.
  intros P. unfold events_of.
  destruct m; cbn [mode_sequence Mode_eqb precondition] in *.
  - unfold corner_contact_branch. run_loop.
    repeat (case_step; run_loop); reflexivity.
  - unfold flush_contact_branch. run_loop.
    repeat (case_step; run_loop); reflexivity.
  - unfold vision_assist_branch. run_loop.
    destruct (has_new_vision i); [| discriminate]. cbn [andb] in P.
    destruct (vision_hypothesis_dict (vars w)) as [vh |]; [| discriminate].
    run_loop.
    destruct (chosen_vision_hypothesis i vh (hypothesis_no_object_motion i));
      [| discriminate].
    run_loop. repeat (case_step; run_loop); reflexivity.
  - unfold no_contact_branch. run_loop.
    apply andb_prop in P. destruct P as [_ N]. rewrite N. run_loop.
    repeat (case_step; run_loop); reflexivity.
  - reflexivity.
Qed.

(** C1.  In every iteration the estimator receives the call sequence of
    exactly one of the five outcomes: the first mode of the cascade
    (corner, flush-line, vision-assist, no-contact, idle) whose
    precondition holds on the inputs and on the variables as the staleness
    gate leaves them.  The estimator's time advances once for a mode that
    is not [Idle] and not at all for [Idle], and the selected mode depends
    on the inputs and the variables through the four preconditions only. *)
Theorem one_mode_per_cycle (i : Inputs) (wall_contact_on : bool) (w : World) :
  let w1 := snd (staleness_gate i w) in
  let m := selected i (vars w1) in
  (precondition m i (vars w1) = true
   /\ forall m', cascade_rank m' < cascade_rank m ->
                 precondition m' i (vars w1) = false)
  /\ estimator_view (arbitrate i wall_contact_on) w1
     = estimator_view (mode_sequence m i wall_contact_on) w1
  /\ count_increment_time
       (estimator_ops (events_of (arbitrate i wall_contact_on) w1))
     = (if Mode_eqb m Idle then 0 else 1)
  /\ (forall i' v',
        (forall m', precondition m' i' v' = precondition m' i (vars w1)) ->
        selected i' v' = m).
Proof.
  intros w1 m.
  pose proof (@arbitrate_selected i wall_contact_on _ (staleness_gate_gated i w))
    as V.
  fold w1 in V. fold m in V.
  destruct (selected_first_match i (vars w1)) as [P F]. fold m in P, F.
  repeat split.
  - exact P.
  - exact F.
  - exact V.
  - unfold estimator_view in V. injection V as _ _ E. rewrite E.
    apply mode_sequence_increment_time. exact P.
  - intros i' v' H. apply selected_by_preconditions. exact H.
Qed.

(** ** Variables a step does not touch *)

Section Preservation.
Context {B : Type} (f : Vars -> B).

(** Solves [preserves f] for a computation whose assignments leave [f]
    as it is. *)
Ltac untouched :=
  repeat first
    [ apply preserves_bind; [| intros ?]
    | apply preserves_for_range; intros ? ?
    | solve [apply preserves_modify_vars; intros ?; auto]
    | progress unfold est, rsn, pub, add_measurements
    | solve [auto with frame]
    | match goal with
      | |- context [if ?b then _ else _] => destruct b
      | |- context [match ?o with Some _ => _ | None => _ end] =>
          destruct o
      | |- context [match ?r with Ok _ => _ | Raise _ => _ end] =>
          destruct r
      end ].

Lemma preserves_classify_wall_contact i :
  preserves f (classify_wall_contact i).
Proof. unfold classify_wall_contact. untouched. Qed.

Lemma preserves_update_reasoner i : preserves f (update_reasoner i).
Proof. unfold update_reasoner. untouched. Qed.

Lemma preserves_update_corner_contact_feasibility i :
  (forall x v, f (set_corner_contact_is_feasible x v) = f v) ->
  (forall x v, f (set_corner_contact_dict x v) = f v) ->
  (forall x v, f (set_num_line_contact_detected_count x v) = f v) ->
  preserves f (update_corner_contact_feasibility i).
Proof.
  intros H1 H2 H3. unfold update_corner_contact_feasibility. untouched.
Qed.

Lemma preserves_staleness_gate i :
  (forall x v, f (set_t_vision_recent x v) = f v) ->
  (forall x v, f (set_time_since_last_vision_message x v) = f v) ->
  (forall x v, f (set_vision_vertex_array x v) = f v) ->
  (forall x v, f (set_vision_hypothesis_dict x v) = f v) ->
  preserves f (staleness_gate i).
Proof. intros H1 H2 H3 H4. unfold staleness_gate. untouched. Qed.

Lemma preserves_arbitrate i wc :
  (forall x v, f (set_prev_step_was_line_contact x v) = f v) ->
  preserves f (arbitrate i wc).
Proof.
  intros H. unfold arbitrate.
  apply preserves_bind; [apply preserves_get_vars | intros v].
  destruct (corner_contact_condition i v);
    [unfold corner_contact_branch; untouched |].
  destruct (flush_contact_condition i);
    [unfold flush_contact_branch; untouched |].
  destruct (has_new_vision i); [unfold vision_assist_branch; untouched |].
  destruct (no_contact_condition i v);
    [unfold no_contact_branch; untouched | apply preserves_ret].
Qed.

Lemma preserves_build_snapshot i wf b hci :
  preserves f (build_snapshot i wf b hci).
Proof.
  unfold build_snapshot, publish_estimate, publish_pivot_frame,
    append_vertex.
  untouched.
Qed.

Lemma preserves_arbitrate_and_publish i wall :
  (forall x v, f (set_prev_step_was_line_contact x v) = f v) ->
  preserves f (arbitrate_and_publish i wall).
Proof.
  intros H. unfold arbitrate_and_publish.
  apply preserves_bind; [apply preserves_arbitrate; exact H | intros r].
  apply preserves_build_snapshot.
Qed.
End Preservation.

(** ** The hysteresis of corner-contact feasibility *)

(** A prelude that completes has run the hysteresis update and then the
    staleness gate, on the variables it started with. *)
Lemma prelude_ok i w wall w2 :
  prelude i w = (Ok wall, w2) ->
  exists w0,
    vars w0 = vars w
    /\ w2 = snd (staleness_gate i
                   (snd (update_corner_contact_feasibility i w0))).
Proof.
  unfold prelude, classify_wall_contact, update_reasoner. run_loop.
  destruct (wall_contact_right_bool i); run_loop; [| discriminate].
  destruct (wall_contact_left_bool i); run_loop; [| discriminate].
  match goal with
  | |- context [update_corner_contact_feasibility i ?w0] =>
      set (wa := w0);
      pose proof (framed_update_corner_contact_feasibility i) as _;
      destruct (update_corner_contact_feasibility i wa) as [[[] | e] wb] eqn:U
  end.
  - destruct (staleness_gate i wb) as [[[] | e] wc] eqn:S; run_loop;
      intros E; inversion E; subst.
    exists wa. split; [reflexivity |]. rewrite U. cbn [snd]. rewrite S.
    reflexivity.
  - discriminate.
Qed.

Lemma update_corner_contact_feasibility_infeasible i w :
  has_run_once i = true ->
  is_feasible (temp_corner_contact_dict i) = false ->
  let v := vars w in
  let v' := vars (snd (update_corner_contact_feasibility i w)) in
  num_line_contact_detected_count v'
  = count_incr (num_line_contact_detected_count v)
  /\ corner_contact_is_feasible v'
     = (if count_gt (count_incr (num_line_contact_detected_count v)) 15
        then false else corner_contact_is_feasible v)
  /\ corner_contact_dict v' = corner_contact_dict v.
Proof.
  intros R F. unfold update_corner_contact_feasibility. rewrite R, F.
  run_loop.
  destruct (count_gt (count_incr (num_line_contact_detected_count (vars w))) 15);
    run_loop; repeat split; reflexivity.
Qed.

Lemma update_corner_contact_feasibility_feasible i w :
  has_run_once i = true ->
  is_feasible (temp_corner_contact_dict i) = true ->
  let v' := vars (snd (update_corner_contact_feasibility i w)) in
  corner_contact_is_feasible v' = true
  /\ num_line_contact_detected_count v' = Finite 0
  /\ corner_contact_dict v' = Some (temp_corner_contact_dict i).
Proof.
  intros R F. unfold update_corner_contact_feasibility. rewrite R, F.
  run_loop. repeat split; reflexivity.
Qed.

(** After a completed iteration the hysteresis variables are those the
    update of lines 199-211 leaves. *)
Lemma cycle_hysteresis i w w1 :
  cycle i w = (Ok tt, w1) ->
  exists w0,
    vars w0 = vars w
    /\ hysteresis (vars w1)
       = hysteresis (vars (snd (update_corner_contact_feasibility i w0))).
Proof.
  unfold cycle. cbn [bind].
  destruct (prelude i w) as [[wall | e] w2] eqn:P; [| discriminate].
  intros C. destruct (@prelude_ok _ _ _ _ P) as [w0 [V E]].
  exists w0. split; [exact V |].
  assert (H1 : hysteresis (vars w1) = hysteresis (vars w2)).
  { pose proof (@preserves_arbitrate_and_publish _ hysteresis i wall
                  (fun _ _ => eq_refl) w2) as H.
    rewrite C in H. exact H. }
  rewrite H1, E.
  apply (@preserves_staleness_gate _ hysteresis i); intros; reflexivity.
Qed.

Lemma run_cons i reports w w' :
  run (i :: reports) w = (Ok tt, w') ->
  exists w1, cycle i w = (Ok tt, w1) /\ run reports w1 = (Ok tt, w').
Proof.
  cbn [run bind]. destruct (cycle i w) as [[[] | e] w1]; [| discriminate].
  intros H. exists w1. split; [reflexivity | exact H].
Qed.

Lemma run_infeasible_reports reports :
  forall w w' c,
    infeasible_reports reports = true ->
    num_line_contact_detected_count (vars w) = Finite c ->
    (15 < c -> corner_contact_is_feasible (vars w) = false) ->
    run reports w = (Ok tt, w') ->
    num_line_contact_detected_count (vars w') = Finite (c + length reports)
    /\ corner_contact_is_feasible (vars w')
       = corner_contact_is_feasible (vars w) && (c + length reports <=? 15).
Proof.
  induction reports as [| i reports IH]; intros w w' c A C I R.
  - cbn in R. inversion R; subst w'. cbn [length]. rewrite Nat.add_0_r.
    split; [exact C |].
    destruct (Nat.leb_spec c 15) as [L | L].
    + rewrite andb_true_r. reflexivity.
    + rewrite (I L). reflexivity.
  - cbn [infeasible_reports forallb] in A. apply andb_prop in A.
    destruct A as [Ai A]. apply andb_prop in Ai. destruct Ai as [Ro Fe].
    apply negb_true_iff in Fe.
    destruct (@run_cons _ _ _ _ R) as [w1 [Cy R']].
    destruct (@cycle_hysteresis _ _ _ Cy) as [w0 [V H]].
    destruct (@update_corner_contact_feasibility_infeasible _ w0 Ro Fe)
      as [U1 [U2 _]].
    unfold hysteresis in H. injection H as H1 H2 _.
    rewrite <- H2 in U1. rewrite <- H1 in U2. rewrite V in U1, U2.
    rewrite C in U1, U2. cbn [count_incr count_gt] in U1, U2.
    assert (I1 : 15 < S c -> corner_contact_is_feasible (vars w1) = false).
    { intros L. rewrite U2. apply Nat.ltb_lt in L. rewrite L. reflexivity. }
    destruct (IH w1 w' (S c) A U1 I1 R') as [N F].
    cbn [length]. rewrite Nat.add_succ_r. split; [exact N |].
    rewrite F, U2.
    destruct (Nat.ltb_spec 15 (S c)) as [L | L].
    + cbn [andb]. symmetry. apply andb_false_iff. right.
      apply Nat.leb_gt. lia.
    + reflexivity.
Qed.

(** C2, as the loop has it.  A feasible report sets [corner_feasible],
    resets the miss counter to 0 and latches the payload; after it, [n]
    consecutive infeasible reports leave [corner_feasible] true exactly when
    [n <= 15]: the flag falls at the 16th report, when the counter
    exceeds 15. *)
Theorem hysteresis_patience (i : Inputs) (reports : list Inputs)
  (w w1 w2 : World) :
  has_run_once i = true ->
  is_feasible (temp_corner_contact_dict i) = true ->
  cycle i w = (Ok tt, w1) ->
  infeasible_reports reports = true ->
  run reports w1 = (Ok tt, w2) ->
  (corner_contact_is_feasible (vars w1) = true
   /\ num_line_contact_detected_count (vars w1) = Finite 0
   /\ corner_contact_dict (vars w1) = Some (temp_corner_contact_dict i))
  /\ corner_contact_is_feasible (vars w2) = (length reports <=? 15)
  /\ num_line_contact_detected_count (vars w2) = Finite (length reports).
Proof.
  intros Ro Fe Cy A R.
  destruct (@cycle_hysteresis _ _ _ Cy) as [w0 [V H]].
  destruct (@update_corner_contact_feasibility_feasible _ w0 Ro Fe)
    as [U1 [U2 U3]].
  unfold hysteresis in H. injection H as H1 H2 H3.
  rewrite <- H1 in U1. rewrite <- H2 in U2. rewrite <- H3 in U3.
  split; [repeat split; assumption |].
  assert (I : 15 < 0 -> corner_contact_is_feasible (vars w1) = false) by lia.
  destruct (@run_infeasible_reports reports _ _ _ A U2 I R) as [N F].
  rewrite F, U1. cbn [andb Nat.add] in *. split; [reflexivity | exact N].
Qed.

(** At the start of the loop a feasible report and sixteen infeasible ones:
    the flag has fallen. *)
Lemma hysteresis_patience_witness :
  let w1 := snd (cycle (corner_report true) (initial_world 0 None)) in
  let w2 := snd (run (repeat (corner_report false) 16) w1) in
  corner_contact_is_feasible (vars w2) = false.
Proof.
  intros w1 w2.
  refine (proj1 (proj2
    (@hysteresis_patience (corner_report true)
       (repeat (corner_report false) 16) (initial_world 0 None) w1 w2
       _ _ _ _ _))); vm_compute; reflexivity.
Defined.

(** C2, as it is stated, fails: after a feasible report the fifteenth
    consecutive infeasible report leaves [corner_feasible] true. *)
Lemma fifteenth_infeasible_report_keeps_corner_feasible :
  let w1 := snd (cycle (corner_report true) (initial_world 0 None)) in
  let w2 := snd (run (repeat (corner_report false) 15) w1) in
  corner_contact_is_feasible (vars w1) = true
  /\ fst (run (repeat (corner_report false) 15) w1) = Ok tt
  /\ num_line_contact_detected_count (vars w2) = Finite 15
  /\ corner_contact_is_feasible (vars w2) = true.
Proof. vm_compute. repeat split; reflexivity. Qed.

(** ** The staleness of vision *)

Lemma Qltb_lt (x y : Q) : Qltb x y = true <-> (x < y)%Q.
Proof.
  unfold Qltb. rewrite Qlt_alt.
  destruct (x ?= y)%Q; split; intros H; congruence.
Qed.















(** ** Vision in the flush branch *)

(** In the flush branch a fresh vision estimate reaches the estimator
    whatever the reasoner chooses. *)
Lemma flush_contact_branch_adds_vision_estimate i wc w vh va next :
  vision_is_fresh (vars w) = true ->
  vision_hypothesis_dict (vars w) = Some vh ->
  vision_vertex_array (vars w) = Some va ->
  cyclic_successor (fst (hand_contact_face i)) (num_vertices i) = Ok next ->
  In (add_vision_estimate va)
     (estimator_ops (events_of (flush_contact_branch i wc) w)).
Proof.
  intros F H A N. unfold events_of, flush_contact_branch. run_loop.
  rewrite N, F, H, A.
  destruct (prev_step_was_line_contact (vars w)); run_loop;
    rewrite ?H, ?A; run_loop;
    destruct (chosen_vision_hypothesis i vh
                (hypothesis_hand_line_object_line_contact i)); run_loop;
    repeat (case_step; run_loop); cbn [In]; tauto.
Qed.

(** C4 at a failing input.  A vision estimate arrives at time 0 and the
    hand is in contact at time 0.1 s; the reasoner chooses no hypothesis.
    Without corner feasibility the flush branch runs and the estimator
    receives [add_vision_estimate]; with corner feasibility the corner
    branch runs on the same readings and the estimator receives no vision
    input. *)
Theorem flush_branch_fuses_vision_without_hypothesis :
  let i := hand_contact (1 # 10) in
  let w_flush := snd (cycle (vision_arrives 0) (initial_world 0 None)) in
  let w_corner :=
    snd (run [corner_report true; vision_arrives 0] (initial_world 0 None)) in
  chosen_vision_hypothesis i (hypothesis_from_vision i)
    (hypothesis_hand_line_object_line_contact i) = None
  /\ selected i (vars (snd (prelude i w_flush))) = FlushLineContactMode
  /\ vision_is_fresh (vars (snd (prelude i w_flush))) = true
  /\ estimator_ops (events_of (cycle i) w_flush)
     = [increment_time; assign_current_contact_face (Some 0);
        add_hand_pose_measurement [0; 0; 0]%Q;
        add_hand_wrench_measurement [0; 0; 0]%Q; add_sliding_state [];
        update_wall_contact_state true;
        add_kinematic_constraints_hand_flush_contact;
        add_vision_estimate triangle; compute_basic_estimate]
  /\ selected i (vars (snd (prelude i w_corner))) = CornerContactMode
  /\ estimator_ops (events_of (cycle i) w_corner)
     = [increment_time; add_hand_pose_measurement [0; 0; 0]%Q;
        add_hand_wrench_measurement [0; 0; 0]%Q; add_sliding_state [];
        update_wall_contact_state true;
        add_kinematic_constraints_object_corner_hand_line_contact
          (Some (Build_CornerContactDict true 2 []));
        assign_current_contact_face None; compute_basic_estimate].
Proof. cbv zeta. repeat split; vm_compute; reflexivity. Qed.

(** ** The wall-contact test *)

Lemma wall_contact_bool_single_row (a : Vec) (b : Q) (wrench : Vec) :
  length a = length wrench ->
  wall_contact_bool [a] [b] wrench
  = Ok (float64_ltb
          (float64_add (binary64 b) (binary64 wall_contact_force_margin))
          (float64_dot a wrench)).
Proof.
  intros L. unfold wall_contact_bool, np_dot_float64.
  cbn [length Nat.ltb Nat.leb forallb map]. rewrite L, Nat.eqb_refl.
  cbn [andb np_add_scalar map np_greater any existsb].
  rewrite orb_false_r. reflexivity.
Qed.

(** C6, as the loop has it.  With the margin at 3.0, the right-wall test
    on a single row fires exactly when [a_er . wrench > b_er + 3.0], the
    product and the sum being the binary64 numbers that the loop
    computes; a row whose product is 5.0 makes it fire with [b_er = 1.0]
    (5.0 > 4.0) as with [b_er = 0.5] (5.0 > 3.5). *)
Theorem right_wall_test_margin (i : Inputs) (a_er : Vec) (b_er : Q) :
  aer (friction_parameter_dict i) = [a_er] ->
  ber (friction_parameter_dict i) = [b_er] ->
  length a_er = length (measured_world_manipulation_wrench i) ->
  let product := float64_dot a_er (measured_world_manipulation_wrench i) in
  let bound := float64_add (binary64 b_er) (binary64 3) in
  wall_contact_force_margin = 3%Q
  /\ wall_contact_right_bool i = Ok (float64_ltb bound product)
  /\ (product = binary64 5 -> binary64 b_er = binary64 1 ->
      wall_contact_right_bool i = Ok true)
  /\ (product = binary64 5 -> binary64 b_er = binary64 (1 # 2) ->
      wall_contact_right_bool i = Ok true).
Proof.
  intros A B L product bound. unfold wall_contact_right_bool. rewrite A, B.
  rewrite (wall_contact_bool_single_row _ b_er _ L).
  fold product. unfold wall_contact_force_margin. fold bound.
  split; [reflexivity |]. split; [reflexivity |].
  split; intros P Hb; unfold bound; rewrite P, Hb; vm_compute; reflexivity.
Qed.

(** The row of the scenario with [b_er = 1.0]. *)
Lemma right_wall_test_margin_witness :
  wall_contact_right_bool (right_wall_row 1) = Ok true.
Proof.
  refine (proj1 (proj2 (proj2
    (@right_wall_test_margin (right_wall_row 1) [1; 2]%Q 1%Q
       eq_refl eq_refl eq_refl))) _ _); vm_compute; reflexivity.
Defined.

(** C6, as it is stated, fails: with [a_er . wrench = 5.0] and
    [b_er = 1.0] the right-wall test fires. *)
Lemma right_wall_test_fires_at_margin_4 :
  let i := right_wall_row 1 in
  float64_dot [1; 2]%Q (measured_world_manipulation_wrench i) = binary64 5
  /\ ber (friction_parameter_dict i) = [1%Q]
  /\ wall_contact_right_bool i = Ok true.
Proof. cbv zeta. repeat split; vm_compute; reflexivity. Qed.

(** The product is rounded as the loop rounds it: the row [1, 2^-60]
    against the wrench [4, 1] gives 4.0 and not more, and with
    [b_er = 1.0] the test does not fire. *)
Lemma rounded_product_does_not_fire :
  float64_dot [1; 1 # 2 ^ 60]%Q [4; 1]%Q = binary64 4
  /\ wall_contact_bool [[1; 1 # 2 ^ 60]%Q] [1%Q] [4; 1]%Q = Ok false.
Proof. split; vm_compute; reflexivity. Qed.

(** ** What the branches give the estimator *)

(** Membership in a list of operations that has been computed. *)
Ltac no_such_op H :=
  cbn [In] in H;
  repeat (destruct H as [H | H]; [discriminate H |]);
  try contradiction.

Lemma corner_contact_branch_no_injection i wc w p t f :
  ~ In (add_kinematic_constraints_no_hand_contact_for_no_vision_assist p t f)
       (estimator_ops (events_of (corner_contact_branch i wc) w)).
Proof.
  unfold events_of, corner_contact_branch. run_loop.
  repeat (case_step; run_loop); intros H; no_such_op H.
Qed.

Lemma flush_contact_branch_no_injection i wc w p t f :
  ~ In (add_kinematic_constraints_no_hand_contact_for_no_vision_assist p t f)
       (estimator_ops (events_of (flush_contact_branch i wc) w)).
Proof.
  unfold events_of, flush_contact_branch. run_loop.
  repeat (case_step; run_loop); intros H; no_such_op H.
Qed.

Lemma vision_assist_branch_no_injection i wc w p t f :
  ~ In (add_kinematic_constraints_no_hand_contact_for_no_vision_assist p t f)
       (estimator_ops (events_of (vision_assist_branch i wc) w)).
Proof.
  unfold events_of, vision_assist_branch. run_loop.
  repeat (case_step; run_loop); intros H; no_such_op H.
Qed.

Lemma no_contact_branch_blocked i w :
  num_hypothesis (hypothesis_no_contact i) <> 1 ->
  no_contact_branch i w
  = (Ok (false, []),
     mkWorld (vars w) (previous_estimate w)
       (Rsn compute_hypothesis_object_poses_assuming_no_contact :: trace w)).
Proof.
  intros N. unfold no_contact_branch. run_loop.
  apply Nat.eqb_neq in N. rewrite N. reflexivity.
Qed.

(** C5.  The estimator receives the no-hand-contact, no-vision constraint
    only in an iteration where the first three branches do not match, the
    line-to-no-contact check fires, vision has been stale for more than
    1.0 s and the no-contact hypothesis set has exactly one hypothesis.
    When the cascade comes to the no-contact branch with another number of
    hypotheses, the iteration is idle: no operation on the estimator, no
    variable changed, nothing published. *)
Theorem no_contact_needs_single_hypothesis (i : Inputs) (wall : Z * bool)
  (w : World) :
  (forall p t f,
     In (add_kinematic_constraints_no_hand_contact_for_no_vision_assist p t f)
        (estimator_ops (events_of (arbitrate i (snd wall)) w)) ->
     line_line_to_no_contact_check i = true
     /\ (1 < time_since_last_vision_message (vars w))%Q
     /\ num_hypothesis (hypothesis_no_contact i) = 1
     /\ corner_contact_condition i (vars w) = false
     /\ flush_contact_condition i = false
     /\ has_new_vision i = false)
  /\ (corner_contact_condition i (vars w) = false ->
      flush_contact_condition i = false ->
      has_new_vision i = false ->
      num_hypothesis (hypothesis_no_contact i) <> 1 ->
      fst (arbitrate_and_publish i wall w) = Ok tt
      /\ vars (snd (arbitrate_and_publish i wall w)) = vars w
      /\ previous_estimate (snd (arbitrate_and_publish i wall w))
         = previous_estimate w
      /\ estimator_ops (events_of (arbitrate_and_publish i wall) w) = []
      /\ published (events_of (arbitrate_and_publish i wall) w) = []).
Proof.
  split.
  - intros p t f. unfold events_of, arbitrate. run_loop.
    destruct (corner_contact_condition i (vars w)).
    { intros H. destruct (corner_contact_branch_no_injection _ _ _ _ _ _ H). }
    destruct (flush_contact_condition i).
    { intros H. destruct (flush_contact_branch_no_injection _ _ _ _ _ _ H). }
    destruct (has_new_vision i).
    { intros H. destruct (vision_assist_branch_no_injection _ _ _ _ _ _ H). }
    unfold no_contact_condition, vision_is_long_stale.
    destruct (line_line_to_no_contact_check i); cbn [andb];
      [| intros H; no_such_op H].
    destruct (Qltb 1 (time_since_last_vision_message (vars w))) eqn:S;
      [| intros H; no_such_op H].
    apply Qltb_lt in S.
    destruct (Nat.eq_dec (num_hypothesis (hypothesis_no_contact i)) 1)
      as [N | N].
    + intros _. repeat split; assumption.
    + rewrite (no_contact_branch_blocked _ _ N). run_loop.
      intros H; no_such_op H.
  - intros C F V N. unfold events_of, arbitrate_and_publish, arbitrate.
    run_loop. rewrite C, F, V.
    destruct (no_contact_condition i (vars w)).
    + rewrite !(no_contact_branch_blocked _ _ N). run_loop.
      cbn [build_snapshot]. run_loop. repeat split; reflexivity.
    + run_loop. cbn [build_snapshot]. run_loop. repeat split; reflexivity.
Qed.

(** Two seconds after the start, without vision: one hypothesis lets the
    no-contact constraint through, two hypotheses leave the estimator
    alone. *)
Lemma no_contact_needs_single_hypothesis_witness :
  let w1 := snd (prelude (no_contact_transition 1) (initial_world 0 None)) in
  let w2 := snd (prelude (no_contact_transition 2) (initial_world 0 None)) in
  num_hypothesis (hypothesis_no_contact (no_contact_transition 1)) = 1
  /\ estimator_ops
       (events_of (arbitrate_and_publish (no_contact_transition 2) (2%Z, true))
          w2) = [].
Proof.
  intros w1 w2. split.
  - refine (proj1 (proj2 (proj2
      (proj1 (no_contact_needs_single_hypothesis (no_contact_transition 1)
                (2%Z, true) w1) [0; 0]%Q 0%Q 0 _)))).
    vm_compute. tauto.
  - refine (proj1 (proj2 (proj2 (proj2
      (proj2 (no_contact_needs_single_hypothesis (no_contact_transition 2)
                (2%Z, true) w2) _ _ _ _))))); vm_compute;
      solve [reflexivity | discriminate].
Defined.

(** Entering the flush branch with the flag false assigns [s_current]. *)
Lemma flush_contact_branch_reseeds i wc w :
  prev_step_was_line_contact (vars w) = false ->
  In (assign_s_current (snd (hand_contact_face i)))
     (estimator_ops (events_of (flush_contact_branch i wc) w)).
Proof.
  intros P. unfold events_of, flush_contact_branch. run_loop. rewrite P.
  run_loop. repeat (case_step; run_loop); cbn [In]; tauto.
Qed.

(** C7.  When the flush-line branch runs, the estimator's [s_current] is
    assigned, with the slip estimate of the reasoner, exactly when
    [prev_step_was_line_contact] is false on entry; and a branch that
    completes leaves [prev_step_was_line_contact] true. *)
Theorem flush_reseeds_slip_on_entry (i : Inputs) (wall_contact_on : bool)
  (w : World) :
  corner_contact_condition i (vars w) = false ->
  flush_contact_condition i = true ->
  (forall s,
     In (assign_s_current s)
        (estimator_ops (events_of (arbitrate i wall_contact_on) w))
     <-> prev_step_was_line_contact (vars w) = false
         /\ s = snd (hand_contact_face i))
  /\ (forall r w', arbitrate i wall_contact_on w = (Ok r, w') ->
                   prev_step_was_line_contact (vars w') = true).
Proof.
  intros C F. unfold events_of, arbitrate. run_loop. rewrite C, F.
  unfold flush_contact_branch. run_loop.
  destruct (prev_step_was_line_contact (vars w)) eqn:P; run_loop.
  all: repeat (case_step; run_loop).
  all: split;
    [ intros s; split;
      [ intros H; cbn [In] in H;
        repeat (destruct H as [H | H]; try discriminate H);
        try contradiction;
        try (injection H as H; split; [reflexivity | symmetry; exact H])
      | intros [H1 H2]; try discriminate H1; subst s; cbn [In]; tauto ]
    | intros r w' E; inversion E; reflexivity ].
Qed.

(** A vision-assisted iteration, then hand contact one second later: the
    flush branch finds the flag false and assigns [s_current]. *)
Lemma flush_reseeds_slip_on_entry_witness :
  let w1 := snd (cycle (vision_assisted 0) (initial_world 0 None)) in
  let w2 := snd (prelude (hand_contact 1) w1) in
  In (assign_s_current (1 # 2))
     (estimator_ops (events_of (arbitrate (hand_contact 1) true) w2)).
Proof.
  intros w1 w2.
  refine (proj2 (proj1
    (flush_reseeds_slip_on_entry (hand_contact 1) true w2 _ _) (1 # 2)%Q) _);
    vm_compute; tauto.
Defined.

(** ** Events of a sequence *)

Lemma estimator_ops_app l l' :
  estimator_ops (l ++ l') = estimator_ops l ++ estimator_ops l'.
Proof.
  induction l as [| [op | op | m] l IH]; cbn [app estimator_ops];
    rewrite ?IH; reflexivity.
Qed.

Lemma published_app l l' : published (l ++ l') = published l ++ published l'.
Proof.
  induction l as [| [op | op | m] l IH]; cbn [app published];
    rewrite ?IH; reflexivity.
Qed.

Lemma world_eta w : w = mkWorld (vars w) (previous_estimate w) (trace w).
Proof. destruct w; reflexivity. Qed.

(** The events of [c ;; k] are those of [c], then those of [k]. *)
Lemma events_of_bind {A B} (c : M A) (k : A -> M B) (w : World) :
  framed c -> (forall a, framed (k a)) ->
  events_of (bind c k) w
  = match fst (c w) with
    | Ok a => events_of c w ++ events_of (k a) (snd (c w))
    | Raise _ => events_of c w
    end.
Proof.
  intros Hc Hk.
  destruct (framed_trace c w Hc) as [_ [R [V P]]].
  unfold events_of at 1. cbn [bind]. rewrite R.
  destruct (c (with_trace [] w)) as [[a | e] w0] eqn:E; cbn [fst snd] in *.
  - assert (W : w0 = with_trace (trace (with_trace [] (snd (c w))) ++ trace w0)
                       (with_trace [] (snd (c w)))).
    { rewrite (world_eta w0) at 1. unfold with_trace.
      cbn [vars previous_estimate trace app]. rewrite V, P. reflexivity. }
    rewrite W, (Hk a). cbn [snd with_trace trace].
    rewrite rev_app_distr. unfold events_of. rewrite E. cbn [snd].
    reflexivity.
  - unfold events_of. rewrite E. reflexivity.
Qed.

(** ** The line-contact flag after corner contact *)

Lemma corner_contact_branch_clears_flag i wc w :
  prev_step_was_line_contact (vars (snd (corner_contact_branch i wc w)))
  = false.
Proof.
  unfold corner_contact_branch. run_loop.
  repeat (case_step; run_loop); reflexivity.
Qed.

Lemma prelude_keeps_flag i w wall w' :
  prelude i w = (Ok wall, w') ->
  prev_step_was_line_contact (vars w') = prev_step_was_line_contact (vars w).
Proof.
  intros P. destruct (prelude_ok _ _ _ _ P) as [w0 [V E]]. rewrite E.
  rewrite (preserves_staleness_gate prev_step_was_line_contact i)
    by (intros; reflexivity).
  rewrite (preserves_update_corner_contact_feasibility
             prev_step_was_line_contact i) by (intros; reflexivity).
  rewrite V. reflexivity.
Qed.

(** C9.  The corner-contact branch sets [prev_step_was_line_contact] to
    false, whatever follows in the branch; so when an iteration in corner
    contact is followed by an iteration in flush-line contact, the second
    one assigns the reasoner's slip estimate to [s_current]. *)
Theorem corner_contact_clears_line_contact_flag (i1 i2 : Inputs)
  (w w1 : World) (wall2 : Z * bool) :
  (forall wc w0, corner_contact_condition i1 (vars w0) = true ->
     prev_step_was_line_contact (vars (snd (arbitrate i1 wc w0))) = false)
  /\ (cycle i1 w = (Ok tt, w1) ->
      corner_contact_condition i1 (vars (snd (prelude i1 w))) = true ->
      fst (prelude i2 w1) = Ok wall2 ->
      corner_contact_condition i2 (vars (snd (prelude i2 w1))) = false ->
      flush_contact_condition i2 = true ->
      prev_step_was_line_contact (vars w1) = false
      /\ In (assign_s_current (snd (hand_contact_face i2)))
            (estimator_ops (events_of (cycle i2) w1))).
Proof.
  assert (K : forall wc w0, corner_contact_condition i1 (vars w0) = true ->
     prev_step_was_line_contact (vars (snd (arbitrate i1 wc w0))) = false).
  { intros wc w0 C. unfold arbitrate. run_loop. rewrite C.
    apply corner_contact_branch_clears_flag. }
  split; [exact K |].
  intros C1 G1 P2 G2 F2.
  assert (F1 : prev_step_was_line_contact (vars w1) = false).
  { revert C1. unfold cycle, arbitrate_and_publish. cbn [bind].
    destruct (prelude i1 w) as [[wall1 | e] wg] eqn:P1; [| discriminate].
    cbn [snd] in G1. specialize (K (snd wall1) wg G1).
    destruct (arbitrate i1 (snd wall1) wg) as [[r | e] wa]; [| discriminate].
    intros C1. cbn [snd] in K.
    pose proof (preserves_build_snapshot prev_step_was_line_contact i1
                  (fst wall1) (fst r) (snd r) wa) as H.
    rewrite C1 in H. cbn [snd] in H. rewrite H. exact K. }
  split; [exact F1 |].
  destruct (prelude i2 w1) as [r2 wg] eqn:P. cbn [fst snd] in P2, G2.
  subst r2.
  unfold cycle.
  rewrite (events_of_bind _ _ _ (framed_prelude i2)
             (framed_arbitrate_and_publish i2)).
  rewrite P. cbn [fst snd]. unfold arbitrate_and_publish.
  rewrite (events_of_bind _ _ _ (framed_arbitrate i2 (snd wall2))
             (fun r => framed_build_snapshot i2 (fst wall2) (fst r) (snd r))).
  rewrite estimator_ops_app. apply in_or_app. right.
  assert (I : In (assign_s_current (snd (hand_contact_face i2)))
                (estimator_ops (events_of (arbitrate i2 (snd wall2)) wg))).
  { unfold events_of, arbitrate. run_loop. rewrite G2, F2.
    apply (flush_contact_branch_reseeds i2 (snd wall2) wg).
    rewrite (prelude_keeps_flag _ _ _ _ P). exact F1. }
  destruct (fst (arbitrate i2 (snd wall2) wg)); [| exact I].
  rewrite estimator_ops_app. apply in_or_app. left. exact I.
Qed.

(** After fourteen idle iterations with infeasible reports, hand contact
    is still taken as corner contact; at the next iteration the counter
    exceeds 15, the flush branch runs and re-seeds [s_current]. *)
Lemma corner_contact_clears_line_contact_flag_witness :
  let w :=
    snd (run (corner_report true :: repeat (corner_report false) 14)
           (initial_world 0 None)) in
  let w1 := snd (cycle (hand_contact 0) w) in
  In (assign_s_current (1 # 2))
     (estimator_ops (events_of (cycle (hand_contact 0)) w1)).
Proof.
  intros w w1.
  refine (proj2 (proj2
    (corner_contact_clears_line_contact_flag (hand_contact 0) (hand_contact 0)
       w w1 (2%Z, true)) _ _ _ _ _)); vm_compute; reflexivity.
Defined.

(** ** The snapshot *)

Lemma append_vertex_world i d h k acc w :
  snd (append_vertex i d h k acc w) = w.
Proof.
  unfold append_vertex. run_loop. repeat (case_step; run_loop); reflexivity.
Qed.

Lemma for_range_world {A} (body : nat -> A -> M A) :
  (forall k a w, snd (body k a w) = w) ->
  forall range acc w, snd (for_range range body acc w) = w.
Proof.
  intros Hb range. induction range as [| k range IH]; intros acc w;
    cbn [for_range].
  - reflexivity.
  - cbn [bind]. specialize (Hb k acc w).
    destruct (body k acc w) as [[a | e] w0]; cbn [snd] in *; subst w0.
    + apply IH.
    + reflexivity.
Qed.

(** Publishing changes nothing but the trace. *)
Lemma publish_estimate_world i wf hci h d w :
  vars (snd (publish_estimate i wf hci h d w)) = vars w
  /\ previous_estimate (snd (publish_estimate i wf hci h d w))
     = previous_estimate w.
Proof.
  unfold publish_estimate, publish_pivot_frame. run_loop.
  repeat (case_step; run_loop); try (split; reflexivity).
  all: match goal with
       | |- context [for_range ?r ?b ?a ?w0] =>
           pose proof (for_range_world b (append_vertex_world i d h) r a w0)
             as F;
           destruct (for_range r b a w0) as [[? | ?] w1]; cbn [snd] in F;
           subst w1
       end; run_loop; repeat (case_step; run_loop); split; reflexivity.
Qed.

Lemma index_head {A} (a : A) (l : list A) : index (a :: l) 0 = Ok a.
Proof. reflexivity. Qed.

Lemma index_empty {A} (k : nat) : index (@nil A) k = Raise IndexError.
Proof. destruct k; reflexivity. Qed.

Lemma index_cases {A} (l : list A) (k : nat) :
  (exists a, index l k = Ok a) \/ index l k = Raise IndexError.
Proof.
  unfold index. destruct (nth_error l k) as [a |];
    [left; exists a; reflexivity | right; reflexivity].
Qed.

(** The loop over the vertices leaves the world as it is. *)
Ltac silent_loop i d h :=
  match goal with
  | |- context [for_range ?r ?b ?a ?w0] =>
      let F := fresh "F" in
      pose proof (for_range_world b (append_vertex_world i d h) r a w0) as F;
      destruct (for_range r b a w0) as [[? | ?] ?]; cbn [snd] in F;
      subst
  end.

(** Lines 364-368 on every value of the contact vertices.  For an
    estimate that is not [None] the pivot-frame message is published
    exactly when the contact vertices of the estimator are a list with a
    first element, and this element indexes the two rows of the vertex
    positions; the message is the (normal, tangential, fixed-height)
    position of this vertex. *)
Theorem pivot_frame_publication (i : Inputs) (wall_flag : Z)
  (hand_contact_indices : list nat) (hand_front_center_world : Vec)
  (d : EstimateDict) (w : World) :
  let publish :=
    publish_estimate i wall_flag hand_contact_indices hand_front_center_world
      d in
  let pivots := pivot_frames (published (events_of publish w)) in
  match contact_vertices i with
  | None => pivots = []
  | Some [] => pivots = []
  | Some (contact_index :: _) =>
      match vertex_position d 0 contact_index,
            vertex_position d 1 contact_index,
            index hand_front_center_world 2 with
      | Ok pn_wm, Ok pt_wm, Ok z => pivots = [[pn_wm; pt_wm; z]]
      | _, _, _ => pivots = []
      end
  end.
Proof.
  intros publish pivots. unfold pivots, publish, events_of, publish_estimate,
    publish_pivot_frame, vertex_position.
  run_loop.
  destruct (index_cases (vertex_positions_wm_current d) 0) as [[row0 E] | E];
    rewrite E; run_loop.
  2: { destruct (contact_vertices i) as [[| c rest] |]; reflexivity. }
  destruct (contact_vertices i) as [[| c rest] |];
    rewrite ?index_head, ?index_empty; run_loop.
  - reflexivity.
  - destruct (index row0 c) as [pn | e1]; run_loop; [| reflexivity].
    destruct (index (vertex_positions_wm_current d) 1) as [row1 | e2];
      run_loop; [| reflexivity].
    destruct (index row1 c) as [pt | e3]; run_loop; [| reflexivity].
    destruct (index hand_front_center_world 2) as [z | e4]; run_loop;
      [| reflexivity].
    silent_loop i d hand_front_center_world;
      run_loop; repeat (case_step; run_loop); reflexivity.
  - silent_loop i d hand_front_center_world;
      run_loop; repeat (case_step; run_loop); reflexivity.
Qed.

(** C8.  The pivot frame is to be published when the contact vertex set
    is not empty, and the guard of line 364 stands before the access to
    its first element; the guard tests the set against [None] only.  With
    an estimator that returns an estimate and holds the empty list of
    contact vertices, the list passes the guard, the access of line 365
    raises [IndexError] and the iteration publishes nothing; with [None] in
    place of the empty list the same iteration completes and publishes the
    polygon, without a pivot frame. *)
Lemma empty_contact_vertices_raise_index_error :
  let i := estimated_contact 0 (Some []) in
  let w := initial_world 0 None in
  basic_estimate i = Some triangle_estimate
  /\ contact_vertices i = Some []
  /\ fst (cycle i w) = Raise IndexError
  /\ published (events_of (cycle i) w) = []
  /\ fst (cycle (estimated_contact 0 None) w) = Ok tt
  /\ length (published (events_of (cycle (estimated_contact 0 None)) w))
     = 1%nat
  /\ pivot_frames (published (events_of (cycle (estimated_contact 0 None)) w))
     = [].
Proof. cbv zeta. repeat split; vm_compute; reflexivity. Qed.

(** The estimator holds vertex 1 of the triangle as its contact vertex:
    the pivot-frame message carries the position of vertex 1 at the height
    of the hand. *)
Lemma pivot_frame_publication_witness :
  let i := estimated_contact 0 (Some [1]) in
  pivot_frames
    (published
       (events_of (publish_estimate i 2 [0; 1] [0; 0; 41 # 1000; 1]%Q
                     triangle_estimate)
          (initial_world 0 None)))
  = [[1; 0; 41 # 1000]%Q].
Proof.
  intros i.
  exact (pivot_frame_publication i 2%Z [0; 1] [0; 0; 41 # 1000; 1]%Q
           triangle_estimate (initial_world 0 None)).
Defined.

(** ** Further properties of the classifier and of the force threshold *)

(** The wall classification is symmetric: exchanging the inequalities of
    the two sides exchanges the flags 0 (right) and 1 (left) and keeps the
    flags 2 (both) and -1 (none), and [wall_contact_on] is the same. *)
Theorem wall_classification_symmetric (i : Inputs) (w : World) :
  match classify_wall_contact i w with
  | (Ok (wall_flag, wall_contact_on), _) =>
      classify_wall_contact (swap_sides i) w
      = (Ok (mirror_wall_flag wall_flag, wall_contact_on), w)
  | (Raise _, _) => exists e, fst (classify_wall_contact (swap_sides i) w) = Raise e
  end.
Proof.
  unfold classify_wall_contact, wall_contact_right_bool, wall_contact_left_bool,
    swap_sides, with_friction.
  cbn [friction_parameter_dict measured_world_manipulation_wrench aer ber ael
       bel].
  run_loop.
  destruct (wall_contact_bool (aer (friction_parameter_dict i))
              (ber (friction_parameter_dict i))
              (measured_world_manipulation_wrench i)) as [[] | e];
    destruct (wall_contact_bool (ael (friction_parameter_dict i))
                (bel (friction_parameter_dict i))
                (measured_world_manipulation_wrench i)) as [[] | e'];
    run_loop; try reflexivity; eexists; reflexivity.
Qed.

(** With a normal force of at most 3.0 neither contact mode is selected,
    whatever the torque-boundary test says: the cascade goes on to the
    vision-assist and no-contact modes. *)
Theorem weak_normal_force_selects_no_contact_mode (i : Inputs) (v : Vars) :
  (fst (measured_contact_wrench i) <= 3)%Q ->
  corner_contact_condition i v = false
  /\ flush_contact_condition i = false
  /\ selected i v <> CornerContactMode
  /\ selected i v <> FlushLineContactMode.
Proof.
  intros L.
  assert (N : normal_force_exceeds i = false).
  { unfold normal_force_exceeds. destruct (Qltb 3 _) eqn:E; [| reflexivity].
    apply Qltb_lt in E. exfalso. apply (Qlt_not_le _ _ E L). }
  assert (C : corner_contact_condition i v = false).
  { unfold corner_contact_condition. rewrite N. apply andb_false_r. }
  assert (F : flush_contact_condition i = false).
  { unfold flush_contact_condition. rewrite N. apply andb_false_r. }
  repeat split; try assumption.
  - intros S. destruct (selected_first_match i v) as [P _]. rewrite S in P.
    cbn [precondition] in P. unfold corner_contact_condition in C.
    congruence.
  - intros S. destruct (selected_first_match i v) as [P _]. rewrite S in P.
    cbn [precondition] in P. unfold flush_contact_condition in F.
    congruence.
Qed.

(** A normal force of 2.9 with the torque-boundary test true. *)
Lemma weak_normal_force_selects_no_contact_mode_witness :
  let i :=
    scenario 0 (Some true) (29 # 10) None true true None false
      single_hypothesis None None in
  flush_contact_condition i = false.
Proof.
  intros i.
  refine (proj1 (proj2
    (weak_normal_force_selects_no_contact_mode i (initial_vars 0) _))).
  vm_compute. discriminate.
Defined.

(** ** The order of the vertices in the snapshot *)

Lemma index_snoc_last {A} (l : list A) (x : A) :
  index (l ++ [x]) (length l) = Ok x.
Proof.
  unfold index. rewrite nth_error_app2 by lia. rewrite Nat.sub_diag.
  reflexivity.
Qed.

Lemma index_snoc_before {A} (l : list A) (x : A) (k : nat) :
  k < length l -> index (l ++ [x]) k = index l k.
Proof. intros L. unfold index. rewrite nth_error_app1 by lia. reflexivity. Qed.

Lemma append_vertex_holds i d h s acc w acc' w' :
  holds_vertices d s acc ->
  append_vertex i d h s acc w = (Ok acc', w') ->
  holds_vertices d (S s) acc'.
Proof.
  intros [[Ln [Lt [Lc Ls]]] H]. unfold append_vertex. run_loop.
  destruct (vertex_position d 0 s) as [n |] eqn:En; run_loop;
    [| discriminate].
  destruct (vertex_position d 1 s) as [t |] eqn:Et; run_loop;
    [| discriminate].
  destruct (index h 2) as [z |]; run_loop; [| discriminate].
  destruct (index (mglcostheta_current d) s) as [c |] eqn:Ec; run_loop;
    [| discriminate].
  destruct (index (mglsintheta_current d) s) as [sn |] eqn:Es; run_loop;
    [| discriminate].
  intros E. inversion E; subst acc' w'. clear E.
  unfold holds_vertices.
  cbn [vertex_array_n vertex_array_t mgl_cos_theta_list mgl_sin_theta_list].
  rewrite !length_app. cbn [length].
  split; [repeat split; lia |].
  intros k L. destruct (Nat.eq_dec k s) as [-> | N].
  - rewrite <- Ln at 1. rewrite <- Lt at 2. rewrite <- Lc at 3.
    rewrite <- Ls at 4. rewrite !index_snoc_last.
    repeat split; congruence.
  - assert (L' : k < s) by lia. destruct (H k L') as [H1 [H2 [H3 H4]]].
    rewrite !index_snoc_before by lia. repeat split; assumption.
Qed.

Lemma for_range_holds i d h n :
  forall s acc w l w',
    holds_vertices d s acc ->
    for_range (seq s n) (append_vertex i d h) acc w = (Ok l, w') ->
    holds_vertices d (s + n) l.
Proof.
  induction n as [| n IH]; intros s acc w l w' H; cbn [seq for_range].
  - run_loop. intros E. inversion E; subst. rewrite Nat.add_0_r. exact H.
  - cbn [bind].
    destruct (append_vertex i d h s acc w) as [[acc' | e] w1] eqn:A;
      [| discriminate].
    intros E. rewrite Nat.add_succ_r.
    apply (IH (S s) acc' w1 l w' (append_vertex_holds _ _ _ _ _ _ _ _ H A) E).
Qed.

(** The loop of lines 380-390 keeps the order of the vertices: when it
    completes, entry [k] of each list it has filled is entry [k] of the
    estimate, for every vertex [k]. *)
Theorem snapshot_keeps_vertex_order (i : Inputs) (d : EstimateDict)
  (hand_front_center_world row0 : Vec) (w w' : World) (l : VertexLists) :
  index (vertex_positions_wm_current d) 0 = Ok row0 ->
  for_range (seq 0 (length row0)) (append_vertex i d hand_front_center_world)
    (mkVertexLists [] [] [] [] [] []) w = (Ok l, w') ->
  w' = w
  /\ length (vertex_array_n l) = length row0
  /\ forall k, k < length row0 ->
       index (vertex_array_n l) k = index row0 k
       /\ index (vertex_array_t l) k = vertex_position d 1 k
       /\ index (mgl_cos_theta_list l) k = index (mglcostheta_current d) k
       /\ index (mgl_sin_theta_list l) k = index (mglsintheta_current d) k.
Proof.
  intros R F.
  assert (H0 : holds_vertices d 0 (mkVertexLists [] [] [] [] [] [])).
  { split; [repeat split; reflexivity | intros k L; lia]. }
  destruct (for_range_holds _ _ _ _ _ _ _ _ _ H0 F) as [[Ln _] H].
  cbn [Nat.add] in *.
  split.
  { pose proof (for_range_world _
                  (append_vertex_world i d hand_front_center_world)
                  (seq 0 (length row0)) (mkVertexLists [] [] [] [] [] []) w)
      as W.
    rewrite F in W. exact W. }
  split; [exact Ln |].
  intros k L. destruct (H k L) as [H1 H234]. split; [| exact H234].
  rewrite H1. unfold vertex_position. rewrite R. reflexivity.
Qed.

(** The triangle: the three vertices come out in the order of the
    estimate. *)
Lemma snapshot_keeps_vertex_order_witness :
  let i := estimated_contact 0 (Some [1]) in
  let w := initial_world 0 None in
  let loop :=
    for_range (seq 0 3) (append_vertex i triangle_estimate [0; 0; 1; 1]%Q)
      (mkVertexLists [] [] [] [] [] []) w in
  match fst loop with
  | Ok l => length (vertex_array_n l) = 3
  | Raise _ => False
  end.
Proof.
  intros i w loop.
  refine (proj1 (proj2
    (snapshot_keeps_vertex_order i triangle_estimate [0; 0; 1; 1]%Q
       [0; 1; 0]%Q w w
       (mkVertexLists [0; 1; 0]%Q [0; 0; 1]%Q [1; 1; 1]%Q [1; 1; 1]%Q
          [0; 0; 0]%Q [1]) _ _))); vm_compute; reflexivity.
Defined.

(** ** The wall classification: flag, fail-open, malformed rows *)

Lemma wall_flag_of_none (r l : bool) :
  (r || l = false <-> wall_flag_of r l = (-1)%Z)
  /\ (wall_flag_of r l = 0%Z \/ wall_flag_of r l = 1%Z
      \/ wall_flag_of r l = 2%Z \/ wall_flag_of r l = (-1)%Z).
Proof. destruct r, l; cbn; repeat split; intros; try discriminate; auto. Qed.

(** When the classification completes it leaves the world as it is, the
    flag is one of -1, 0, 1, 2, and it is -1 exactly when [wall_contact_on]
    is false.  A side without inequality counts as in contact: without
    inequalities on both sides the flag is 2 and [wall_contact_on] is
    true, whatever the wrench. *)
Theorem wall_flag_agrees_with_wall_contact_on (i : Inputs) (w w' : World)
  (wall_flag : Z) (wall_contact_on : bool) :
  classify_wall_contact i w = (Ok (wall_flag, wall_contact_on), w') ->
  w' = w
  /\ (wall_contact_on = false <-> wall_flag = (-1)%Z)
  /\ (wall_flag = 0%Z \/ wall_flag = 1%Z \/ wall_flag = 2%Z
      \/ wall_flag = (-1)%Z)
  /\ (aer (friction_parameter_dict i) = [] ->
      ael (friction_parameter_dict i) = [] ->
      wall_flag = 2%Z /\ wall_contact_on = true).
Proof.
  unfold classify_wall_contact. run_loop.
  destruct (wall_contact_right_bool i) as [r | e] eqn:R; run_loop;
    [| discriminate].
  destruct (wall_contact_left_bool i) as [l | e] eqn:L; run_loop;
    [| discriminate].
  intros E. inversion E; subst. clear E.
  destruct (wall_flag_of_none r l) as [N C].
  split; [reflexivity |]. split; [exact N |]. split; [exact C |].
  intros Ar Al. revert R L.
  unfold wall_contact_right_bool, wall_contact_left_bool.
  rewrite Ar, Al. cbn. intros R L. inversion R; inversion L.
  split; reflexivity.
Qed.

(** No friction inequality at all, as before the friction-cone node has
    published. *)
Lemma wall_flag_agrees_with_wall_contact_on_witness :
  let w := initial_world 0 None in
  snd (classify_wall_contact (corner_report false) w) = w.
Proof.
  intros w.
  exact (proj1 (wall_flag_agrees_with_wall_contact_on (corner_report false)
                  w (snd (classify_wall_contact (corner_report false) w))
                  2%Z true eq_refl)).
Defined.

Lemma np_dot_raises A v e : np_dot A v = Raise e -> e = ValueError.
Proof.
  unfold np_dot.
  destruct (forallb (fun r => length r =? length v) A); intros E;
    inversion E. reflexivity.
Qed.

Lemma np_dot_float64_raises A v e :
  np_dot_float64 A v = Raise e -> e = ValueError.
Proof.
  unfold np_dot_float64.
  destruct (forallb (fun r => length r =? length v) A); intros E;
    inversion E. reflexivity.
Qed.

Lemma np_greater_raises x y e : np_greater x y = Raise e -> e = ValueError.
Proof.
  unfold np_greater.
  destruct x as [| a [| a' x]]; destruct y as [| b [| b' y]];
    try discriminate;
    destruct (_ =? _); intros E; inversion E; reflexivity.
Qed.

Lemma wall_contact_bool_raises a b wrench e :
  wall_contact_bool a b wrench = Raise e -> e = ValueError.
Proof.
  unfold wall_contact_bool. destruct (0 <? length a); [| discriminate].
  destruct (np_dot_float64 a wrench) as [d | e1] eqn:D.
  - destruct (np_greater d _) as [c | e2] eqn:G; [discriminate |].
    intros E. inversion E; subst. apply (np_greater_raises _ _ _ G).
  - intros E. inversion E; subst. apply (np_dot_float64_raises _ _ _ D).
Qed.

Lemma wall_contact_bool_malformed a b wrench row :
  In row a -> length row <> length wrench ->
  wall_contact_bool a b wrench = Raise ValueError.
Proof.
  intros I L. unfold wall_contact_bool.
  destruct a as [| r a]; [destruct I |]. cbn [length Nat.ltb Nat.leb].
  unfold np_dot_float64.
  destruct (forallb (fun r0 => length r0 =? length wrench) (r :: a)) eqn:F;
    [| reflexivity].
  rewrite forallb_forall in F. specialize (F row I).
  apply Nat.eqb_eq in F. contradiction.
Qed.

(** A friction inequality row, on either side, whose length is not that of
    the measured wrench makes the iteration raise [ValueError] at the wall
    test, before any call on the reasoner or the estimator: the world is
    left as it was. *)
Theorem malformed_friction_row_aborts_iteration (i : Inputs) (w : World)
  (row : Vec) :
  In row (aer (friction_parameter_dict i))
  \/ In row (ael (friction_parameter_dict i)) ->
  length row <> length (measured_world_manipulation_wrench i) ->
  cycle i w = (Raise ValueError, w).
Proof.
  intros I L. unfold cycle, prelude, classify_wall_contact. run_loop.
  destruct (wall_contact_right_bool i) as [r | e] eqn:R; run_loop.
  - destruct I as [I | I].
    + unfold wall_contact_right_bool in R.
      rewrite (wall_contact_bool_malformed _ _ _ _ I L) in R. discriminate.
    + unfold wall_contact_left_bool.
      rewrite (wall_contact_bool_malformed _ _ _ _ I L). reflexivity.
  - rewrite (wall_contact_bool_raises _ _ _ _ R). reflexivity.
Qed.

(** A right-side row with three coefficients against a wrench with two
    components. *)
Lemma malformed_friction_row_aborts_iteration_witness :
  let i :=
    with_friction (Build_FrictionParameterDict [[1; 2; 3]%Q] [1%Q] [] [])
      [1; 2]%Q (hand_contact 0) in
  events_of (cycle i) (initial_world 0 None) = [].
Proof.
  intros i.
  unfold events_of.
  rewrite (malformed_friction_row_aborts_iteration i
             (with_trace [] (initial_world 0 None)) [1; 2; 3]%Q
             (or_introl (or_introl eq_refl)));
    [reflexivity | vm_compute; discriminate].
Defined.

(** ** Before the first feasible report *)

Lemma update_corner_contact_feasibility_unlatched i w :
  hysteresis (vars w) = (false, np_inf, None) ->
  has_run_once i && is_feasible (temp_corner_contact_dict i) = false ->
  hysteresis (vars (snd (update_corner_contact_feasibility i w)))
  = (false, np_inf, None).
Proof.
  unfold hysteresis. intros H F. injection H as H1 H2 H3.
  unfold update_corner_contact_feasibility.
  destruct (has_run_once i); run_loop; [| congruence].
  cbn [andb] in F. rewrite F. run_loop. rewrite H2.
  cbn [count_incr count_gt]. run_loop. congruence.
Qed.

(** From the start of the loop and as long as the hysteresis gets no
    feasible report, [corner_contact_is_feasible] stays false, the miss
    counter stays at [np.inf] and no payload is latched; so the condition
    of the corner branch fails for every input. *)
Theorem no_corner_contact_before_first_feasible_report (t0 : Q)
  (e0 : option EstimateDict) (inputs : list Inputs) (w' : World) :
  no_feasible_report inputs = true ->
  run inputs (initial_world t0 e0) = (Ok tt, w') ->
  corner_contact_is_feasible (vars w') = false
  /\ num_line_contact_detected_count (vars w') = np_inf
  /\ corner_contact_dict (vars w') = None
  /\ forall i, corner_contact_condition i (vars w') = false.
Proof.
  assert (G : forall inputs w w',
             hysteresis (vars w) = (false, np_inf, None) ->
             no_feasible_report inputs = true ->
             run inputs w = (Ok tt, w') ->
             hysteresis (vars w') = (false, np_inf, None)).
  { clear. induction inputs as [| i inputs IH]; intros w w' H A R.
    - cbn in R. inversion R; subst. exact H.
    - cbn [no_feasible_report forallb] in A. apply andb_prop in A.
      destruct A as [Ai A]. apply negb_true_iff in Ai.
      destruct (run_cons _ _ _ _ R) as [w1 [Cy R']].
      destruct (cycle_hysteresis _ _ _ Cy) as [w0 [V H0]].
      apply (IH w1 w' ); [| exact A | exact R'].
      rewrite H0.
      apply update_corner_contact_feasibility_unlatched; [| exact Ai].
      unfold hysteresis. rewrite V. exact H. }
  intros A R.
  specialize (G inputs (initial_world t0 e0) w' eq_refl A R).
  unfold hysteresis in G. injection G as G1 G2 G3.
  repeat split; try assumption.
  intros i. unfold corner_contact_condition. rewrite G1.
  rewrite andb_false_r. reflexivity.
Qed.

(** Three iterations in hand contact without a feasible report. *)
Lemma no_corner_contact_before_first_feasible_report_witness :
  let w' := snd (run (repeat (hand_contact 0) 3) (initial_world 0 None)) in
  num_line_contact_detected_count (vars w') = np_inf.
Proof.
  intros w'.
  refine (proj1 (proj2
    (no_corner_contact_before_first_feasible_report 0%Q None
       (repeat (hand_contact 0) 3) w' _ _))); vm_compute; reflexivity.
Defined.

(** ** The exceptions of an iteration *)

Lemma index_raises {A} (l : list A) (k : nat) (e : Exn) :
  index l k = Raise e -> e = IndexError.
Proof.
  unfold index. destruct (nth_error l k); intros E; inversion E.
  reflexivity.
Qed.

Lemma vertex_position_raises d r c e :
  vertex_position d r c = Raise e -> e = IndexError.
Proof.
  unfold vertex_position.
  destruct (index (vertex_positions_wm_current d) r) eqn:R.
  - apply index_raises.
  - intros E. inversion E; subst. apply (index_raises _ _ _ R).
Qed.

Lemma cyclic_successor_raises face n e :
  cyclic_successor face n = Raise e -> e = ZeroDivisionError /\ n = 0.
Proof.
  destruct n; cbn; intros E; inversion E. split; reflexivity.
Qed.

Lemma wall_contact_indices_of_raises wall_flag l e :
  wall_contact_indices_of wall_flag l = Raise e -> e = ValueError.
Proof.
  unfold wall_contact_indices_of, np_argmin, np_argmax.
  destruct (wall_flag =? 0)%Z; [| destruct (wall_flag =? 1)%Z];
    destruct l; intros E; inversion E; reflexivity.
Qed.

(** Names the exception of every failed access in the context. *)
Ltac name_exceptions :=
  repeat match goal with
    | H : index _ _ = Raise ?e |- _ =>
        apply index_raises in H; try subst e
    | H : vertex_position _ _ _ = Raise ?e |- _ =>
        apply vertex_position_raises in H; try subst e
    | H : np_dot _ _ = Raise ?e |- _ =>
        apply np_dot_raises in H; try subst e
    | H : wall_contact_indices_of _ _ = Raise ?e |- _ =>
        apply wall_contact_indices_of_raises in H; try subst e
    | H : cyclic_successor _ _ = Raise ?e |- _ =>
        apply cyclic_successor_raises in H; destruct H as [? ?]; try subst e
    end.

Lemma append_vertex_raises i d h k acc w e :
  fst (append_vertex i d h k acc w) = Raise e -> e = IndexError.
Proof.
  unfold append_vertex. run_loop. repeat (case_step; run_loop);
    intros E; inversion E; subst; name_exceptions; reflexivity.
Qed.

Lemma for_range_raises i d h range :
  forall acc w e,
    fst (for_range range (append_vertex i d h) acc w) = Raise e ->
    e = IndexError.
Proof.
  induction range as [| k range IH]; intros acc w e; cbn [for_range].
  - discriminate.
  - cbn [bind].
    pose proof (append_vertex_raises i d h k acc w) as A.
    destruct (append_vertex i d h k acc w) as [[acc' | e'] w1];
      cbn [fst] in *.
    + apply IH.
    + intros E. inversion E; subst. apply A. reflexivity.
Qed.

Lemma publish_estimate_raises i wf hci h d w e :
  fst (publish_estimate i wf hci h d w) = Raise e ->
  e = IndexError \/ e = ValueError.
Proof.
  unfold publish_estimate, publish_pivot_frame. run_loop.
  repeat (case_step; run_loop);
    try (intros E; inversion E; subst; name_exceptions; auto; fail).
  all: match goal with
       | |- context [for_range ?r ?b ?a ?w0] =>
           pose proof (for_range_raises i d h r a w0) as F;
           destruct (for_range r b a w0) as [[? | e1] ?]; cbn [fst] in F
       end; run_loop; repeat (case_step; run_loop);
       intros E; inversion E; subst; name_exceptions; auto.
Qed.

Lemma build_snapshot_raises i wf b hci w e :
  fst (build_snapshot i wf b hci w) = Raise e ->
  e = IndexError \/ e = ValueError.
Proof.
  unfold build_snapshot. destruct b; [| discriminate]. run_loop.
  destruct (np_dot _ hand_front_center) as [h | e1] eqn:D; run_loop.
  - destruct (basic_estimate i) as [d |]; [| discriminate].
    apply publish_estimate_raises.
  - intros E. inversion E; subst. name_exceptions. auto.
Qed.

Lemma prelude_raises i w e :
  fst (prelude i w) = Raise e -> e = ValueError.
Proof.
  unfold prelude, classify_wall_contact. run_loop.
  destruct (wall_contact_right_bool i) as [r | e1] eqn:R; run_loop.
  - destruct (wall_contact_left_bool i) as [l | e2] eqn:L; run_loop.
    + unfold update_reasoner. run_loop.
      destruct (update_corner_contact_feasibility i _) as [[[] | e3] w1]
        eqn:U.
      * destruct (staleness_gate i w1) as [[[] | e4] w2] eqn:S.
        -- discriminate.
        -- exfalso. revert S. unfold staleness_gate.
           destruct (new_vision i); run_loop; discriminate.
      * exfalso. revert U. unfold update_corner_contact_feasibility.
        repeat (case_step; run_loop); discriminate.
    + intros E. inversion E; subst.
      apply (wall_contact_bool_raises _ _ _ _ L).
  - intros E. inversion E; subst.
    apply (wall_contact_bool_raises _ _ _ _ R).
Qed.

(** With a latched payload the cascade never subscripts [None]. *)
Lemma arbitrate_no_type_error i wc w :
  latched (vars w) -> fst (arbitrate i wc w) <> Raise TypeError.
Proof.
  intros L. unfold arbitrate. run_loop.
  unfold corner_contact_condition.
  destruct (corner_contact_dict (vars w)) as [d |] eqn:D.
  - destruct (torque_cone_boundary_test_holds i
              && corner_contact_is_feasible (vars w)
              && normal_force_exceeds i).
    + unfold corner_contact_branch. run_loop. rewrite D. run_loop.
      repeat (case_step; run_loop); name_exceptions;
        intros E; cbn [fst] in E; discriminate E.
    + destruct (flush_contact_condition i);
        [| destruct (has_new_vision i);
           [| destruct (no_contact_condition i (vars w))]];
        unfold flush_contact_branch, vision_assist_branch, no_contact_branch;
        run_loop; repeat (case_step; run_loop); name_exceptions;
        intros E; cbn [fst] in E; discriminate E.
  - assert (F : corner_contact_is_feasible (vars w) = false).
    { destruct (corner_contact_is_feasible (vars w)) eqn:F; [| reflexivity].
      destruct (L F). exact D. }
    rewrite F, andb_false_r. cbn [andb].
    destruct (flush_contact_condition i);
      [| destruct (has_new_vision i);
         [| destruct (no_contact_condition i (vars w))]];
      unfold flush_contact_branch, vision_assist_branch, no_contact_branch;
      run_loop; repeat (case_step; run_loop); name_exceptions;
      intros E; cbn [fst] in E; discriminate E.
Qed.


Lemma arbitrate_zero_division i wc w :
  fst (arbitrate i wc w) = Raise ZeroDivisionError ->
  num_vertices i = 0
  /\ corner_contact_condition i (vars w) = false
  /\ flush_contact_condition i = true.
Proof.
  unfold arbitrate. run_loop.
  destruct (corner_contact_condition i (vars w));
    [| destruct (flush_contact_condition i);
       [| destruct (has_new_vision i);
          [| destruct (no_contact_condition i (vars w))]]];
    unfold corner_contact_branch, flush_contact_branch,
      vision_assist_branch, no_contact_branch;
    run_loop; repeat (case_step; run_loop); name_exceptions;
    intros E; cbn [fst] in E; try discriminate E; repeat split;
    solve [reflexivity | assumption].
Qed.

(** A run keeps an invariant of the world that every completed iteration
    keeps, and does not raise an exception that no iteration raises under
    the invariant. *)
Lemma run_avoids (I : World -> Prop) (Pin : Inputs -> Prop) (e : Exn) :
  (forall i w w', Pin i -> I w -> cycle i w = (Ok tt, w') -> I w') ->
  (forall i w, Pin i -> I w -> fst (cycle i w) <> Raise e) ->
  forall inputs w, Forall Pin inputs -> I w ->
    fst (run inputs w) <> Raise e.
Proof.
  intros Keep Avoid inputs.
  induction inputs as [| i inputs IH]; intros w F H; cbn [run].
  - discriminate.
  - inversion F as [| ? ? Pi F']; subst. cbn [bind].
    pose proof (Avoid i w Pi H) as A. pose proof (Keep i w) as K.
    destruct (cycle i w) as [[[] | e'] w1]; cbn [fst] in *.
    + apply IH; [exact F' | apply K; [exact Pi | exact H | reflexivity]].
    + exact A.
Qed.

Lemma update_corner_contact_feasibility_latched i w :
  latched (vars w) ->
  latched (vars (snd (update_corner_contact_feasibility i w))).
Proof.
  unfold latched, update_corner_contact_feasibility. intros L.
  repeat (case_step; run_loop); try exact L; try discriminate.
Qed.

Lemma prelude_latched i w wall w2 :
  prelude i w = (Ok wall, w2) -> latched (vars w) -> latched (vars w2).
Proof.
  intros P L. destruct (prelude_ok _ _ _ _ P) as [w0 [V E]].
  assert (H : hysteresis (vars w2)
              = hysteresis
                  (vars (snd (update_corner_contact_feasibility i w0)))).
  { rewrite E.
    apply (preserves_staleness_gate hysteresis i); intros; reflexivity. }
  assert (L0 : latched (vars (snd (update_corner_contact_feasibility i w0)))).
  { apply update_corner_contact_feasibility_latched. rewrite V. exact L. }
  unfold hysteresis in H. injection H as H1 _ H3.
  unfold latched in *. rewrite H1, H3. exact L0.
Qed.

Lemma cycle_no_type_error i w :
  latched (vars w) -> fst (cycle i w) <> Raise TypeError.
Proof.
  intros L. unfold cycle, arbitrate_and_publish. cbn [bind].
  pose proof (prelude_raises i w) as PR.
  destruct (prelude i w) as [[wall | e] w2] eqn:P; cbn [fst] in *.
  - pose proof (arbitrate_no_type_error i (snd wall) w2
                  (prelude_latched _ _ _ _ P L)) as A.
    destruct (arbitrate i (snd wall) w2) as [[r | e] w3]; cbn [fst] in *.
    + intros E.
      destruct (build_snapshot_raises _ _ _ _ _ _ E); discriminate.
    + intros E. inversion E; subst. apply A. reflexivity.
  - intros E. inversion E; subst. specialize (PR _ eq_refl). discriminate.
Qed.

Lemma cycle_latched i w w' :
  latched (vars w) -> cycle i w = (Ok tt, w') -> latched (vars w').
Proof.
  intros L C. destruct (cycle_hysteresis _ _ _ C) as [w0 [V H]].
  assert (L0 : latched (vars (snd (update_corner_contact_feasibility i w0)))).
  { apply update_corner_contact_feasibility_latched. rewrite V. exact L. }
  unfold hysteresis in H. injection H as H1 _ H3.
  unfold latched in *. rewrite H1, H3. exact L0.
Qed.

(** From the start of the loop no run raises [TypeError]: whenever the
    corner branch subscripts [corner_contact_dict], a feasible report has
    latched it. *)
Theorem run_never_raises_type_error (t0 : Q) (e0 : option EstimateDict)
  (inputs : list Inputs) :
  fst (run inputs (initial_world t0 e0)) <> Raise TypeError
  /\ forall w', run inputs (initial_world t0 e0) = (Ok tt, w') ->
                latched (vars w').
Proof.
  split.
  - apply (run_avoids (fun w => latched (vars w)) (fun _ => True)).
    + intros i w w' _ L C. exact (cycle_latched i w w' L C).
    + intros i w _ L. exact (cycle_no_type_error i w L).
    + apply Forall_forall. intros; exact I.
    + unfold latched. cbn. discriminate.
  - assert (G : forall l w w', latched (vars w) ->
                  run l w = (Ok tt, w') -> latched (vars w')).
    { induction l as [| i l IH]; intros w w' L R.
      - cbn in R. inversion R; subst. exact L.
      - destruct (run_cons _ _ _ _ R) as [w1 [C R']].
        apply (IH w1 w' (cycle_latched _ _ _ L C) R'). }
    intros w' R. apply (G inputs (initial_world t0 e0) w'); [| exact R].
    unfold latched. cbn. discriminate.
Qed.







(** Without the clock condition the loop does read an unbound variable:
    hand contact at a time 0.9 s before the start time takes vision as
    fresh although no vision message has come. *)
Lemma clock_before_start_raises_name_error :
  fst (cycle (hand_contact (-9 # 10)) (initial_world 0 None))
  = Raise NameError.
Proof. vm_compute. reflexivity. Qed.

(** ** The wall contact vertex (lines 394-397) *)

Lemma Qltb_ge (x y : Q) : Qltb x y = false <-> (y <= x)%Q.
Proof.
  split.
  - intros F. apply Qnot_lt_le. intros L. apply Qltb_lt in L. congruence.
  - intros G. destruct (Qltb x y) eqn:E; [| reflexivity].
    apply Qltb_lt in E. exfalso. apply (Qlt_not_le _ _ E G).
Qed.

Lemma index_ok_length {A} (l : list A) (k : nat) (a : A) :
  index l k = Ok a -> k < length l.
Proof.
  unfold index. intros E. apply nth_error_Some.
  destruct (nth_error l k); [discriminate | discriminate E].
Qed.

Lemma index_snoc_cases {A} (l : list A) (x a : A) (k : nat) :
  index (l ++ [x]) k = Ok a ->
  (k < length l /\ index l k = Ok a) \/ (k = length l /\ a = x).
Proof.
  intros E. pose proof (index_ok_length _ _ _ E) as L.
  rewrite length_app in L. cbn [length] in L.
  destruct (Nat.eq_dec k (length l)) as [-> | N].
  - right. rewrite index_snoc_last in E. split; congruence.
  - left. assert (L' : k < length l) by lia.
    rewrite index_snoc_before in E by exact L'. split; assumption.
Qed.

(** [argmin_from], started on the least entry of the part already read,
    ends on the first least entry of the whole. *)
Lemma argmin_from_least (l : Vec) :
  forall (pre : Vec) (best : Q) (bi : nat),
    index pre bi = Ok best ->
    (forall j x, index pre j = Ok x -> (best <= x)%Q) ->
    (forall j x, j < bi -> index pre j = Ok x -> (best < x)%Q) ->
    exists m,
      index (pre ++ l) (argmin_from best bi (length pre) l) = Ok m
      /\ (forall j x, index (pre ++ l) j = Ok x -> (m <= x)%Q)
      /\ (forall j x, j < argmin_from best bi (length pre) l ->
                      index (pre ++ l) j = Ok x -> (m < x)%Q).
Proof.
  induction l as [| y l IH]; intros pre best bi B Le Lt; cbn [argmin_from].
  - rewrite app_nil_r. exists best. repeat split; assumption.
  - replace (pre ++ y :: l) with ((pre ++ [y]) ++ l)
      by (rewrite <- app_assoc; reflexivity).
    replace (S (length pre)) with (length (pre ++ [y]))
      by (rewrite length_app; cbn [length]; lia).
    destruct (Qltb y best) eqn:C.
    + apply Qltb_lt in C. apply IH.
      * apply index_snoc_last.
      * intros j x E. destruct (index_snoc_cases _ _ _ _ E) as [[_ E'] | [_ ->]].
        -- specialize (Le j x E'). lra.
        -- lra.
      * intros j x J E.
        destruct (index_snoc_cases _ _ _ _ E) as [[_ E'] | [J' _]]; [| lia].
        specialize (Le j x E'). lra.
    + apply Qltb_ge in C. pose proof (index_ok_length _ _ _ B) as Lb. apply IH.
      * rewrite index_snoc_before by exact Lb. exact B.
      * intros j x E. destruct (index_snoc_cases _ _ _ _ E) as [[_ E'] | [_ ->]].
        -- exact (Le j x E').
        -- exact C.
      * intros j x J E.
        destruct (index_snoc_cases _ _ _ _ E) as [[_ E'] | [J' _]]; [| lia].
        exact (Lt j x J E').
Qed.

Lemma argmax_from_greatest (l : Vec) :
  forall (pre : Vec) (best : Q) (bi : nat),
    index pre bi = Ok best ->
    (forall j x, index pre j = Ok x -> (x <= best)%Q) ->
    (forall j x, j < bi -> index pre j = Ok x -> (x < best)%Q) ->
    exists m,
      index (pre ++ l) (argmax_from best bi (length pre) l) = Ok m
      /\ (forall j x, index (pre ++ l) j = Ok x -> (x <= m)%Q)
      /\ (forall j x, j < argmax_from best bi (length pre) l ->
                      index (pre ++ l) j = Ok x -> (x < m)%Q).
Proof.
  induction l as [| y l IH]; intros pre best bi B Le Lt; cbn [argmax_from].
  - rewrite app_nil_r. exists best. repeat split; assumption.
  - replace (pre ++ y :: l) with ((pre ++ [y]) ++ l)
      by (rewrite <- app_assoc; reflexivity).
    replace (S (length pre)) with (length (pre ++ [y]))
      by (rewrite length_app; cbn [length]; lia).
    destruct (Qltb best y) eqn:C.
    + apply Qltb_lt in C. apply IH.
      * apply index_snoc_last.
      * intros j x E. destruct (index_snoc_cases _ _ _ _ E) as [[_ E'] | [_ ->]].
        -- specialize (Le j x E'). lra.
        -- lra.
      * intros j x J E.
        destruct (index_snoc_cases _ _ _ _ E) as [[_ E'] | [J' _]]; [| lia].
        specialize (Le j x E'). lra.
    + apply Qltb_ge in C. pose proof (index_ok_length _ _ _ B) as Lb. apply IH.
      * rewrite index_snoc_before by exact Lb. exact B.
      * intros j x E. destruct (index_snoc_cases _ _ _ _ E) as [[_ E'] | [_ ->]].
        -- exact (Le j x E').
        -- exact C.
      * intros j x J E.
        destruct (index_snoc_cases _ _ _ _ E) as [[_ E'] | [J' _]]; [| lia].
        exact (Lt j x J E').
Qed.

Lemma index_single_cases (x a : Q) (j : nat) :
  index [x] j = Ok a -> j = 0 /\ a = x.
Proof.
  destruct j as [| j]; cbn.
  - intros E. split; congruence.
  - destruct j; discriminate.
Qed.

(** The wall contact vertex of the published estimate is an extreme vertex
    of the tangential coordinates: for the right wall (flag 0) the first
    vertex of least tangential coordinate, for the left wall (flag 1) the
    first vertex of greatest tangential coordinate; with both walls or none
    (flags 2 and -1) no wall contact vertex is named. *)
Theorem wall_contact_index_is_extreme_vertex (wall_flag : Z)
  (tangential : Vec) (wall_contact_indices : list nat) :
  wall_contact_indices_of wall_flag tangential = Ok wall_contact_indices ->
  if (wall_flag =? 0)%Z then
    exists k m,
      wall_contact_indices = [k] /\ index tangential k = Ok m
      /\ (forall j x, index tangential j = Ok x -> (m <= x)%Q)
      /\ (forall j x, j < k -> index tangential j = Ok x -> (m < x)%Q)
  else if (wall_flag =? 1)%Z then
    exists k m,
      wall_contact_indices = [k] /\ index tangential k = Ok m
      /\ (forall j x, index tangential j = Ok x -> (x <= m)%Q)
      /\ (forall j x, j < k -> index tangential j = Ok x -> (x < m)%Q)
  else wall_contact_indices = [].
Proof.
  unfold wall_contact_indices_of, np_argmin, np_argmax.
  destruct (wall_flag =? 0)%Z; [| destruct (wall_flag =? 1)%Z].
  - destruct tangential as [| y l]; [discriminate |].
    intros E. inversion E; subst. clear E.
    destruct (argmin_from_least l [y] y 0) as [m [I [Le Lt]]].
    + reflexivity.
    + intros j x E. destruct (index_single_cases _ _ _ E) as [_ ->]. lra.
    + intros j x J. lia.
    + exists (argmin_from y 0 1 l), m. repeat split; assumption.
  - destruct tangential as [| y l]; [discriminate |].
    intros E. inversion E; subst. clear E.
    destruct (argmax_from_greatest l [y] y 0) as [m [I [Le Lt]]].
    + reflexivity.
    + intros j x E. destruct (index_single_cases _ _ _ E) as [_ ->]. lra.
    + intros j x J. lia.
    + exists (argmax_from y 0 1 l), m. repeat split; assumption.
  - intros E. inversion E. reflexivity.
Qed.

(** The triangle against the right wall: vertices 0 and 1 have the least
    tangential coordinate, and vertex 0 is named. *)
Lemma wall_contact_index_is_extreme_vertex_witness :
  wall_contact_indices_of 0 [0; 0; 1]%Q = Ok [0]
  /\ exists k m,
       [0] = [k] /\ index [0; 0; 1]%Q k = Ok m
       /\ (forall j x, index [0; 0; 1]%Q j = Ok x -> (m <= x)%Q)
       /\ (forall j x, j < k -> index [0; 0; 1]%Q j = Ok x -> (m < x)%Q).
Proof.
  split; [reflexivity |].
  exact (wall_contact_index_is_extreme_vertex 0%Z [0; 0; 1]%Q [0] eq_refl).
Defined.

(** ** What an iteration publishes (lines 360-402) *)

Lemma append_vertex_heights_and_contacts i d h k acc w acc' w' :
  append_vertex i d h k acc w = (Ok acc', w') ->
  contact_indices acc'
  = contact_indices acc ++ filter (is_contact_vertex i) [k]
  /\ exists z, index h 2 = Ok z
               /\ vertex_array_z acc' = vertex_array_z acc ++ [z].
Proof.
  unfold append_vertex. run_loop.
  destruct (vertex_position d 0 k); run_loop; [| discriminate].
  destruct (vertex_position d 1 k); run_loop; [| discriminate].
  destruct (index h 2) as [z |]; run_loop; [| discriminate].
  destruct (index (mglcostheta_current d) k); run_loop; [| discriminate].
  destruct (index (mglsintheta_current d) k); run_loop; [| discriminate].
  intros E. inversion E; subst. clear E.
  cbn [contact_indices vertex_array_z filter]. split.
  - destruct (is_contact_vertex i k); [reflexivity |].
    rewrite app_nil_r. reflexivity.
  - exists z. split; reflexivity.
Qed.

Lemma for_range_heights_and_contacts i d h n :
  forall s acc w l w',
    for_range (seq s n) (append_vertex i d h) acc w = (Ok l, w') ->
    contact_indices l
    = contact_indices acc ++ filter (is_contact_vertex i) (seq s n)
    /\ forall z, index h 2 = Ok z ->
                 vertex_array_z l = vertex_array_z acc ++ repeat z n.
Proof.
  induction n as [| n IH]; intros s acc w l w'; cbn [seq for_range].
  - run_loop. intros E. inversion E; subst. cbn [filter repeat].
    rewrite !app_nil_r. split; [reflexivity | intros; reflexivity].
  - cbn [bind].
    destruct (append_vertex i d h s acc w) as [[acc' | e] w1] eqn:A;
      [| discriminate].
    intros E. destruct (IH _ _ _ _ _ E) as [C Z].
    destruct (append_vertex_heights_and_contacts _ _ _ _ _ _ _ _ A)
      as [C' [z [Hz Z']]].
    split.
    + rewrite C, C'. rewrite <- app_assoc. cbn [filter].
      destruct (is_contact_vertex i s); reflexivity.
    + intros z' Hz'. rewrite (Z z' Hz'), Z'. rewrite <- app_assoc.
      cbn [repeat app]. congruence.
Qed.

(** The publication of an estimate ends with the polygon message and
    sends nothing else but, before it, at most one pivot frame.  The
    polygon message carries the wall flag and the hand contact indices of
    the iteration, one height for every vertex, and as contact indices the
    vertex indices that the estimator holds as contact vertices, in
    ascending order and without repetition.  A publication that raises has
    sent no polygon message. *)
Theorem polygon_message_closes_the_publication (i : Inputs) (wall_flag : Z)
  (hand_contact_indices : list nat) (hand_front_center_world : Vec)
  (d : EstimateDict) (w : World) :
  let publish :=
    publish_estimate i wall_flag hand_contact_indices hand_front_center_world
      d in
  let sent := published (events_of publish w) in
  length (pivot_frames sent) <= 1
  /\ match fst (publish w) with
     | Ok _ =>
         exists row0 l wall_contact_indices,
           index (vertex_positions_wm_current d) 0 = Ok row0
           /\ sent
              = map pivot_frame_estimated (pivot_frames sent)
                ++ [polygon_contact_estimate
                      [vertex_array_n l; vertex_array_t l; vertex_array_z l]
                      (contact_indices l) (mgl_cos_theta_list l)
                      (mgl_sin_theta_list l) hand_contact_indices
                      wall_contact_indices wall_flag]
           /\ contact_indices l
              = filter (is_contact_vertex i) (seq 0 (length row0))
           /\ (forall z, index hand_front_center_world 2 = Ok z ->
                 vertex_array_z l = repeat z (length row0))
           /\ wall_contact_indices_of wall_flag (vertex_array_t l)
              = Ok wall_contact_indices
     | Raise _ => sent = map pivot_frame_estimated (pivot_frames sent)
     end.
Proof.
  intros publish sent.
  destruct (framed_trace publish w (framed_publish_estimate _ _ _ _ _))
    as [_ [T _]].
  rewrite T. clear T.
  unfold sent, publish, events_of, publish_estimate, publish_pivot_frame.
  run_loop.
  destruct (index (vertex_positions_wm_current d) 0) as [row0 | e0] eqn:R;
    run_loop; [| split; [cbn; lia | reflexivity]].
  destruct (contact_vertices i) as [vertices |] eqn:V; run_loop.
  - destruct (index vertices 0) as [c | ?]; run_loop;
      [| split; [cbn; lia | reflexivity]].
    destruct (vertex_position d 0 c) as [pn | ?]; run_loop;
      [| split; [cbn; lia | reflexivity]].
    destruct (vertex_position d 1 c) as [pt | ?]; run_loop;
      [| split; [cbn; lia | reflexivity]].
    destruct (index hand_front_center_world 2) as [z | ?] eqn:Hz; run_loop;
      [| split; [cbn; lia | reflexivity]].
    match goal with
    | |- context [for_range ?r ?b ?a ?w0] =>
        pose proof (for_range_world b
                      (append_vertex_world i d hand_front_center_world)
                      r a w0) as F;
        destruct (for_range r b a w0) as [[l | ?] w1] eqn:Loop;
        cbn [snd] in F; subst w1
    end; run_loop; [| split; [cbn; lia | reflexivity]].
    destruct (for_range_heights_and_contacts _ _ _ _ _ _ _ _ _ Loop)
      as [C Z].
    cbn [contact_indices vertex_array_z app] in C, Z.
    destruct (wall_contact_indices_of wall_flag (vertex_array_t l))
      as [wci | ?] eqn:Wc; run_loop; [| split; [cbn; lia | reflexivity]].
    split; [cbn; lia |].
    exists row0, l, wci. repeat split; try assumption; try reflexivity.
    intros z0 E. apply Z. congruence.
  - match goal with
    | |- context [for_range ?r ?b ?a ?w0] =>
        pose proof (for_range_world b
                      (append_vertex_world i d hand_front_center_world)
                      r a w0) as F;
        destruct (for_range r b a w0) as [[l | ?] w1] eqn:Loop;
        cbn [snd] in F; subst w1
    end; run_loop; [| split; [cbn; lia | reflexivity]].
    destruct (for_range_heights_and_contacts _ _ _ _ _ _ _ _ _ Loop)
      as [C Z].
    cbn [contact_indices vertex_array_z app] in C, Z.
    destruct (wall_contact_indices_of wall_flag (vertex_array_t l))
      as [wci | ?] eqn:Wc; run_loop; [| split; [cbn; lia | reflexivity]].
    split; [cbn; lia |].
    exists row0, l, wci. repeat split; try assumption; try reflexivity.
Qed.

(** ** The outcome of the cascade (lines 228-347) *)

Lemma cyclic_successor_ok (face n next : nat) :
  cyclic_successor face n = Ok next ->
  next = (face + 1) mod n /\ next < n.
Proof.
  unfold cyclic_successor. destruct n as [| n]; [discriminate |].
  intros E. assert (N : next = (face + 1) mod S n) by congruence.
  split; [exact N |]. rewrite N. apply Nat.mod_upper_bound. discriminate.
Qed.

(** When the cascade completes, an estimate is to be computed exactly when
    a mode other than the idle one was selected, and the hand contact
    indices follow the mode: the contact vertex of the latched corner
    report for corner contact; the contact face and its cyclic successor,
    both vertex indices, for flush-line contact; none for the other modes.
    The line-contact flag is true after flush-line contact, false after
    the three other modes and unchanged by the idle outcome. *)
Theorem hand_contact_indices_follow_the_mode (i : Inputs)
  (wall_contact_on : bool) (w : World) (can_run_estimate : bool)
  (hand_contact_indices : list nat) (w' : World) :
  let w1 := snd (staleness_gate i w) in
  let m := selected i (vars w1) in
  arbitrate i wall_contact_on w1
  = (Ok (can_run_estimate, hand_contact_indices), w') ->
  can_run_estimate = negb (Mode_eqb m Idle)
  /\ match m with
     | CornerContactMode =>
         exists d, corner_contact_dict (vars w1) = Some d
                   /\ hand_contact_indices = [contact_vertex d]
     | FlushLineContactMode =>
         let face := fst (hand_contact_face i) in
         hand_contact_indices = [face; (face + 1) mod num_vertices i]
         /\ (face + 1) mod num_vertices i < num_vertices i
     | _ => hand_contact_indices = []
     end
  /\ prev_step_was_line_contact (vars w')
     = match m with
       | FlushLineContactMode => true
       | Idle => prev_step_was_line_contact (vars w1)
       | _ => false
       end.
Proof.
  intros w1 m A.
  pose proof (@arbitrate_selected i wall_contact_on w1
                (staleness_gate_gated i w)) as V.
  unfold estimator_view in V. injection V as Vr Vv _.
  fold m in Vr, Vv. rewrite A in Vr, Vv. cbn [fst snd] in Vr, Vv.
  destruct (selected_first_match i (vars w1)) as [P _]. fold m in P.
  rewrite Vv. clear Vv A. revert P Vr.
  destruct m; cbn [mode_sequence precondition Mode_eqb negb].
  - intros _. unfold corner_contact_branch. run_loop.
    destruct (corner_contact_dict (vars w1)) as [d |]; run_loop;
      [| discriminate].
    repeat (case_step; run_loop); intros E; try discriminate E;
      inversion E; subst; (split; [reflexivity |]);
      (split; [exists d; split; reflexivity | reflexivity]).
  - intros _. unfold flush_contact_branch. run_loop.
    destruct (cyclic_successor (fst (hand_contact_face i)) (num_vertices i))
      as [next |] eqn:S; run_loop.
    + destruct (cyclic_successor_ok _ _ _ S) as [N L].
      repeat (case_step; run_loop); intros E; try discriminate E;
        inversion E; subst; (split; [reflexivity |]);
        (split; [split; [reflexivity | exact L] | reflexivity]).
    + repeat (case_step; run_loop); intros E; discriminate E.
  - unfold vision_assist_branch. run_loop.
    destruct (has_new_vision i); [| discriminate]. cbn [andb].
    destruct (vision_hypothesis_dict (vars w1)) as [vh |]; [| discriminate].
    run_loop.
    destruct (chosen_vision_hypothesis i vh (hypothesis_no_object_motion i));
      [| discriminate].
    intros _. run_loop.
    repeat (case_step; run_loop); intros E; try discriminate E;
      inversion E; subst; repeat split; reflexivity.
  - unfold no_contact_branch. run_loop. intros P.
    apply andb_prop in P. destruct P as [_ N]. rewrite N. run_loop.
    repeat (case_step; run_loop); intros E; try discriminate E;
      inversion E; subst; repeat split; reflexivity.
  - intros _ E. inversion E; subst. repeat split; reflexivity.
Qed.

(** Hand contact without a feasible corner report selects flush-line
    contact: the contact face 0 of the triangle and its successor 1. *)
Lemma hand_contact_indices_follow_the_mode_witness :
  let w1 := snd (staleness_gate (hand_contact 0) (initial_world 0 None)) in
  fst (arbitrate (hand_contact 0) true w1) = Ok (true, [0; 1])
  /\ prev_step_was_line_contact
       (vars (snd (arbitrate (hand_contact 0) true w1))) = true.
Proof.
  intros w1. split; [vm_compute; reflexivity |].
  refine (proj2 (proj2
    (hand_contact_indices_follow_the_mode (hand_contact 0) true
       (initial_world 0 None) true [0; 1]
       (snd (arbitrate (hand_contact 0) true w1)) _))).
  vm_compute. reflexivity.
Defined.

(** ** The estimator and the transport over one iteration *)

(** The prelude talks to the reasoner only. *)
Lemma prelude_silent i w :
  estimator_ops (events_of (prelude i) w) = []
  /\ published (events_of (prelude i) w) = []
  /\ previous_estimate (snd (prelude i w)) = previous_estimate w.
Proof.
  unfold events_of, prelude, classify_wall_contact, update_reasoner,
    update_corner_contact_feasibility, staleness_gate.
  run_loop. repeat (case_step; run_loop); repeat split; reflexivity.
Qed.

(** The cascade publishes nothing and leaves the reasoner's previous
    estimate as it is. *)
Lemma arbitrate_silent i wc w :
  published (events_of (arbitrate i wc) w) = []
  /\ previous_estimate (snd (arbitrate i wc w)) = previous_estimate w.
Proof.
  unfold events_of, arbitrate. run_loop.
  destruct (corner_contact_condition i (vars w));
    [| destruct (flush_contact_condition i);
       [| destruct (has_new_vision i);
          [| destruct (no_contact_condition i (vars w))]]];
    unfold corner_contact_branch, flush_contact_branch,
      vision_assist_branch, no_contact_branch;
    run_loop; repeat (case_step; run_loop); split; reflexivity.
Qed.

Lemma cycle_events i w wall w2 :
  prelude i w = (Ok wall, w2) ->
  events_of (cycle i) w
  = events_of (prelude i) w
    ++ events_of (arbitrate i (snd wall)) w2
    ++ match fst (arbitrate i (snd wall) w2) with
       | Ok r =>
           events_of (build_snapshot i (fst wall) (fst r) (snd r))
             (snd (arbitrate i (snd wall) w2))
       | Raise _ => []
       end.
Proof.
  intros P. unfold cycle.
  rewrite (events_of_bind _ _ _ (framed_prelude i)
             (framed_arbitrate_and_publish i)).
  rewrite P. cbn [fst snd]. f_equal. unfold arbitrate_and_publish.
  rewrite (events_of_bind _ _ _ (framed_arbitrate i (snd wall))
             (fun r => framed_build_snapshot i (fst wall) (fst r) (snd r))).
  destruct (fst (arbitrate i (snd wall) w2)); [reflexivity |].
  rewrite app_nil_r. reflexivity.
Qed.

Lemma prelude_gated i w wall w2 :
  prelude i w = (Ok wall, w2) -> gated i (vars w2).
Proof.
  intros P. destruct (prelude_ok _ _ _ _ P) as [w0 [_ E]]. rewrite E.
  apply staleness_gate_gated.
Qed.

(** An iteration whose prelude completes and in which no mode is selected
    completes, leaves the estimator without any call, publishes nothing and
    keeps the reasoner's previous estimate; the variables of the script are
    those the prelude left. *)
Theorem idle_cycle_leaves_estimator_alone (i : Inputs) (w : World)
  (wall : Z * bool) (w2 : World) :
  prelude i w = (Ok wall, w2) ->
  selected i (vars w2) = Idle ->
  fst (cycle i w) = Ok tt
  /\ vars (snd (cycle i w)) = vars w2
  /\ previous_estimate (snd (cycle i w)) = previous_estimate w
  /\ estimator_ops (events_of (cycle i) w) = []
  /\ published (events_of (cycle i) w) = [].
Proof.
  intros P S.
  pose proof (@arbitrate_selected i (snd wall) w2 (prelude_gated _ _ _ _ P))
    as V.
  rewrite S in V. unfold estimator_view in V. cbn [mode_sequence] in V.
  injection V as Vr Vv Vo.
  destruct (prelude_silent i w) as [Pe [Pp Pv]].
  destruct (arbitrate_silent i (snd wall) w2) as [Ap Av].
  rewrite P in Pv. cbn [snd] in Pv.
  rewrite (cycle_events _ _ _ _ P), !estimator_ops_app, !published_app.
  rewrite Pe, Pp, Vo, Ap, Vr. cbn [fst snd build_snapshot app].
  unfold cycle, arbitrate_and_publish. cbn [bind]. rewrite P.
  destruct (arbitrate i (snd wall) w2) as [[r | e] w3];
    cbn [fst snd] in *; [| discriminate].
  inversion Vr; subst r. cbn [fst snd build_snapshot ret].
  repeat split; try assumption; try reflexivity. congruence.
Qed.

(** Nothing arrives at all: the first iteration is idle. *)
Lemma idle_cycle_leaves_estimator_alone_witness :
  fst (cycle (corner_report false) (initial_world 0 (Some triangle_estimate)))
  = Ok tt
  /\ previous_estimate
       (snd (cycle (corner_report false)
               (initial_world 0 (Some triangle_estimate))))
     = Some triangle_estimate.
Proof.
  pose proof (idle_cycle_leaves_estimator_alone (corner_report false)
                (initial_world 0 (Some triangle_estimate)) (2%Z, true)
                (snd (prelude (corner_report false)
                        (initial_world 0 (Some triangle_estimate)))))
    as H.
  split; apply H; vm_compute; reflexivity.
Defined.

Lemma mode_sequence_can_run m i wc w r :
  precondition m i (vars w) = true ->
  fst (mode_sequence m i wc w) = Ok r ->
  fst r = negb (Mode_eqb m Idle).
Proof.
  destruct m; cbn [mode_sequence precondition Mode_eqb negb].
  - intros _. unfold corner_contact_branch. run_loop.
    repeat (case_step; run_loop); intros E; try discriminate E;
      inversion E; reflexivity.
  - intros _. unfold flush_contact_branch. run_loop.
    repeat (case_step; run_loop); intros E; try discriminate E;
      inversion E; reflexivity.
  - unfold vision_assist_branch. run_loop.
    destruct (has_new_vision i); [| discriminate]. cbn [andb].
    destruct (vision_hypothesis_dict (vars w)) as [vh |]; [| discriminate].
    run_loop.
    destruct (chosen_vision_hypothesis i vh (hypothesis_no_object_motion i));
      [| discriminate].
    intros _. run_loop.
    repeat (case_step; run_loop); intros E; try discriminate E;
      inversion E; reflexivity.
  - unfold no_contact_branch. run_loop. intros P.
    apply andb_prop in P. destruct P as [_ N]. rewrite N. run_loop.
    repeat (case_step; run_loop); intros E; try discriminate E;
      inversion E; reflexivity.
  - intros _ E. inversion E. reflexivity.
Qed.

(** The publication talks to the transport only, and a publication that
    completes has sent a message. *)
Lemma publish_estimate_sends i wf hci h d w :
  estimator_ops (events_of (publish_estimate i wf hci h d) w) = []
  /\ (fst (publish_estimate i wf hci h d w) = Ok tt ->
      published (events_of (publish_estimate i wf hci h d) w) <> []).
Proof.
  destruct (framed_trace (publish_estimate i wf hci h d) w
              (framed_publish_estimate _ _ _ _ _)) as [_ [T _]].
  rewrite T. clear T.
  unfold events_of, publish_estimate, publish_pivot_frame. run_loop.
  repeat (case_step; run_loop); try (split; [reflexivity | discriminate]).
  all: match goal with
       | |- context [for_range ?r ?b ?a ?w0] =>
           pose proof (for_range_world b (append_vertex_world i d h) r a w0)
             as F;
           destruct (for_range r b a w0) as [[? | ?] w1]; cbn [snd] in F;
           subst w1
       end; run_loop; repeat (case_step; run_loop);
       split; try reflexivity; try discriminate;
       rewrite published_app; cbn; intros _ E;
       apply app_eq_nil in E; destruct E; discriminate.
Qed.








(** An iteration that selects a mode and completes ends its time step
    with one computation of the estimate: after the calls of the selected
    mode the estimator receives [compute_basic_estimate] and nothing else.
    The result becomes the reasoner's previous estimate, and something is
    published exactly when this result is not [None]. *)
Theorem every_time_step_ends_with_one_estimate (i : Inputs) (w : World)
  (wall : Z * bool) (w2 w' : World) :
  prelude i w = (Ok wall, w2) ->
  cycle i w = (Ok tt, w') ->
  selected i (vars w2) <> Idle ->
  estimator_ops (events_of (cycle i) w)
  = estimator_ops
      (events_of (mode_sequence (selected i (vars w2)) i (snd wall)) w2)
    ++ [compute_basic_estimate]
  /\ previous_estimate w' = basic_estimate i
  /\ (basic_estimate i = None <-> published (events_of (cycle i) w) = []).
Proof.
  intros P C S.
  pose proof (@arbitrate_selected i (snd wall) w2 (prelude_gated _ _ _ _ P))
    as V.
  unfold estimator_view in V. injection V as Vr _ Vo.
  destruct (selected_first_match i (vars w2)) as [Pre _].
  destruct (prelude_silent i w) as [Pe [Pp _]].
  destruct (arbitrate_silent i (snd wall) w2) as [Ap _].
  rewrite (cycle_events _ _ _ _ P), !estimator_ops_app, !published_app.
  rewrite Pe, Pp, Ap, <- Vo. cbn [app].
  revert C. unfold cycle, arbitrate_and_publish. cbn [bind]. rewrite P.
  destruct (arbitrate i (snd wall) w2) as [[r | e] w3] eqn:A;
    [| discriminate].
  cbn [fst snd] in *. symmetry in Vr.
  pose proof (mode_sequence_can_run _ _ _ _ _ Pre Vr) as R.
  assert (R' : fst r = true).
  { rewrite R. destruct (selected i (vars w2)); try reflexivity.
    destruct S. reflexivity. }
  rewrite R'. unfold build_snapshot, events_of. run_loop.
  destruct (np_dot (ee_pose_in_world_manipulation_homog i) hand_front_center)
    as [hfcw |]; run_loop; [| discriminate].
  destruct (basic_estimate i) as [d |]; run_loop.
  - intros C.
    set (publish := publish_estimate i (fst wall) (snd r) hfcw d) in *.
    set (wa := mkWorld (vars w3) (Some d)
                 (Rsn (update_previous_estimate_call (Some d))
                  :: Est compute_basic_estimate :: trace w3)) in *.
    set (wb := mkWorld (vars w3) (Some d)
                 [Rsn (update_previous_estimate_call (Some d));
                  Est compute_basic_estimate]).
    destruct (framed_trace publish wb (framed_publish_estimate _ _ _ _ _))
      as [Tb [Fb _]].
    destruct (framed_trace publish wa (framed_publish_estimate _ _ _ _ _))
      as [_ [Fa _]].
    change (with_trace [] wa) with (with_trace [] wb) in Fa.
    destruct (publish_estimate_sends i (fst wall) (snd r) hfcw d wb)
      as [Se Sp].
    fold publish in Se, Sp.
    destruct (publish_estimate_world i (fst wall) (snd r) hfcw d wa)
      as [_ Pv].
    fold publish in Pv. rewrite C in Pv, Fa. cbn [fst snd] in Pv, Fa.
    rewrite Tb, rev_app_distr, rev_involutive, estimator_ops_app,
      published_app, Se.
    cbn [wb trace rev app estimator_ops published].
    split; [reflexivity |]. split; [exact Pv |].
    split; [discriminate |]. intros E. exfalso. apply Sp; [| exact E].
    rewrite Fb, <- Fa. reflexivity.
  - intros C. inversion C; subst. cbn [previous_estimate].
    repeat split; reflexivity.
Qed.

(** Hand contact with an estimator that returns the triangle: the
    reasoner's previous estimate is the triangle. *)
Lemma every_time_step_ends_with_one_estimate_witness :
  let i := estimated_contact 0 (Some [1]) in
  let w := initial_world 0 None in
  previous_estimate (snd (cycle i w)) = Some triangle_estimate.
Proof.
  intros i w.
  refine (proj1 (proj2
    (every_time_step_ends_with_one_estimate i w (2%Z, true)
       (snd (prelude i w)) (snd (cycle i w)) _ _ _))).
  - vm_compute. reflexivity.
  - vm_compute. reflexivity.
  - vm_compute. discriminate.
Defined.

(** ** The opening of a time step *)

(** When the cascade completes with a mode, the time step of the estimator
    opens with the increment and then one measurement each of the hand
    pose, of the wrench and of the sliding state, in this order.  The wall
    contact state follows, with the [wall_contact_on] of the iteration, in
    the corner, flush-line and vision-assist modes; the no-contact mode
    does not refresh it.  The idle outcome makes none of these calls. *)
Theorem time_step_opens_with_measurements (i : Inputs)
  (wall_contact_on : bool) (w : World) (r : bool * list nat) :
  let w1 := snd (staleness_gate i w) in
  let opening :=
    [increment_time; add_hand_pose_measurement (hand_pose_pivot_estimator i);
     add_hand_wrench_measurement (measured_world_manipulation_wrench i);
     add_sliding_state (sliding_state i)] in
  fst (arbitrate i wall_contact_on w1) = Ok r ->
  filter opens_time_step
    (estimator_ops (events_of (arbitrate i wall_contact_on) w1))
  = match selected i (vars w1) with
    | Idle => []
    | NoContactMode => opening
    | _ => opening ++ [update_wall_contact_state wall_contact_on]
    end.
Proof.
  intros w1 opening A.
  pose proof (@arbitrate_selected i wall_contact_on w1
                (staleness_gate_gated i w)) as V.
  unfold estimator_view in V. injection V as Vr _ Vo.
  rewrite Vo. rewrite A in Vr. clear Vo A.
  destruct (selected_first_match i (vars w1)) as [P _].
  revert P Vr. unfold opening, events_of.
  destruct (selected i (vars w1)); cbn [mode_sequence precondition].
  - intros _. unfold corner_contact_branch. run_loop.
    repeat (case_step; run_loop); intros E; try discriminate E; reflexivity.
  - intros _. unfold flush_contact_branch. run_loop.
    repeat (case_step; run_loop); intros E; try discriminate E; reflexivity.
  - unfold vision_assist_branch. run_loop.
    destruct (has_new_vision i); [| discriminate]. cbn [andb].
    destruct (vision_hypothesis_dict (vars w1)) as [vh |]; [| discriminate].
    run_loop.
    destruct (chosen_vision_hypothesis i vh (hypothesis_no_object_motion i));
      [| discriminate].
    intros _. run_loop.
    repeat (case_step; run_loop); intros E; try discriminate E; reflexivity.
  - unfold no_contact_branch. run_loop. intros P.
    apply andb_prop in P. destruct P as [_ N]. rewrite N. run_loop.
    repeat (case_step; run_loop); intros E; try discriminate E; reflexivity.
  - intros _ _. reflexivity.
Qed.

(** The no-contact transition with a single hypothesis: the time step
    opens without a wall contact state. *)
Lemma time_step_opens_with_measurements_witness :
  let i := no_contact_transition 1 in
  let w1 := snd (staleness_gate i (initial_world 0 None)) in
  filter opens_time_step (estimator_ops (events_of (arbitrate i true) w1))
  = [increment_time; add_hand_pose_measurement [0; 0; 0]%Q;
     add_hand_wrench_measurement [0; 0; 0]%Q; add_sliding_state []].
Proof.
  intros i w1.
  refine (time_step_opens_with_measurements i true (initial_world 0 None)
            (true, []) _).
  vm_compute. reflexivity.
Defined.

(** * The friction-cone node *)

Section FrictionConeNode.

Import wrench_cone_estimation.

(** What holds at the start and is kept by every iteration, completed or
    not, holds after a run. *)
Lemma friction_run_invariant (I : State -> Prop) (Pin : Inputs -> Prop) :
  (forall i s, Pin i -> I s -> I (snd (cycle i s))) ->
  forall inputs s, Forall Pin inputs -> I s -> I (snd (run inputs s)).
Proof.
  intros Keep inputs.
  induction inputs as [| i inputs IH]; intros s F H; cbn [run].
  - exact H.
  - inversion F as [| ? ? Pi F']; subst. specialize (Keep i s Pi H).
    destruct (cycle i s) as [[[] | e] s1]; cbn [snd] in *.
    + apply IH; assumption.
    + exact Keep.
Qed.

(** The same for what the completed iterations keep. *)
Lemma friction_run_completed (I : State -> Prop) (Pin : Inputs -> Prop) :
  (forall i s s', Pin i -> I s -> cycle i s = (Ok tt, s') -> I s') ->
  forall inputs s s', Forall Pin inputs -> I s ->
    run inputs s = (Ok tt, s') -> I s'.
Proof.
  intros Keep inputs.
  induction inputs as [| i inputs IH]; intros s s' F H; cbn [run].
  - intros E. inversion E; subst. exact H.
  - inversion F as [| ? ? Pi F']; subst. specialize (Keep i s).
    destruct (cycle i s) as [[[] | e] s1]; [| discriminate].
    intros R. apply (IH s1 s' F'); [| exact R].
    apply Keep; [exact Pi | exact H | reflexivity].
Qed.

Lemma Forall_True {A} (l : list A) : Forall (fun _ => True) l.
Proof. apply Forall_forall. intros; exact I. Qed.

Lemma div_succ (k n : nat) :
  k <> 0 ->
  S n / k = n / k + (if S n mod k =? 0 then 1 else 0)
  /\ (S n mod k = 0 \/ S n mod k = S (n mod k)).
Proof.
  intros K.
  pose proof (Nat.div_mod_eq n k) as E.
  pose proof (Nat.mod_upper_bound n k K) as U.
  destruct (Nat.eq_dec (S (n mod k)) k) as [F | F].
  - assert (D : S n = k * S (n / k) + 0) by nia.
    assert (Q1 : S n / k = S (n / k))
      by (symmetry; apply (Nat.div_unique _ _ _ 0); [lia | exact D]).
    assert (Q2 : S n mod k = 0)
      by (symmetry; apply (Nat.mod_unique _ _ (S (n / k))); [lia | exact D]).
    rewrite Q1, Q2. cbn. split; [lia | left; reflexivity].
  - assert (D : S n = k * (n / k) + S (n mod k)) by lia.
    assert (Q1 : S n / k = n / k)
      by (symmetry; apply (Nat.div_unique _ _ _ (S (n mod k))); [lia | exact D]).
    assert (Q2 : S n mod k = S (n mod k))
      by (symmetry; apply (Nat.mod_unique _ _ (n / k)); [lia | exact D]).
    rewrite Q1, Q2. cbn. split; [lia | right; reflexivity].
Qed.

Ltac friction_step :=
  cbn [friction_parameter_dict last_update_time
       should_publish_robot_friction_cone should_publish_ground_friction_cone
       update_robot_friction_cone update_ground_friction_cone
       hand_data_point_count ground_data_point_count trace emit
       publications ground_points robot_updates ground_updates
       length Nat.b2n fst snd andb] in *.

Lemma hand_wrench_accounted i s : accounted s -> accounted (hand_wrench i s).
Proof.
  unfold accounted, hand_wrench, hand_update_number. intros [A [B [C D]]].
  destruct (end_effector_wrench_has_new i);
    [| friction_step; repeat split; assumption].
  friction_step.
  destruct (div_succ 100 (hand_data_point_count s)) as [Q _];
    [discriminate |].
  rewrite Q.
  destruct (update_robot_friction_cone s),
    (S (hand_data_point_count s) mod 100 =? 0);
    friction_step; repeat split; lia.
Qed.

Lemma ground_wrench_accounted i s :
  accounted s -> accounted (snd (ground_wrench i s)).
Proof.
  unfold accounted, ground_wrench, ground_update_number.
  intros [A [B [C D]]].
  destruct (end_effector_wrench_base_frame_has_new i);
    [| friction_step; repeat split; assumption].
  destruct (div_succ 100 (ground_data_point_count s)) as [Q _];
    [discriminate |].
  assert (G : ground_updates (trace s)
              + Nat.b2n (S (ground_data_point_count s) mod 100 =? 0)
              <= S (ground_data_point_count s) / 100).
  { rewrite Q.
    destruct (update_ground_friction_cone s),
      (S (ground_data_point_count s) mod 100 =? 0); friction_step; lia. }
  destruct (S (ground_data_point_count s) mod 2 =? 0);
    [destruct (index (measured_base_wrench i) 0);
     [destruct (index (measured_base_wrench i) 1) |] |];
    friction_step; repeat split; assumption.
Qed.

Lemma robot_update_accounted i s : accounted s -> accounted (robot_update i s).
Proof.
  unfold accounted, robot_update. intros [A [B [C D]]].
  destruct (update_robot_friction_cone s) eqn:U; friction_step;
    [| rewrite ?U; repeat split; assumption].
  destruct (should_publish_robot_friction_cone s);
    friction_step; repeat split; lia.
Qed.

Lemma ground_update_accounted i s :
  accounted s -> accounted (ground_update i s).
Proof.
  unfold accounted, ground_update. intros [A [B [C D]]].
  destruct (update_ground_friction_cone s) eqn:U; friction_step;
    [| rewrite ?U; repeat split; assumption].
  destruct (Qltb boundary_update_time (time_time i - last_update_time s));
    friction_step; [| rewrite ?U; repeat split; assumption].
  destruct (should_publish_ground_friction_cone s);
    friction_step; repeat split; lia.
Qed.

Lemma publish_accounted s : accounted s -> accounted (publish s).
Proof.
  unfold accounted, publish. intros [A [B [C D]]].
  destruct (should_publish_robot_friction_cone s) eqn:R; friction_step;
    [| rewrite ?R; repeat split; assumption].
  destruct (should_publish_ground_friction_cone s) eqn:G; friction_step;
    [| rewrite ?R, ?G; repeat split; assumption].
  repeat split; lia.
Qed.

Lemma cycle_accounted i s : accounted s -> accounted (snd (cycle i s)).
Proof.
  intros A. unfold cycle.
  pose proof (ground_wrench_accounted i _ (hand_wrench_accounted i s A)) as G.
  destruct (ground_wrench i (hand_wrench i s)) as [[[] | e] s1];
    cbn [snd] in *; [| exact G].
  apply publish_accounted, ground_update_accounted, robot_update_accounted.
  exact G.
Qed.

(** The counters count the new wrenches of the iterations that began. *)
Lemma cycle_counts i s :
  hand_data_point_count (snd (cycle i s))
  = hand_data_point_count s + Nat.b2n (end_effector_wrench_has_new i)
  /\ ground_data_point_count (snd (cycle i s))
     = ground_data_point_count s
       + Nat.b2n (end_effector_wrench_base_frame_has_new i).
Proof.
  unfold cycle, ground_wrench, hand_wrench, publish, ground_update,
    robot_update.
  destruct (end_effector_wrench_has_new i),
    (end_effector_wrench_base_frame_has_new i); friction_step.
  all: repeat match goal with
         | |- context [if ?b then _ else _] => destruct b; friction_step
         | |- context [match ?x with Ok _ => _ | Raise _ => _ end] =>
             destruct x; friction_step
         end; split; lia.
Qed.

Lemma run_counts inputs :
  forall s,
    hand_data_point_count (snd (run inputs s))
    <= hand_data_point_count s + new_hand_wrenches inputs
    /\ ground_data_point_count (snd (run inputs s))
       <= ground_data_point_count s + new_ground_wrenches inputs
    /\ (fst (run inputs s) = Ok tt ->
        hand_data_point_count (snd (run inputs s))
        = hand_data_point_count s + new_hand_wrenches inputs
        /\ ground_data_point_count (snd (run inputs s))
           = ground_data_point_count s + new_ground_wrenches inputs).
Proof.
  unfold new_hand_wrenches, new_ground_wrenches.
  induction inputs as [| i inputs IH]; intros s; cbn [run filter].
  - cbn. repeat split; lia.
  - destruct (cycle_counts i s) as [H G].
    destruct (cycle i s) as [[[] | e] s1]; cbn [fst snd] in *.
    + destruct (IH s1) as [H1 [G1 E1]].
      destruct (end_effector_wrench_has_new i),
        (end_effector_wrench_base_frame_has_new i);
        cbn [length Nat.b2n] in *;
        (split; [lia | split; [lia | intros R; destruct (E1 R); split; lia]]).
    + destruct (end_effector_wrench_has_new i),
        (end_effector_wrench_base_frame_has_new i);
        cbn [length Nat.b2n] in *;
        (split; [lia | split; [lia | discriminate]]).
Qed.

(** Every publication of the friction parameters takes a hundred new
    wrenches in the hand frame and a hundred new wrenches in the base
    frame of its own: after a run, completed or not, a hundred times the
    number of publications is at most the number of new wrenches of either
    kind.  So nothing is published before the hundredth wrench of each
    kind. *)
Theorem publication_takes_hundred_wrenches_of_each_kind (t0 : Q)
  (inputs : list Inputs) :
  let s := snd (run inputs (initial_state t0)) in
  100 * length (publications (trace s)) <= new_hand_wrenches inputs
  /\ 100 * length (publications (trace s)) <= new_ground_wrenches inputs.
Proof.
  intros s.
  assert (A : accounted s).
  { apply (friction_run_invariant accounted (fun _ => True)).
    - intros i s0 _. apply cycle_accounted.
    - apply Forall_True.
    - unfold accounted. cbn. lia. }
  destruct A as [A [B [C D]]].
  destruct (run_counts inputs (initial_state t0)) as [H [G _]].
  fold s in H, G. cbn [initial_state hand_data_point_count
                       ground_data_point_count Nat.add] in H, G.
  pose proof (Nat.div_mod_eq (hand_data_point_count s) 100) as Eh.
  pose proof (Nat.div_mod_eq (ground_data_point_count s) 100) as Eg.
  unfold hand_update_number, ground_update_number in B, D.
  split; lia.
Qed.

(** ** What is published *)

Lemma publications_cons_other e t :
  (forall d, e <> pub_friction_parameter d) ->
  publications (e :: t) = publications t.
Proof. intros N. destruct e; try reflexivity. destruct (N d). reflexivity. Qed.

Lemma merge_ground_sides g d :
  ((eru d = false -> aer d = [] /\ ber d = []) ->
   eru (merge_ground g d) = false ->
   aer (merge_ground g d) = [] /\ ber (merge_ground g d) = [])
  /\ ((elu d = false -> ael d = [] /\ bel d = []) ->
      elu (merge_ground g d) = false ->
      ael (merge_ground g d) = [] /\ bel (merge_ground g d) = [])
  /\ contact (merge_ground g d) = contact d.
Proof.
  unfold merge_ground.
  destruct (ground_elu g) eqn:L, (ground_eru g) eqn:R;
    cbn [aer ber ael bel elu eru contact]; rewrite ?L, ?R;
    repeat split; intros; try discriminate; tauto.
Qed.

Lemma cycle_publishing i s : publishing s -> publishing (snd (cycle i s)).
Proof.
  intros [A [B [C D]]].
  assert (H1 : publishing (hand_wrench i s)).
  { unfold publishing, hand_wrench.
    destruct (end_effector_wrench_has_new i); friction_step;
      repeat split; assumption || apply B || apply C; assumption. }
  assert (H2 : publishing (snd (ground_wrench i (hand_wrench i s)))).
  { revert H1. generalize (hand_wrench i s). clear. intros s [A [B [C D]]].
    unfold publishing, ground_wrench.
    destruct (end_effector_wrench_base_frame_has_new i); friction_step;
      [| repeat split; assumption || apply B || apply C; assumption].
    destruct (S (ground_data_point_count s) mod 2 =? 0);
      [destruct (index (measured_base_wrench i) 0);
       [destruct (index (measured_base_wrench i) 1) |] |];
      friction_step;
      repeat split; assumption || apply B || apply C; assumption. }
  unfold cycle.
  destruct (ground_wrench i (hand_wrench i s)) as [[[] | e] s1];
    cbn [snd] in *; [| exact H2].
  clear A B C D H1. destruct H2 as [A [B [C D]]].
  assert (H3 : publishing (robot_update i s1)).
  { unfold publishing, robot_update.
    destruct (update_robot_friction_cone s1); friction_step;
      [| repeat split; assumption || apply B || apply C; assumption].
    cbn [aer ber ael bel elu eru contact].
    repeat split; try discriminate; assumption || apply B || apply C;
      assumption. }
  generalize dependent (robot_update i s1). clear. intros s [A [B [C D]]].
  assert (H4 : publishing (ground_update i s)).
  { unfold publishing, ground_update.
    destruct (update_ground_friction_cone s
              && Qltb boundary_update_time (time_time i - last_update_time s));
      friction_step;
      [| repeat split; assumption || apply B || apply C; assumption].
    destruct (merge_ground_sides (param_dict_ground i)
                (friction_parameter_dict s)) as [R [L K]].
    split; [rewrite K; exact A |]. split; [exact (R B) |].
    split; [exact (L C) | exact D]. }
  generalize dependent (ground_update i s). clear. intros s [A [B [C D]]].
  unfold publishing, publish.
  destruct (should_publish_robot_friction_cone s) eqn:R; friction_step;
    [| rewrite ?R; repeat split; assumption || apply B || apply C;
       assumption].
  destruct (should_publish_ground_friction_cone s) eqn:G; friction_step;
    [| rewrite ?R; repeat split; assumption || apply B || apply C;
       assumption].
  split; [discriminate |]. split; [exact B |]. split; [exact C |].
  constructor; [| exact D].
  unfold publishable. split; [exact (A eq_refl) |]. split; assumption.
Qed.

(** Every published dictionary holds the five keys of the contact side,
    and holds no inequality for a wall side that the hull estimator has
    not yet marked as updated: ['aer'] and ['ber'] are empty while ['eru']
    is false, ['ael'] and ['bel'] are empty while ['elu'] is false.  The
    estimator loop takes a side without inequality as wall contact. *)
Theorem published_sides_are_updated_or_empty (t0 : Q) (inputs : list Inputs)
  (d : FrictionParameterDict) :
  In d (publications (trace (snd (run inputs (initial_state t0))))) ->
  publishable d.
Proof.
  intros I.
  assert (P : publishing (snd (run inputs (initial_state t0)))).
  { apply (friction_run_invariant publishing (fun _ => True)).
    - intros i s _. apply cycle_publishing.
    - apply Forall_True.
    - unfold publishing. cbn. repeat split; try discriminate. constructor. }
  destruct P as [_ [_ [_ F]]].
  exact (proj1 (Forall_forall _ _) F d I).
Qed.

(** A hundred iterations with a wrench in each frame, a second after the
    start: the hundredth publishes the left side, and the right side,
    not updated, is empty. *)
Lemma published_sides_are_updated_or_empty_witness :
  let d :=
    mkFrictionParameterDict [] [] [[0; 1; 0]]%Q [1]%Q true false
      (Some (mkParamDictContact [1; 0; 0]%Q [1; 0; 0]%Q 0%Q 0%Q true)) in
  In d (publications
          (trace (snd (run (repeat (both_wrenches 1) 100) (initial_state 0)))))
  /\ publishable d.
Proof.
  intros d.
  assert (I : In d (publications
                      (trace (snd (run (repeat (both_wrenches 1) 100)
                                     (initial_state 0))))))
    by (vm_compute; left; reflexivity).
  split; [exact I |].
  exact (published_sides_are_updated_or_empty 0%Q
           (repeat (both_wrenches 1) 100) d I).
Defined.

(** ** The points of the ground hull *)

Lemma Qopp_involutive_eq (x : Q) : (- - x)%Q = x.
Proof. destruct x as [n d]. unfold Qopp. cbn. rewrite Z.opp_involutive. reflexivity. Qed.

Lemma cycle_mirrored i s : mirrored s -> mirrored (snd (cycle i s)).
Proof.
  intros M.
  assert (K : forall s', ground_points (trace s') = ground_points (trace s) ->
                         mirrored s').
  { intros s' E p. rewrite E. exact (M p). }
  assert (H1 : ground_points (trace (hand_wrench i s))
               = ground_points (trace s)).
  { unfold hand_wrench. destruct (end_effector_wrench_has_new i);
      reflexivity. }
  assert (L : forall s', ground_points
                (trace (publish (ground_update i (robot_update i s'))))
              = ground_points (trace s')).
  { intros s'. unfold publish, ground_update, robot_update.
    repeat match goal with
      | |- context [if ?b then _ else _] => destruct b; friction_step
      end; reflexivity. }
  unfold cycle, ground_wrench.
  destruct (end_effector_wrench_base_frame_has_new i); cbn [snd].
  2: { apply K. rewrite L. exact H1. }
  destruct (S (ground_data_point_count (hand_wrench i s)) mod 2 =? 0).
  2: { cbn [snd]. apply K. rewrite L. exact H1. }
  destruct (index (measured_base_wrench i) 0) as [x |];
    [destruct (index (measured_base_wrench i) 1) as [y |] |]; cbn [snd].
  2, 3: apply K; exact H1.
  intros p. rewrite L. friction_step. rewrite H1.
  intros [E | [E | [E | I]]].
  - exists 0%Q, 0%Q. split; [symmetry; exact E |]. left. reflexivity.
  - exists (- x)%Q, y. split; [symmetry; exact E |].
    right. right. left. rewrite Qopp_involutive_eq. reflexivity.
  - exists x, y. split; [symmetry; exact E |]. right. left. reflexivity.
  - destruct (M p I) as [a [b [E I']]]. exists a, b. split; [exact E |].
    right. right. right. exact I'.
Qed.

Lemma cycle_triples i s s' :
  cycle i s = (Ok tt, s') ->
  length (ground_points (trace s)) = 3 * (ground_data_point_count s / 2) ->
  length (ground_points (trace s')) = 3 * (ground_data_point_count s' / 2).
Proof.
  assert (H1 : ground_points (trace (hand_wrench i s))
               = ground_points (trace s)
               /\ ground_data_point_count (hand_wrench i s)
                  = ground_data_point_count s).
  { unfold hand_wrench. destruct (end_effector_wrench_has_new i);
      split; reflexivity. }
  assert (L : forall s', ground_points
                (trace (publish (ground_update i (robot_update i s'))))
              = ground_points (trace s')
              /\ ground_data_point_count
                   (publish (ground_update i (robot_update i s')))
                 = ground_data_point_count s').
  { intros s0. unfold publish, ground_update, robot_update.
    repeat match goal with
      | |- context [if ?b then _ else _] => destruct b; friction_step
      end; split; reflexivity. }
  destruct H1 as [H1 H2]. unfold cycle, ground_wrench. rewrite H2.
  destruct (div_succ 2 (ground_data_point_count s)) as [Q _];
    [discriminate |].
  destruct (end_effector_wrench_base_frame_has_new i).
  2: { intros E. inversion E; subst. destruct (L (hand_wrench i s)) as [La Lb].
       rewrite La, Lb, H1, H2. tauto. }
  destruct (S (ground_data_point_count s) mod 2 =? 0).
  - destruct (index (measured_base_wrench i) 0) as [x |]; [| discriminate].
    destruct (index (measured_base_wrench i) 1) as [y |]; [| discriminate].
    intros E. inversion E; subst. clear E.
    match goal with
    | |- context [publish (ground_update i (robot_update i ?s0))] =>
        destruct (L s0) as [La Lb]; rewrite La, Lb
    end.
    friction_step. rewrite H1, Q. intros F. rewrite F. lia.
  - intros E. inversion E; subst. clear E.
    match goal with
    | |- context [publish (ground_update i (robot_update i ?s0))] =>
        destruct (L s0) as [La Lb]; rewrite La, Lb
    end.
    friction_step. rewrite H1, Q. intros F. rewrite F. lia.
Qed.

(** The hull of the ground friction cone is fed symmetrically: every point
    given to the hull estimator has two coordinates and its mirror image
    in the vertical axis is given too.  In a completed run every second
    wrench in the base frame gives three points (the force, its mirror
    image and the origin), and the other wrenches give none. *)
Theorem ground_hull_points_are_mirrored (t0 : Q) (inputs : list Inputs) :
  let s := snd (run inputs (initial_state t0)) in
  (forall p, In p (ground_points (trace s)) ->
     exists x y, p = [x; y] /\ In [(- x)%Q; y] (ground_points (trace s)))
  /\ (fst (run inputs (initial_state t0)) = Ok tt ->
      length (ground_points (trace s)) = 3 * (new_ground_wrenches inputs / 2)).
Proof.
  intros s. split.
  - apply (friction_run_invariant mirrored (fun _ => True)).
    + intros i s0 _. apply cycle_mirrored.
    + apply Forall_True.
    + intros p [].
  - intros R.
    destruct (run_counts inputs (initial_state t0)) as [_ [_ C]].
    destruct (C R) as [_ G]. fold s in G. cbn in G. rewrite <- G.
    apply (friction_run_completed
             (fun s => length (ground_points (trace s))
                       = 3 * (ground_data_point_count s / 2))
             (fun _ => True) (fun i s0 s1 _ H C0 => cycle_triples i s0 s1 C0 H)
             inputs (initial_state t0) s (Forall_True _) eq_refl).
    unfold s. destruct (run inputs (initial_state t0)) as [r s1].
    cbn [fst snd] in *. rewrite R. reflexivity.
Qed.

(** ** After the boundary update time *)





(** Within the boundary update time a due ground update waits, and the
    next wrench in the base frame withdraws it: the hundredth wrench
    arrives at the start time, the next one a second later, and the ground
    cone is never updated. *)
Lemma early_ground_update_is_withdrawn :
  let s :=
    snd (run (repeat (both_wrenches 0) 100 ++ repeat (both_wrenches 1) 50)
           (initial_state 0)) in
  ground_data_point_count s = 150
  /\ ground_updates (trace s) = 0
  /\ update_ground_friction_cone s = false.
Proof. cbv zeta. repeat split; vm_compute; reflexivity. Qed.

End FrictionConeNode.

(** * The bag converter *)

Section BagConverter.

Import rosbag_to_pickle.
Import Ascii String.
Import List ListNotations.

(** ** Dictionaries *)

Section DictFacts.

Context {K V : Type} (key_eqb : K -> K -> bool).
Hypothesis key_eqb_eq : forall a b, key_eqb a b = true <-> a = b.

Lemma key_eqb_refl a : key_eqb a a = true.
Proof. apply key_eqb_eq. reflexivity. Qed.

Lemma key_eqb_neq a b : a <> b -> key_eqb a b = false.
Proof.
  intros N. destruct (key_eqb a b) eqn:E; [| reflexivity].
  apply key_eqb_eq in E. contradiction.
Qed.

Lemma dict_get_set_same (d : list (K * V)) k v :
  dict_get key_eqb (dict_set key_eqb d k v) k = Some v.
Proof.
  induction d as [| [k' v'] d IH]; cbn [dict_set dict_get].
  - rewrite key_eqb_refl. reflexivity.
  - destruct (key_eqb k' k) eqn:E; cbn [dict_get]; rewrite E.
    + reflexivity.
    + exact IH.
Qed.

Lemma dict_get_set_other (d : list (K * V)) k v k' :
  k <> k' ->
  dict_get key_eqb (dict_set key_eqb d k v) k' = dict_get key_eqb d k'.
Proof.
  intros N. induction d as [| [k0 v0] d IH]; cbn [dict_set dict_get].
  - rewrite (key_eqb_neq _ _ N). reflexivity.
  - destruct (key_eqb k0 k) eqn:E; cbn [dict_get].
    + apply key_eqb_eq in E. subst k0. rewrite (key_eqb_neq _ _ N).
      reflexivity.
    + rewrite IH. reflexivity.
Qed.

Lemma dict_get_in_keys (d : list (K * V)) k :
  In k (dict_keys d) <-> dict_get key_eqb d k <> None.
Proof.
  unfold dict_keys.
  induction d as [| [k' v'] d IH]; cbn [map fst In dict_get].
  - split; [intros [] | intros N; apply N; reflexivity].
  - destruct (key_eqb k' k) eqn:E.
    + apply key_eqb_eq in E. split; [discriminate | left; exact E].
    + rewrite <- IH. split; [intros [F | I]; [| exact I] | intros I; right; exact I].
      apply key_eqb_eq in F. congruence.
Qed.

Lemma dict_keys_set (d : list (K * V)) k v :
  dict_keys (dict_set key_eqb d k v)
  = match dict_get key_eqb d k with
    | Some _ => dict_keys d
    | None => dict_keys d ++ [k]
    end.
Proof.
  unfold dict_keys.
  induction d as [| [k' v'] d IH]; cbn [dict_set dict_get map fst app].
  - reflexivity.
  - destruct (key_eqb k' k) eqn:E; cbn [map fst].
    + reflexivity.
    + rewrite IH. destruct (dict_get key_eqb d k); reflexivity.
Qed.

Lemma dict_keys_set_NoDup (d : list (K * V)) k v :
  NoDup (dict_keys d) -> NoDup (dict_keys (dict_set key_eqb d k v)).
Proof.
  intros N. rewrite dict_keys_set.
  destruct (dict_get key_eqb d k) eqn:G; [exact N |].
  apply NoDup_app; [exact N | repeat constructor; intros [] |].
  intros a I [<- | []]. apply dict_get_in_keys in I. contradiction.
Qed.

Lemma dict_keys_set_in (d : list (K * V)) k v k' :
  In k' (dict_keys (dict_set key_eqb d k v)) <-> In k' (dict_keys d) \/ k' = k.
Proof.
  rewrite dict_keys_set. destruct (dict_get key_eqb d k) eqn:G.
  - split; [intros I; left; exact I | intros [I | ->]; [exact I |]].
    apply dict_get_in_keys. rewrite G. discriminate.
  - rewrite in_app_iff. cbn [In]. split.
    + intros [I | [E | []]]; [left; exact I | right; symmetry; exact E].
    + intros [I | E]; [left; exact I | right; left; symmetry; exact E].
Qed.

End DictFacts.

Lemma Z_eqb_eq_iff (a b : Z) : (a =? b)%Z = true <-> a = b.
Proof. apply Z.eqb_eq. Qed.

Lemma String_eqb_eq_iff (a b : string) : (a =? b)%string = true <-> a = b.
Proof. apply String.eqb_eq. Qed.

(** ** The detections of a tag array (lines 74-94) *)

Lemma detection_entry_key d k v :
  detection_entry d = Ok (k, v) -> getitem (id d) 0 = Ok k.
Proof.
  unfold detection_entry.
  destruct (getitem (id d) 0) as [i0 |]; [| discriminate].
  destruct (getitem (size d) 0) as [s0 |]; [| discriminate].
  intros E. inversion E; subst. reflexivity.
Qed.

Lemma detection_entry_raises d e :
  detection_entry d = Raise e -> e = IndexError /\ (id d = [] \/ size d = []).
Proof.
  unfold detection_entry, getitem.
  destruct (id d) as [| i0 l]; cbn.
  - intros E. inversion E. split; [reflexivity | left; reflexivity].
  - destruct (size d) as [| s0 l']; cbn; [| discriminate].
    intros E. inversion E. split; [reflexivity | right; reflexivity].
Qed.

Lemma fill_detection_dict_ok detections :
  forall d0 detection_dict,
    fill_detection_dict detections d0 = Ok detection_dict ->
    (NoDup (dict_keys d0) -> NoDup (dict_keys detection_dict))
    /\ (forall k, In k (dict_keys detection_dict) <->
          In k (dict_keys d0)
          \/ exists d, In d detections /\ getitem (id d) 0 = Ok k)
    /\ (forall k, (forall d, In d detections -> getitem (id d) 0 <> Ok k) ->
          dict_get Z.eqb detection_dict k = dict_get Z.eqb d0 k)
    /\ (forall pre d post k v,
          detections = pre ++ d :: post ->
          detection_entry d = Ok (k, v) ->
          (forall d', In d' post -> getitem (id d') 0 <> Ok k) ->
          dict_get Z.eqb detection_dict k = Some v).
Proof.
  induction detections as [| m detections IH]; intros d0 dd;
    cbn [fill_detection_dict].
  - intros E. inversion E; subst. repeat split.
    + intros N; exact N.
    + intros I; left; exact I.
    + intros [I | [d [[] _]]]; exact I.
    + intros pre d post k v F. destruct pre; discriminate F.
  - destruct (detection_entry m) as [[k0 v0] | e] eqn:M; [| discriminate].
    intros F. destruct (IH _ _ F) as [N [I [G L]]].
    pose proof (detection_entry_key _ _ _ M) as Km.
    split; [| split; [| split]].
    + intros N0. apply N. apply (dict_keys_set_NoDup _ Z_eqb_eq_iff).
      exact N0.
    + intros k. rewrite I, (dict_keys_set_in _ Z_eqb_eq_iff). cbn [In].
      split.
      * intros [[H | ->] | [d [H1 H2]]].
        -- left; exact H.
        -- right. exists m. split; [left; reflexivity | exact Km].
        -- right. exists d. split; [right; exact H1 | exact H2].
      * intros [H | [d [[<- | H1] H2]]].
        -- left; left; exact H.
        -- left; right. congruence.
        -- right. exists d. split; assumption.
    + intros k H. rewrite G by (intros d Id; apply H; right; exact Id).
      apply (dict_get_set_other _ Z_eqb_eq_iff).
      intros <-. apply (H m); [left; reflexivity | exact Km].
    + intros pre d post k v E Ed Last.
      destruct pre as [| p pre]; cbn [app] in E; inversion E; subst.
      * rewrite (G k Last). rewrite M in Ed. inversion Ed; subst.
        apply (dict_get_set_same _ Z_eqb_eq_iff).
      * apply (L pre d post k v eq_refl Ed Last).
Qed.

(** The dictionary made of a tag array has one key for each first id that
    occurs among the detections, in the order of first occurrence, and
    under this key the entry of the last detection with this id: of
    detections with the same id the earlier ones are lost.  It is made
    only of an array that has detections. *)
Theorem detection_dict_keeps_last_detection_of_each_id
  (detections : list Detection) (detection_dict : list (Z * DetectionDict)) :
  parse_apriltag_detection_array (AprilTagDetectionArray detections)
  = Ok (VDetections detection_dict) ->
  detections <> []
  /\ NoDup (dict_keys detection_dict)
  /\ (forall k, In k (dict_keys detection_dict) <->
        exists d, In d detections /\ getitem (id d) 0 = Ok k)
  /\ (forall pre d post k v,
        detections = pre ++ d :: post ->
        detection_entry d = Ok (k, v) ->
        (forall d', In d' post -> getitem (id d') 0 <> Ok k) ->
        dict_get Z.eqb detection_dict k = Some v).
Proof.
  unfold parse_apriltag_detection_array.
  destruct detections as [| d0 l] eqn:D; cbn [List.length Nat.ltb Nat.leb];
    [discriminate |].
  rewrite <- D.
  destruct (fill_detection_dict detections []) as [dd | e] eqn:F;
    [| discriminate].
  intros E. inversion E; subst dd. clear E.
  destruct (fill_detection_dict_ok _ _ _ F) as [N [I [_ L]]].
  split; [rewrite D; discriminate |].
  split; [apply N; constructor |]. split; [| exact L].
  intros k. rewrite I. cbn [dict_keys map In]. tauto.
Qed.

(** Two detections of tag 7: the entry of the second one is kept. *)
Lemma detection_dict_keeps_last_detection_of_each_id_witness :
  let v := Build_Vector3 0 0 0 in
  let q := Build_Quaternion 0 0 0 1 in
  let first := Build_Detection [7%Z] [1 # 10]%Q v q in
  let second := Build_Detection [7%Z] [2 # 10]%Q v q in
  let kept := Build_DetectionDict 7 (2 # 10) [0; 0; 0]%Q [0; 0; 0; 1]%Q in
  parse_apriltag_detection_array (AprilTagDetectionArray [first; second])
  = Ok (VDetections [(7%Z, kept)])
  /\ dict_get Z.eqb [(7%Z, kept)] 7%Z = Some kept.
Proof.
  intros v q first second kept.
  assert (P : parse_apriltag_detection_array
                (AprilTagDetectionArray [first; second])
              = Ok (VDetections [(7%Z, kept)])) by (vm_compute; reflexivity).
  split; [exact P |].
  refine (proj2 (proj2 (proj2
    (detection_dict_keeps_last_detection_of_each_id [first; second]
       [(7%Z, kept)] P))) [first] second [] 7%Z kept eq_refl _ _).
  - vm_compute. reflexivity.
  - intros d' [].
Defined.

(** ** The messages of a bag (lines 129-169) *)

Lemma add_to_data_get topic e data key :
  dict_get String.eqb (add_to_data topic e data) key
  = if (drop_first topic =? key)%string then
      match dict_get String.eqb data key with
      | Some l => Some (l ++ [e])
      | None => Some [e]
      end
    else dict_get String.eqb data key.
Proof.
  unfold add_to_data.
  destruct (drop_first topic =? key)%string eqn:E.
  - apply String.eqb_eq in E. subst key.
    destruct (dict_get String.eqb data (drop_first topic));
      apply (dict_get_set_same _ String_eqb_eq_iff).
  - apply String.eqb_neq in E.
    destruct (dict_get String.eqb data (drop_first topic));
      apply (dict_get_set_other _ String_eqb_eq_iff); exact E.
Qed.

Lemma add_to_data_NoDup topic e data :
  NoDup (dict_keys data) -> NoDup (dict_keys (add_to_data topic e data)).
Proof.
  intros N. unfold add_to_data.
  destruct (dict_get String.eqb data (drop_first topic));
    apply (dict_keys_set_NoDup _ String_eqb_eq_iff); exact N.
Qed.

Lemma read_messages_groups bag :
  forall data0 types0 data types,
    read_messages bag data0 types0 = Ok (data, types) ->
    (NoDup (dict_keys data0) -> NoDup (dict_keys data))
    /\ forall key,
         dict_get String.eqb data key
         = match dict_get String.eqb data0 key with
           | Some l0 => Some (l0 ++ entries_of key bag)
           | None =>
               match entries_of key bag with
               | [] => None
               | l => Some l
               end
           end.
Proof.
  induction bag as [| [[topic m] t] bag IH]; intros data0 types0 data types;
    cbn [read_messages].
  - intros E. inversion E; subst. split; [intros N; exact N |].
    intros key. cbn [entries_of flat_map].
    destruct (dict_get String.eqb data key); [rewrite app_nil_r |];
      reflexivity.
  - unfold entries_of. cbn [flat_map fst snd]. fold (entries_of).
    destruct (parse m) as [[v |] | e]; [| | discriminate].
    + intros R. destruct (IH _ _ _ _ R) as [N G].
      split; [intros N0; apply N, add_to_data_NoDup; exact N0 |].
      intros key. rewrite G, add_to_data_get.
      fold (entries_of key bag).
      destruct (drop_first topic =? key)%string;
        destruct (dict_get String.eqb data0 key); cbn [app];
        rewrite <- ?app_assoc; reflexivity.
    + intros R. destruct (IH _ _ _ _ R) as [N G].
      split; [exact N |]. intros key. rewrite G.
      fold (entries_of key bag).
      destruct (drop_first topic =? key)%string; reflexivity.
Qed.

(** The dictionary made of a bag groups the stored messages by topic
    without its first character: under each key are the entries of the
    messages of these topics, all of them and in the order of the bag, and
    a key is present only when it has an entry.  The entry of a message is
    its time and its parsed value; a [pbal] message of no known type is
    the only one that gives no entry. *)
Theorem data_groups_stored_messages_by_topic (bag : list Message)
  (types0 : list string) (data : Data) (types : list string) :
  read_messages bag [] types0 = Ok (data, types) ->
  NoDup (dict_keys data)
  /\ (forall key,
        dict_get String.eqb data key
        = match entries_of key bag with
          | [] => None
          | l => Some l
          end)
  /\ (forall key, In key (dict_keys data) <-> entries_of key bag <> [])
  /\ (forall m, parse m = Ok None ->
        contains "pbal/" (_type m) = true
        /\ parse_custom_pbal_message m = VNone).
Proof.
  intros R. destruct (read_messages_groups _ _ _ _ _ R) as [N G].
  cbn [dict_get] in G.
  split; [apply N; constructor |]. split; [exact G |]. split.
  - intros key. rewrite (dict_get_in_keys _ String_eqb_eq_iff), G.
    destruct (entries_of key bag); split; intros H; congruence.
  - intros m. unfold parse.
    assert (S : forall v, stored v <> Ok None)
      by (intros [v | e]; discriminate).
    repeat match goal with
      | |- (if (?a =? ?b)%string then _ else _) = _ -> _ =>
          destruct (a =? b)%string
      | |- stored ?v = _ -> _ => intros E; destruct (S _ E)
      end;
      try (destruct m; discriminate).
    destruct (contains "pbal/" (_type m)); [| discriminate].
    destruct (parse_custom_pbal_message m); try discriminate.
    intros _. split; reflexivity.
Qed.

(** Two wrenches on topics that differ in their first character only, and
    a [pbal] message of an unknown type between them: the two wrenches are
    under the same key, in the order of the bag. *)
Lemma data_groups_stored_messages_by_topic_witness :
  let bag :=
    [wrench_message "/wrench" 1; ("/debug", Other "pbal/Unknown" 0, 2%Q);
     wrench_message "_wrench" 3]%string in
  match read_messages bag [] [] with
  | Ok (data, _) =>
      option_map (map time) (dict_get String.eqb data "wrench"%string)
      = Some [1; 3]%Q
      /\ NoDup (dict_keys data)
  | Raise _ => False
  end.
Proof.
  intros bag.
  destruct (read_messages bag [] []) as [[data types] |] eqn:R;
    [| vm_compute in R; discriminate R].
  destruct (data_groups_stored_messages_by_topic bag [] data types R)
    as [N [G _]].
  split; [| exact N]. rewrite G. vm_compute. reflexivity.
Defined.

(** ** The types seen (lines 131-132) *)

Lemma note_type_in t types t' :
  In t' (note_type t types) <-> In t' types \/ t' = t.
Proof.
  unfold note_type. destruct (existsb (String.eqb t) types) eqn:E.
  - split; [intros I; left; exact I | intros [I | ->]; [exact I |]].
    apply existsb_exists in E. destruct E as [u [I U]].
    apply String.eqb_eq in U. subst u. exact I.
  - rewrite in_app_iff. cbn [In]. split.
    + intros [I | [U | []]]; [left; exact I | right; symmetry; exact U].
    + intros [I | U]; [left; exact I | right; left; symmetry; exact U].
Qed.

Lemma note_type_NoDup t types : NoDup types -> NoDup (note_type t types).
Proof.
  intros N. unfold note_type.
  destruct (existsb (String.eqb t) types) eqn:E; [exact N |].
  apply NoDup_app; [exact N | repeat constructor; intros [] |].
  intros a I [<- | []].
  assert (X : existsb (String.eqb t) types = true).
  { apply existsb_exists. exists t. split; [exact I | apply String.eqb_refl]. }
  congruence.
Qed.

Lemma note_type_extends t types : exists new, note_type t types = types ++ new.
Proof.
  unfold note_type. destruct (existsb (String.eqb t) types).
  - exists []. rewrite app_nil_r. reflexivity.
  - exists [t]. reflexivity.
Qed.

(** [msg_types] lists every type once: reading a bag keeps the types it
    had, in their order, and appends each type of a message of the bag
    that it did not have, also the type of a message that is not stored. *)
Theorem msg_types_lists_every_type_once (bag : list Message) (data0 : Data)
  (types0 : list string) (data : Data) (types : list string) :
  NoDup types0 ->
  read_messages bag data0 types0 = Ok (data, types) ->
  NoDup types
  /\ (exists new, types = types0 ++ new)
  /\ (forall t, In t types <->
        In t types0 \/ exists m, In m bag /\ _type (snd (fst m)) = t).
Proof.
  revert data0 types0.
  induction bag as [| [[topic m] tm] bag IH]; intros data0 types0 N;
    cbn [read_messages].
  - intros E. inversion E; subst. split; [exact N |].
    split; [exists []; rewrite app_nil_r; reflexivity |].
    intros t. split; [intros I; left; exact I |].
    intros [I | [m [[] _]]]. exact I.
  - assert (S : forall d1,
               read_messages bag d1 (note_type (_type m) types0)
               = Ok (data, types) ->
               NoDup types
               /\ (exists new, types = types0 ++ new)
               /\ (forall t, In t types <->
                     In t types0
                     \/ exists m0, In m0 ((topic, m, tm) :: bag)
                                   /\ _type (snd (fst m0)) = t)).
    { intros d1 R.
      destruct (IH d1 _ (note_type_NoDup _ _ N) R) as [N1 [[new E] I]].
      split; [exact N1 |]. split.
      - destruct (note_type_extends (_type m) types0) as [n0 E0].
        exists (n0 ++ new). rewrite E, E0, app_assoc. reflexivity.
      - intros t. rewrite I, note_type_in. cbn [In]. split.
        + intros [[H | ->] | [m0 [H1 H2]]].
          * left; exact H.
          * right. exists (topic, m, tm). split; [left; reflexivity |].
            reflexivity.
          * right. exists m0. split; [right; exact H1 | exact H2].
        + intros [H | [m0 [[<- | H1] H2]]].
          * left; left; exact H.
          * left; right. symmetry. exact H2.
          * right. exists m0. split; assumption. }
    destruct (parse m) as [[v |] | e]; [| | discriminate]; apply S.
Qed.

(** A [pbal] message of an unknown type is not stored, and its type is
    listed. *)
Lemma msg_types_lists_every_type_once_witness :
  match read_messages [("/debug", Other "pbal/Unknown" 0, 2%Q)]%string [] []
  with
  | Ok (data, types) => data = [] /\ NoDup types
  | Raise _ => False
  end.
Proof.
  destruct (read_messages [("/debug", Other "pbal/Unknown" 0, 2%Q)]%string
              [] []) as [[data types] |] eqn:R;
    [| vm_compute in R; discriminate R].
  split; [vm_compute in R; congruence |].
  exact (proj1 (msg_types_lists_every_type_once _ [] [] data types
                  (NoDup_nil _) R)).
Defined.

(** ** The payloads that are not stored (lines 68-72, 153-157) *)

Lemma blind_same m :
  fst (fst (blind m)) = fst (fst m) /\ snd (blind m) = snd m
  /\ _type (snd (fst (blind m))) = _type (snd (fst m))
  /\ parse (snd (fst (blind m))) = parse (snd (fst m)).
Proof.
  destruct m as [[topic []] t]; cbn [blind fst snd]; repeat split;
    reflexivity.
Qed.

(** The payload of an [Int32] or a [Bool] message does not reach the
    dictionary: the two parsers return nothing, the entry holds [None],
    and the result of reading a bag is the same whatever these payloads
    are. *)
Theorem scalar_payloads_are_not_stored (bag : list Message) (data0 : Data)
  (types0 : list string) :
  read_messages (map blind bag) data0 types0 = read_messages bag data0 types0
  /\ forall topic t m,
       (exists d, m = Int32 d) \/ (exists b, m = StdBool b) ->
       exists data types before,
         read_messages [(topic, m, t)] data0 types0 = Ok (data, types)
         /\ dict_get String.eqb data (drop_first topic)
            = Some (before ++ [Build_Entry t VNone]).
Proof.
  split.
  - revert data0 types0.
    induction bag as [| m bag IH]; intros data0 types0; [reflexivity |].
    cbn [map]. destruct (blind_same m) as [T [Tm [Ty P]]].
    destruct (blind m) as [[topic' m'] t'], m as [[topic m0] t0].
    cbn [fst snd] in *. subst topic' t'. cbn [read_messages].
    rewrite Ty, P. destruct (parse m0) as [[v |] | e]; [| | reflexivity];
      apply IH.
  - assert (S : forall topic t m,
               parse m = Ok (Some VNone) ->
               exists data types before,
                 read_messages [(topic, m, t)] data0 types0 = Ok (data, types)
                 /\ dict_get String.eqb data (drop_first topic)
                    = Some (before ++ [Build_Entry t VNone])).
    { intros topic t m P. cbn [read_messages]. rewrite P.
      eexists. eexists.
      destruct (dict_get String.eqb data0 (drop_first topic)) as [l |] eqn:G;
        [exists l | exists []];
        (split; [reflexivity |]);
        rewrite add_to_data_get, String.eqb_refl, G; reflexivity. }
    intros topic t m [[d ->] | [b ->]]; apply S; reflexivity.
Qed.

(** ** The bags to convert (lines 106-117) *)

Lemma split_dot_first s : getitem (split_dot s) 0 = Ok (first_part s).
Proof.
  unfold first_part, getitem.
  destruct s as [| c s]; cbn [split_dot]; [reflexivity |].
  destruct (c =? ".")%char; [reflexivity |].
  destruct (split_dot s); reflexivity.
Qed.

Lemma split_dot_second s :
  getitem (split_dot s) 1
  = if has_dot s then Ok (second_part s) else Raise IndexError.
Proof.
  unfold second_part.
  induction s as [| c s IH]; cbn [split_dot has_dot]; [reflexivity |].
  destruct (c =? ".")%char; cbn [orb].
  - pose proof (split_dot_first s) as F. unfold getitem, first_part in *.
    cbn [nth_error nth]. destruct (split_dot s); [discriminate F |].
    reflexivity.
  - destruct (split_dot s) as [| h t]; [exact IH |]. exact IH.
Qed.

Lemma is_key_set d k k' :
  is_key (dict_set String.eqb d k true) k' = is_key d k' || (k =? k')%string.
Proof.
  unfold is_key. destruct (k =? k')%string eqn:E.
  - apply String.eqb_eq in E. subst k'.
    rewrite (dict_get_set_same _ String_eqb_eq_iff). rewrite orb_true_r.
    reflexivity.
  - apply String.eqb_neq in E.
    rewrite (dict_get_set_other _ String_eqb_eq_iff) by exact E.
    rewrite orb_false_r. reflexivity.
Qed.

Lemma pickled_spec listing :
  forall pickle_dict,
    if forallb has_dot listing then
      exists d, pickled listing pickle_dict = Ok d
                /\ forall stem, is_key d stem
                                = is_key pickle_dict stem
                                  || has_pickle listing stem
    else pickled listing pickle_dict = Raise IndexError.
Proof.
  induction listing as [| f listing IH]; intros d0;
    cbn [forallb pickled has_pickle existsb].
  - exists d0. split; [reflexivity |]. intros stem.
    rewrite orb_false_r. reflexivity.
  - rewrite split_dot_second, split_dot_first.
    destruct (has_dot f); cbn [andb]; [| reflexivity].
    destruct (second_part f =? "pickle")%string; cbn [andb].
    + specialize (IH (dict_set String.eqb d0 (first_part f) true)).
      destruct (forallb has_dot listing); [| exact IH].
      destruct IH as [d [P K]]. exists d. split; [exact P |].
      intros stem. rewrite K, is_key_set. fold (has_pickle listing stem).
      rewrite <- orb_assoc. reflexivity.
    + specialize (IH d0).
      destruct (forallb has_dot listing); [| exact IH].
      destruct IH as [d [P K]]. exists d. split; [exact P |].
      intros stem. rewrite K. reflexivity.
Qed.

Lemma unpickled_spec listing :
  forall pickle_dict acc,
    unpickled listing pickle_dict acc
    = if forallb has_dot listing then
        Ok (acc ++ filter
                     (fun f => (second_part f =? "bag")%string
                               && negb (is_key pickle_dict (first_part f)))
                     listing)
      else Raise IndexError.
Proof.
  induction listing as [| f listing IH]; intros d acc;
    cbn [forallb unpickled filter].
  - rewrite app_nil_r. reflexivity.
  - rewrite split_dot_second, split_dot_first.
    destruct (has_dot f); cbn [andb]; [| reflexivity].
    destruct (second_part f =? "bag")%string; cbn [andb].
    + destruct (is_key d (first_part f)); cbn [negb]; rewrite IH;
        destruct (forallb has_dot listing); try reflexivity.
      rewrite <- app_assoc. reflexivity.
    + rewrite IH. reflexivity.
Qed.

Lemma select_spec listing1 listing2 :
  select listing1 listing2
  = if forallb has_dot (listing1 ++ listing2)
    then Ok (filter (to_convert listing1) listing2)
    else Raise IndexError.
Proof.
  unfold select. rewrite forallb_app.
  pose proof (pickled_spec listing1 []) as P.
  destruct (forallb has_dot listing1); cbn [andb].
  - destruct P as [d [P K]]. rewrite P, unpickled_spec.
    destruct (forallb has_dot listing2); [| reflexivity].
    cbn [app]. f_equal. apply filter_ext. intros f. unfold to_convert.
    rewrite K. reflexivity.
  - rewrite P. reflexivity.
Qed.

(** The selection needs a dot in every listed name: it raises
    [IndexError] exactly when a name of either listing has none, whether
    the file is a bag or not.  When it completes it keeps, in the order of
    the listing, the names whose second part is ['bag'] and whose first
    part is not the first part of a listed name with the second part
    ['pickle']; the later parts of a name are not read. *)
Theorem selection_needs_a_dot_in_every_name (listing1 listing2 : list string) :
  match select listing1 listing2 with
  | Ok unpickled_list =>
      forallb has_dot (listing1 ++ listing2) = true
      /\ unpickled_list = filter (to_convert listing1) listing2
  | Raise e =>
      e = IndexError
      /\ exists fname, In fname (listing1 ++ listing2)
                       /\ has_dot fname = false
  end.
Proof.
  rewrite select_spec.
  destruct (forallb has_dot (listing1 ++ listing2)) eqn:D.
  - split; reflexivity.
  - split; [reflexivity |].
    revert D. generalize (listing1 ++ listing2). clear.
    induction l as [| f l IH]; cbn [forallb]; [discriminate |].
    destruct (has_dot f) eqn:H; cbn [andb].
    + intros D. destruct (IH D) as [g [I N]]. exists g.
      split; [right; exact I | exact N].
    + intros _. exists f. split; [left; reflexivity | exact H].
Qed.

(** ** A second run (lines 106-117 and 174-179) *)

Lemma split_dot_single s b :
  split_dot s = [b] -> s = b /\ has_dot s = false.
Proof.
  revert b. induction s as [| c s IH]; intros b; cbn [split_dot has_dot].
  - intros E. inversion E. split; reflexivity.
  - destruct (c =? ".")%char; cbn [orb].
    + intros E. inversion E as [[E1 E2]].
      destruct s as [| c' s']; cbn [split_dot] in E2; [discriminate |].
      destruct (c' =? ".")%char; [discriminate |].
      destruct (split_dot s'); discriminate.
    + destruct (split_dot s) as [| h t] eqn:S.
      * intros E. inversion E; subst.
        destruct s as [| c' s']; cbn [split_dot] in S; [discriminate |].
        destruct (c' =? ".")%char; [discriminate |].
        destruct (split_dot s'); discriminate.
      * intros E. inversion E; subst.
        destruct (IH h eq_refl) as [-> D]. split; [reflexivity | exact D].
Qed.

Lemma split_dot_dotless s : has_dot s = false -> split_dot s = [s].
Proof.
  induction s as [| c s IH]; cbn [split_dot has_dot]; [reflexivity |].
  destruct (c =? ".")%char; cbn [orb]; [discriminate |].
  intros D. rewrite (IH D). reflexivity.
Qed.

Lemma split_dot_join a b :
  has_dot a = false ->
  split_dot (a ++ String "." b)%string = a :: split_dot b.
Proof.
  induction a as [| c a IH]; cbn [append split_dot has_dot].
  - reflexivity.
  - destruct (c =? ".")%char; cbn [orb]; [discriminate |].
    intros D. rewrite (IH D). reflexivity.
Qed.

Lemma split_dot_pair f a b :
  split_dot f = [a; b] ->
  f = (a ++ String "." b)%string /\ has_dot a = false /\ has_dot b = false.
Proof.
  revert a. induction f as [| c f IH]; intros a; cbn [split_dot].
  - discriminate.
  - destruct (c =? ".")%char eqn:C.
    + intros E. inversion E as [[E1 E2]].
      destruct (split_dot_single _ _ E2) as [-> D].
      apply Ascii.eqb_eq in C. subst c. repeat split; assumption.
    + destruct (split_dot f) as [| h t] eqn:S; [discriminate |].
      intros E. inversion E; subst.
      destruct (IH h eq_refl) as [-> [Da Db]].
      cbn [append has_dot]. rewrite C. repeat split; assumption.
Qed.

Lemma rsplit_dot_dotless s : has_dot s = false -> rsplit_dot s = None.
Proof.
  induction s as [| c s IH]; cbn [rsplit_dot has_dot]; [reflexivity |].
  destruct (c =? ".")%char; cbn [orb]; [discriminate |].
  intros D. rewrite (IH D). reflexivity.
Qed.

Lemma rsplit_dot_join a b :
  has_dot b = false ->
  rsplit_dot (a ++ String "." b)%string = Some (a, String "." b).
Proof.
  intros D. induction a as [| c a IH]; cbn [append rsplit_dot].
  - rewrite (rsplit_dot_dotless _ D). reflexivity.
  - rewrite IH. reflexivity.
Qed.

Lemma all_dots_dotless a :
  has_dot a = false -> a <> EmptyString -> all_dots a = false.
Proof.
  destruct a as [| c a]; [intros _ N; destruct N; reflexivity |].
  cbn [has_dot all_dots]. destruct (c =? ".")%char; cbn [orb andb];
    [discriminate | reflexivity].
Qed.

(** The pickle of a bag with a simple name has the stem of the bag. *)
Lemma pickle_name_simple f :
  simple_name f = true ->
  exists a b,
    split_dot f = [a; b]
    /\ split_dot (pickle_name f) = [a; "pickle"%string].
Proof.
  unfold simple_name.
  destruct (split_dot f) as [| a [| b [| ? ?]]] eqn:S; try discriminate.
  intros N. exists a, b. split; [reflexivity |].
  destruct (split_dot_pair _ _ _ S) as [-> [Da Db]].
  unfold pickle_name, splitext_root. rewrite (rsplit_dot_join _ _ Db).
  rewrite all_dots_dotless; [| exact Da |].
  - change (a ++ ".pickle")%string with (a ++ String "." "pickle")%string.
    rewrite (split_dot_join _ _ Da). reflexivity.
  - intros ->. discriminate N.
Qed.

Lemma simple_name_has_dot f : simple_name f = true -> has_dot f = true.
Proof.
  unfold simple_name. intros S. pose proof (split_dot_second f) as G.
  destruct (has_dot f); [reflexivity |].
  destruct (split_dot f) as [| a [| b [| ? ?]]]; discriminate.
Qed.

Lemma convert_names read unpickled_list :
  forall types0 saved types,
    convert read unpickled_list types0 = (saved, Ok types) ->
    map fst saved = map pickle_name unpickled_list.
Proof.
  induction unpickled_list as [| f l IH]; intros types0 saved types;
    cbn [convert].
  - intros E. inversion E. reflexivity.
  - destruct (read_messages (read f) [] types0) as [[data t1] |];
      [| discriminate].
    destruct (convert read l t1) as [saved' r] eqn:C.
    intros E. inversion E; subst. cbn [map fst]. rewrite (IH _ _ _ C).
    reflexivity.
Qed.

(** In a directory of simple names a second run finds nothing to convert:
    every bag that the first run selected has got a pickle of its stem.
    The pickle is named by [os.path.splitext] and recognised by
    [split('.')]; for a name with one dot and a stem the two agree. *)
Theorem converted_bags_are_not_selected_again (read : string -> list Message)
  (listing unpickled_list : list string) (types0 : list string)
  (saved : list (string * Data)) (types : list string)
  (listing' : list string) :
  forallb simple_name listing = true ->
  select listing listing = Ok unpickled_list ->
  convert read unpickled_list types0 = (saved, Ok types) ->
  (forall f, In f listing' <-> In f listing \/ In f (map fst saved)) ->
  select listing' listing' = Ok [].
Proof.
  intros Simple Sel Conv New.
  rewrite (convert_names _ _ _ _ _ Conv) in New.
  rewrite select_spec in Sel.
  destruct (forallb has_dot (listing ++ listing)); [| discriminate].
  inversion Sel as [U]. clear Sel.
  assert (Sim : forall f, In f listing -> simple_name f = true)
    by (apply forallb_forall; exact Simple).
  assert (Sub : forall f, In f unpickled_list ->
                          In f listing /\ to_convert listing f = true).
  { intros f I. rewrite <- U in I. apply filter_In in I. exact I. }
  assert (Dots : forallb has_dot (listing' ++ listing') = true).
  { apply forallb_forall. intros f I. apply in_app_or in I.
    assert (I' : In f listing') by (destruct I; assumption).
    apply New in I'. destruct I' as [I' | I'].
    - apply simple_name_has_dot, Sim, I'.
    - apply in_map_iff in I'. destruct I' as [u [<- Iu]].
      destruct (pickle_name_simple u (Sim u (proj1 (Sub u Iu))))
        as [a [b [_ P]]].
      pose proof (split_dot_second (pickle_name u)) as G. rewrite P in G.
      destruct (has_dot (pickle_name u)); [reflexivity | discriminate G]. }
  rewrite select_spec, Dots. f_equal.
  assert (None : forall f, In f listing' -> to_convert listing' f = false).
  { intros f I. apply New in I. destruct I as [I | I].
    - destruct (pickle_name_simple f (Sim f I)) as [a [b [S P]]].
      unfold to_convert, second_part, first_part. rewrite S. cbn [nth].
      destruct (b =? "bag")%string eqn:B; [| reflexivity]. cbn [andb].
      apply negb_false_iff.
      destruct (has_pickle listing a) eqn:H.
      + unfold has_pickle in *. apply existsb_exists in H.
        destruct H as [g [Ig Hg]]. apply existsb_exists. exists g.
        split; [apply New; left; exact Ig | exact Hg].
      + assert (If : In f unpickled_list).
        { rewrite <- U. apply filter_In. split; [exact I |].
          unfold to_convert, second_part, first_part. rewrite S. cbn [nth].
          rewrite B, H. reflexivity. }
        unfold has_pickle. apply existsb_exists. exists (pickle_name f).
        split; [apply New; right; apply in_map; exact If |].
        unfold second_part, first_part. rewrite P. cbn [nth].
        rewrite String.eqb_refl, String.eqb_refl. reflexivity.
    - apply in_map_iff in I. destruct I as [u [<- Iu]].
      destruct (pickle_name_simple u (Sim u (proj1 (Sub u Iu))))
        as [a [b [_ P]]].
      unfold to_convert, second_part. rewrite P. reflexivity. }
  assert (E : forall (p : string -> bool) l,
             (forall f, In f l -> p f = false) -> filter p l = []).
  { clear. intros p l. induction l as [| f l IH]; intros H; cbn [filter];
      [reflexivity |].
    rewrite (H f (or_introl eq_refl)). apply IH. intros g I. apply H.
    right. exact I. }
  apply E. exact None.
Qed.

(** A bag and a converted bag: the first run converts [a.bag], and with
    [a.pickle] in the directory the second run converts nothing. *)
Lemma converted_bags_are_not_selected_again_witness :
  select ["a.bag"; "b.bag"; "b.pickle"; "a.pickle"]%string
    ["a.bag"; "b.bag"; "b.pickle"; "a.pickle"]%string
  = Ok [].
Proof.
  refine (converted_bags_are_not_selected_again (fun _ => [])
            ["a.bag"; "b.bag"; "b.pickle"]%string ["a.bag"%string] []
            [("a.pickle"%string, [])] []
            ["a.bag"; "b.bag"; "b.pickle"; "a.pickle"]%string _ _ _ _).
  - vm_compute. reflexivity.
  - vm_compute. reflexivity.
  - vm_compute. reflexivity.
  - intros f. cbn [In map fst]. tauto.
Defined.

(** With a further dot in its name a bag is converted by every run: the
    pickle of [a.bag.old] is [a.bag.pickle], which the selection takes for
    another bag of the stem [a] without a pickle. *)
Lemma bag_with_two_dots_is_selected_again :
  select ["a.bag.old"]%string ["a.bag.old"]%string = Ok ["a.bag.old"%string]
  /\ pickle_name "a.bag.old" = "a.bag.pickle"%string
  /\ select ["a.bag.old"; "a.bag.pickle"]%string
       ["a.bag.old"; "a.bag.pickle"]%string
     = Ok ["a.bag.old"; "a.bag.pickle"]%string.
Proof. repeat split; vm_compute; reflexivity. Qed.

(** A bag whose name has a dot before the extension is never converted. *)
Lemma bag_with_dotted_stem_is_not_selected :
  select ["run.v2.bag"]%string ["run.v2.bag"]%string = Ok [].
Proof. vm_compute. reflexivity. Qed.


End BagConverter.
